(** * sse_utils: vectorised element-wise arithmetic and sum reduction

    A shallow embedding of [sse_utils.c].  The six kernels are written in a
    small state-and-fault monad over a heap of array elements; every loop
    of the source is a [for_loop] with the source's guard and increment,
    every intrinsic is a definition of the same name.  C [int] arithmetic
    wraps at 32 bits ([wrap_int]); the element arithmetic is a parameter
    ([arith]) which is instantiated with IEEE-754 binary32 and binary64
    (the Standard Library's [SpecFloat]) for the program as compiled, and
    with exact integers where a statement speaks of exact arithmetic. *)

From Stdlib Require Import ZArith Lia QArith Qabs Qpower Qfield Floats.SpecFloat.
From stdpp Require Import gmap list.

Open Scope Z_scope.

(** ** C [int] *)

Definition INT_MIN : Z := -2147483648.
Definition INT_MAX : Z := 2147483647.

(** The value of a 32-bit two's-complement [int] holding [z]. *)
Definition wrap_int (z : Z) : Z := (z + 2 ^ 31) mod 2 ^ 32 - 2 ^ 31.

Definition in_int (z : Z) : Prop := INT_MIN <= z <= INT_MAX.

(** ** Element arithmetic *)

Record arith : Type := Arith {
  elt : Type;
  fadd : elt -> elt -> elt;
  fmul : elt -> elt -> elt;
  fzero : elt
}.

(** IEEE-754 binary arithmetic with [prec] bits of precision and
    exponents below [emax], round to nearest even; zero is +0. *)
Definition ieee (prec emax : Z) : arith :=
  Arith spec_float (SFadd prec emax) (SFmul prec emax) (S754_zero false).

(** [float]: IEEE-754 binary32. *)
Definition binary32 : arith := ieee 24 128.

(** [double]: IEEE-754 binary64. *)
Definition binary64 : arith := ieee 53 1024.

(** Exact integer arithmetic, for statements about reassociation. *)
Definition exactZ : arith := Arith Z Z.add Z.mul 0.

(** The float of the given format nearest to the integer [n]. *)
Definition f32 (n : Z) : spec_float := binary_normalize 24 128 n 0 false.
Definition f64 (n : Z) : spec_float := binary_normalize 53 1024 n 0 false.

(** ** Memory, access log and the kernel monad *)

(** One memory access: the address of its first element (in elements) and
    the number of lanes moved.  8- and 4-lane accesses are the [ymm] and
    [xmm] transfers of the single-precision kernels, 4 and 2 those of the
    double-precision ones, 1 is a scalar access. *)
Inductive event : Type :=
  | EvLoad (p : Z) (w : nat)
  | EvStore (p : Z) (w : nat).

Section Machine.

Context (A : arith).
Abbreviation T := (elt A).

(** The memory maps addresses, counted in elements, to elements; the
    trace lists the accesses made so far, oldest first. *)
Record state : Type := State {
  mem : gmap Z T;
  trace : list event
}.

(** A run ends normally with a result, or at an access to an address
    that is not mapped (undefined behaviour in C), or because the fuel of
    a loop is used up; each time with the state reached. *)
Inductive outcome (X : Type) : Type :=
  | Ok (x : X) (s : state)
  | Fault (s : state)
  | Timeout (s : state).
Arguments Ok {X} x s.
Arguments Fault {X} s.
Arguments Timeout {X} s.

Definition M (X : Type) : Type := state -> outcome X.

Definition ret {X} (x : X) : M X := fun s => Ok x s.

Definition bind {X Y} (m : M X) (f : X -> M Y) : M Y :=
  fun s =>
    match m s with
    | Ok x s' => f x s'
    | Fault s' => Fault s'
    | Timeout s' => Timeout s'
    end.

Notation "'do' x <- m ; k" := (bind m (fun x => k))
  (at level 10, x pattern, m at level 99, k at level 200, only parsing).

Fixpoint read_lanes (m : gmap Z T) (p : Z) (w : nat) : option (list T) :=
  match w with
  | O => Some []
  | S w' =>
      match m !! p, read_lanes m (p + 1) w' with
      | Some x, Some v => Some (x :: v)
      | _, _ => None
      end
  end.

Fixpoint write_lanes (m : gmap Z T) (p : Z) (v : list T) : gmap Z T :=
  match v with
  | [] => m
  | x :: v' => write_lanes (<[p := x]> m) (p + 1) v'
  end.

(** [w] elements starting at [p] are mapped. *)
Definition allocated (m : gmap Z T) (p : Z) (w : nat) : bool :=
  match read_lanes m p w with Some _ => true | None => false end.

Definition log (e : event) (s : state) : state :=
  State (mem s) (trace s ++ [e]).

(** Unaligned load of [w] lanes from address [p]. *)
Definition loadu (w : nat) (p : Z) : M (list T) :=
  fun s =>
    match read_lanes (mem s) p w with
    | Some v => Ok v (log (EvLoad p w) s)
    | None => Fault s
    end.

(** Unaligned store of the register [v], which has [w] lanes, at
    address [p]. *)
Definition storeu (w : nat) (p : Z) (v : list T) : M unit :=
  fun s =>
    if allocated (mem s) p w
    then Ok tt (State (write_lanes (mem s) p v) (trace s ++ [EvStore p w]))
    else Fault s.

(** Scalar read [p[0]] and write [p[0] = x]. *)
Definition load (p : Z) : M T :=
  fun s =>
    match mem s !! p with
    | Some x => Ok x (log (EvLoad p 1) s)
    | None => Fault s
    end.

Definition store (p : Z) (x : T) : M unit :=
  fun s =>
    match mem s !! p with
    | Some _ => Ok tt (State (<[p := x]> (mem s)) (trace s ++ [EvStore p 1]))
    | None => Fault s
    end.

(** [for (; guard i; i = incr i) x = body i x], returning the final [i]
    and [x].  One unit of fuel is spent per executed body. *)
Fixpoint for_loop {X} (fuel : nat) (guard : Z -> bool) (body : Z -> X -> M X)
    (incr : Z -> Z) (i : Z) (x : X) : M (Z * X) :=
  fun s =>
    if guard i then
      match fuel with
      | O => Timeout s
      | S n =>
          match body i x s with
          | Ok x' s' => for_loop n guard body incr (incr i) x' s'
          | Fault s' => Fault s'
          | Timeout s' => Timeout s'
          end
      end
    else Ok (i, x) s.

(** ** Intrinsics *)

Definition lane (k : nat) (v : list T) : T := nth k v (fzero A).

Definition _mm256_loadu_ps : Z -> M (list T) := loadu 8.
Definition _mm_loadu_ps : Z -> M (list T) := loadu 4.
Definition _mm256_loadu_pd : Z -> M (list T) := loadu 4.
Definition _mm_loadu_pd : Z -> M (list T) := loadu 2.

Definition _mm256_storeu_ps : Z -> list T -> M unit := storeu 8.
Definition _mm_storeu_ps : Z -> list T -> M unit := storeu 4.
Definition _mm256_storeu_pd : Z -> list T -> M unit := storeu 4.
Definition _mm_storeu_pd : Z -> list T -> M unit := storeu 2.

Definition _mm256_add_ps (a b : list T) : list T := zip_with (fadd A) a b.
Definition _mm_add_ps (a b : list T) : list T := zip_with (fadd A) a b.
Definition _mm256_add_pd (a b : list T) : list T := zip_with (fadd A) a b.
Definition _mm_add_pd (a b : list T) : list T := zip_with (fadd A) a b.

Definition _mm256_mul_ps (a b : list T) : list T := zip_with (fmul A) a b.
Definition _mm_mul_ps (a b : list T) : list T := zip_with (fmul A) a b.
Definition _mm256_mul_pd (a b : list T) : list T := zip_with (fmul A) a b.
Definition _mm_mul_pd (a b : list T) : list T := zip_with (fmul A) a b.

Definition _mm_setzero_ps : list T := replicate 4 (fzero A).
Definition _mm_setzero_pd : list T := replicate 2 (fzero A).

(** Horizontal add: sums of adjacent lane pairs of [a], then of [b].
    (The order of the two operands of one addition does not matter to
    the value.) *)
Definition _mm_hadd_ps (a b : list T) : list T :=
  [ fadd A (lane 0 a) (lane 1 a); fadd A (lane 2 a) (lane 3 a);
    fadd A (lane 0 b) (lane 1 b); fadd A (lane 2 b) (lane 3 b) ].

Definition _mm_hadd_pd (a b : list T) : list T :=
  [ fadd A (lane 0 a) (lane 1 a); fadd A (lane 0 b) (lane 1 b) ].

(** [_mm_store_ss(&sum, v)] and [_mm_store_sd(&sum, v)] put the lowest
    lane into the local variable [sum]. *)
Definition _mm_store_ss (v : list T) : T := lane 0 v.
Definition _mm_store_sd (v : list T) : T := lane 0 v.

(** ** The kernels *)

Definition sse_utils_vadds (fuel : nat) (c a b : Z) (len : Z) : M unit :=
  let vlen := wrap_int (len - 8) in
  do (i, _) <- for_loop fuel (fun i => i <=? vlen)
      (fun i _ =>
         do a_256 <- _mm256_loadu_ps (a + i) ;
         do b_256 <- _mm256_loadu_ps (b + i) ;
         let c_256 := _mm256_add_ps a_256 b_256 in
         _mm256_storeu_ps (c + i) c_256)
      (fun i => wrap_int (i + 8)) 0 tt ;
  let vlen := wrap_int (len - 4) in
  do (i, _) <- for_loop fuel (fun i => i <=? vlen)
      (fun i _ =>
         do a_128 <- _mm_loadu_ps (a + i) ;
         do b_128 <- _mm_loadu_ps (b + i) ;
         let c_128 := _mm_add_ps a_128 b_128 in
         _mm_storeu_ps (c + i) c_128)
      (fun i => wrap_int (i + 4)) i tt ;
  do (_, _) <- for_loop fuel (fun i => i <? len)
      (fun i _ =>
         do x <- load (a + i) ;
         do y <- load (b + i) ;
         store (c + i) (fadd A x y))
      (fun i => wrap_int (i + 1)) i tt ;
  ret tt.

Definition sse_utils_vaddd (fuel : nat) (c a b : Z) (len : Z) : M unit :=
  let vlen := wrap_int (len - 4) in
  do (i, _) <- for_loop fuel (fun i => i <=? vlen)
      (fun i _ =>
         do a_256 <- _mm256_loadu_pd (a + i) ;
         do b_256 <- _mm256_loadu_pd (b + i) ;
         let c_256 := _mm256_add_pd a_256 b_256 in
         _mm256_storeu_pd (c + i) c_256)
      (fun i => wrap_int (i + 4)) 0 tt ;
  let vlen := wrap_int (len - 2) in
  do (i, _) <- for_loop fuel (fun i => i <=? vlen)
      (fun i _ =>
         do a_128 <- _mm_loadu_pd (a + i) ;
         do b_128 <- _mm_loadu_pd (b + i) ;
         let c_128 := _mm_add_pd a_128 b_128 in
         _mm_storeu_pd (c + i) c_128)
      (fun i => wrap_int (i + 2)) i tt ;
  do (_, _) <- for_loop fuel (fun i => i <? len)
      (fun i _ =>
         do x <- load (a + i) ;
         do y <- load (b + i) ;
         store (c + i) (fadd A x y))
      (fun i => wrap_int (i + 1)) i tt ;
  ret tt.

Definition sse_utils_vmuls (fuel : nat) (c a b : Z) (len : Z) : M unit :=
  let vlen := wrap_int (len - 8) in
  do (i, _) <- for_loop fuel (fun i => i <=? vlen)
      (fun i _ =>
         do a_256 <- _mm256_loadu_ps (a + i) ;
         do b_256 <- _mm256_loadu_ps (b + i) ;
         let c_256 := _mm256_mul_ps a_256 b_256 in
         _mm256_storeu_ps (c + i) c_256)
      (fun i => wrap_int (i + 8)) 0 tt ;
  let vlen := wrap_int (len - 4) in
  do (i, _) <- for_loop fuel (fun i => i <=? vlen)
      (fun i _ =>
         do a_128 <- _mm_loadu_ps (a + i) ;
         do b_128 <- _mm_loadu_ps (b + i) ;
         let c_128 := _mm_mul_ps a_128 b_128 in
         _mm_storeu_ps (c + i) c_128)
      (fun i => wrap_int (i + 4)) i tt ;
  do (_, _) <- for_loop fuel (fun i => i <? len)
      (fun i _ =>
         do x <- load (a + i) ;
         do y <- load (b + i) ;
         store (c + i) (fmul A x y))
      (fun i => wrap_int (i + 1)) i tt ;
  ret tt.

Definition sse_utils_vmuld (fuel : nat) (c a b : Z) (len : Z) : M unit :=
  let vlen := wrap_int (len - 4) in
  do (i, _) <- for_loop fuel (fun i => i <=? vlen)
      (fun i _ =>
         do a_256 <- _mm256_loadu_pd (a + i) ;
         do b_256 <- _mm256_loadu_pd (b + i) ;
         let c_256 := _mm256_mul_pd a_256 b_256 in
         _mm256_storeu_pd (c + i) c_256)
      (fun i => wrap_int (i + 4)) 0 tt ;
  let vlen := wrap_int (len - 2) in
  do (i, _) <- for_loop fuel (fun i => i <=? vlen)
      (fun i _ =>
         do a_128 <- _mm_loadu_pd (a + i) ;
         do b_128 <- _mm_loadu_pd (b + i) ;
         let c_128 := _mm_mul_pd a_128 b_128 in
         _mm_storeu_pd (c + i) c_128)
      (fun i => wrap_int (i + 2)) i tt ;
  do (_, _) <- for_loop fuel (fun i => i <? len)
      (fun i _ =>
         do x <- load (a + i) ;
         do y <- load (b + i) ;
         store (c + i) (fmul A x y))
      (fun i => wrap_int (i + 1)) i tt ;
  ret tt.

Definition sse_utils_sums (fuel : nat) (a : Z) (len : Z) : M T :=
  let vlen := wrap_int (len - 4) in
  let sum_128 := _mm_setzero_ps in
  do (i, sum_128) <- for_loop fuel (fun i => i <=? vlen)
      (fun i sum_128 =>
         do a_128 <- _mm_loadu_ps (a + i) ;
         ret (_mm_add_ps sum_128 a_128))
      (fun i => wrap_int (i + 4)) 0 sum_128 ;
  let sum_128 := _mm_hadd_ps sum_128 sum_128 in
  let sum_128 := _mm_hadd_ps sum_128 sum_128 in
  let sum := _mm_store_ss sum_128 in
  do (_, sum) <- for_loop fuel (fun i => i <? len)
      (fun i sum =>
         do x <- load (a + i) ;
         ret (fadd A sum x))
      (fun i => wrap_int (i + 1)) i sum ;
  ret sum.

Definition sse_utils_sumd (fuel : nat) (a : Z) (len : Z) : M T :=
  let vlen := wrap_int (len - 2) in
  let sum_128 := _mm_setzero_pd in
  do (i, sum_128) <- for_loop fuel (fun i => i <=? vlen)
      (fun i sum_128 =>
         do a_128 <- _mm_loadu_pd (a + i) ;
         ret (_mm_add_pd sum_128 a_128))
      (fun i => wrap_int (i + 2)) 0 sum_128 ;
  let sum_128 := _mm_hadd_pd sum_128 sum_128 in
  let sum := _mm_store_sd sum_128 in
  do (_, sum) <- for_loop fuel (fun i => i <? len)
      (fun i sum =>
         do x <- load (a + i) ;
         ret (fadd A sum x))
      (fun i => wrap_int (i + 1)) i sum ;
  ret sum.

End Machine.

Arguments Ok {A X} x s.
Arguments Fault {A X} s.
Arguments Timeout {A X} s.
Arguments State {A} mem trace.
Arguments mem {A} s.
Arguments trace {A} s.
Arguments ret {A X} x s.
Arguments bind {A X Y} m f s.
Arguments for_loop {A X} fuel guard body incr i x s.

Notation "'do' x <- m ; k" := (bind m (fun x => k))
  (at level 10, x pattern, m at level 99, k at level 200, only parsing).

(** ** The common shape of the element-wise kernels *)

Section Shape.

Context (A : arith).
Abbreviation T := (elt A).

(** One register-wide step at index [i]: load [w] lanes of each input,
    combine them lane by lane, store [w] lanes. *)
Definition chunk (op : T -> T -> T) (w : nat) (c a b i : Z) : M A unit :=
  do x <- loadu A w (a + i) ;
  do y <- loadu A w (b + i) ;
  storeu A w (c + i) (zip_with op x y).

(** One scalar step at index [i]. *)
Definition scalar (op : T -> T -> T) (c a b i : Z) : M A unit :=
  do x <- load A (a + i) ;
  do y <- load A (b + i) ;
  store A (c + i) (op x y).

(** Wide tier in chunks of [W1], narrow tier in chunks of [W2], scalar
    tail: the four element-wise kernels are the instances
    [(fadd, 8, 4)], [(fadd, 4, 2)], [(fmul, 8, 4)] and [(fmul, 4, 2)]. *)
Definition tiered (op : T -> T -> T) (W1 W2 : nat) (fuel : nat)
    (c a b : Z) (len : Z) : M A unit :=
  let vlen := wrap_int (len - Z.of_nat W1) in
  do (i, _) <- for_loop fuel (fun i => i <=? vlen)
      (fun i _ => chunk op W1 c a b i)
      (fun i => wrap_int (i + Z.of_nat W1)) 0 tt ;
  let vlen := wrap_int (len - Z.of_nat W2) in
  do (i, _) <- for_loop fuel (fun i => i <=? vlen)
      (fun i _ => chunk op W2 c a b i)
      (fun i => wrap_int (i + Z.of_nat W2)) i tt ;
  do (_, _) <- for_loop fuel (fun i => i <? len)
      (fun i _ => scalar op c a b i)
      (fun i => wrap_int (i + 1)) i tt ;
  ret tt.

(** The accesses of one step of width [w] at index [i], and of [n]
    consecutive steps starting at index [i0]. *)
Definition chunk_events (w : nat) (c a b i : Z) : list event :=
  [EvLoad (a + i) w; EvLoad (b + i) w; EvStore (c + i) w].

Definition tier_events (w : nat) (c a b i0 : Z) (n : nat) : list event :=
  flat_map (fun k => chunk_events w c a b (i0 + Z.of_nat w * Z.of_nat k))
           (seq 0 n).

(** The accesses of a whole call: [len / W1] wide steps from index 0, then
    as many narrow steps as fit in what remains, then one scalar step per
    remaining index. *)
Definition tiers_trace (W1 W2 : nat) (c a b len : Z) : list event :=
  let n1 := len / Z.of_nat W1 in
  let i1 := Z.of_nat W1 * n1 in
  let n2 := (len - i1) / Z.of_nat W2 in
  let i2 := i1 + Z.of_nat W2 * n2 in
  tier_events W1 c a b 0 (Z.to_nat n1) ++
  tier_events W2 c a b i1 (Z.to_nat n2) ++
  tier_events 1 c a b i2 (Z.to_nat (len - i2)).

(** The indices (relative to the buffer at [c]) written by a trace, in the
    order in which they are written. *)
Definition written (c : Z) (tr : list event) : list Z :=
  flat_map (fun e => match e with
                     | EvStore p w => seqZ (p - c) (Z.of_nat w)
                     | EvLoad _ _ => []
                     end) tr.

(** Output position [i] holds [op] of the two input positions [i] of the
    initial memory, for every [i] below [len]. *)
Definition elementwise (op : T -> T -> T) (c a b len : Z)
    (s s' : state A) : Prop :=
  forall i, 0 <= i < len ->
    exists x y, mem s !! (a + i) = Some x /\ mem s !! (b + i) = Some y /\
                mem s' !! (c + i) = Some (op x y).

(** Every address outside [c, c + len) holds what it held before. *)
Definition unchanged_outside (c len : Z) (s s' : state A) : Prop :=
  forall p, ~ (c <= p < c + len) -> mem s' !! p = mem s !! p.

(** Every access of the trace stays inside the first [len] elements of
    its buffer: loads in [a] or [b], stores in [c]. *)
Definition in_bounds (c a b len : Z) (tr : list event) : Prop :=
  Forall (fun e => match e with
                   | EvLoad p w =>
                       (a <= p /\ p + Z.of_nat w <= a + len) \/
                       (b <= p /\ p + Z.of_nat w <= b + len)
                   | EvStore p w => c <= p /\ p + Z.of_nat w <= c + len
                   end) tr.

(** ** The sum kernels: reference functions *)

(** The loop of the source comments,
    [for (sum = 0, i = 0; i < len; i++) sum += a[i];] *)
Definition naive_sum (xs : list T) : T := fold_left (fadd A) xs (fzero A).

(** Sums of adjacent lane pairs: [x0+x1; x2+x3; ...]. *)
Fixpoint pairwise_fold (v : list T) : list T :=
  match v with
  | x :: y :: v' => fadd A x y :: pairwise_fold v'
  | _ => []
  end.

(** The reduction as the specification words it: an accumulator of [W]
    zero lanes; every whole chunk of [W] elements is added to it lane by
    lane; the accumulator is folded pairwise [passes] times and its first
    lane taken as the running sum; the remaining elements are added to
    the running sum in index order.  The first lane is the head of the
    list: the reference shares no helper with the intrinsics. *)
Definition narrow_sum (W passes : nat) (xs : list T) : T :=
  let q := (length xs / W)%nat in
  let acc :=
    fold_left (fun acc k => zip_with (fadd A) acc (take W (drop (W * k) xs)))
              (seq 0 q) (replicate W (fzero A)) in
  let folded := Nat.iter passes pairwise_fold acc in
  fold_left (fadd A) (drop (W * q) xs) (hd (fzero A) folded).

(** The accesses of a sum kernel: one [w]-lane load per whole chunk, then
    one scalar load per remaining element, in index order. *)
Definition sum_events (w : nat) (a len : Z) : list event :=
  let n := len / Z.of_nat w in
  map (fun k => EvLoad (a + Z.of_nat w * Z.of_nat k) w) (seq 0 (Z.to_nat n)) ++
  map (fun k => EvLoad (a + Z.of_nat w * n + Z.of_nat k) 1)
      (seq 0 (Z.to_nat (len - Z.of_nat w * n))).

End Shape.

(** The output buffer at [c] is the input buffer at [a] itself or does not
    overlap it; more generally it does not start inside the input above
    its first element, so that no step overwrites an input element which a
    later step still has to read. *)
Definition no_clobber (c a len : Z) : Prop := c <= a \/ a + len <= c.

(** ** Preconditions of a call *)

(** The buffers at [p] and [q] do not overlap in their first [len]
    elements. *)
Definition separate (p q len : Z) : Prop := p + len <= q \/ q + len <= p.

(** What the caller owes an element-wise kernel: a length that an [int]
    holds, [len] mapped elements in each buffer, and an output buffer that
    does not overwrite input elements still to be read. *)
Definition valid_call {A : arith} (s : state A) (c a b len : Z) : Prop :=
  0 <= len <= INT_MAX /\
  allocated A (mem s) a (Z.to_nat len) = true /\
  allocated A (mem s) b (Z.to_nat len) = true /\
  allocated A (mem s) c (Z.to_nat len) = true /\
  no_clobber c a len /\ no_clobber c b len.

(** Every access of the trace is a load inside the first [len] elements
    of the buffer at [a]. *)
Definition loads_in (a len : Z) (tr : list event) : Prop :=
  Forall (fun e => match e with
                   | EvLoad p w => a <= p /\ p + Z.of_nat w <= a + len
                   | EvStore _ _ => False
                   end) tr.

(** The run [run] from [s] ends normally, leaves every address outside
    the first [len] output elements as it was, and its accesses stay
    inside the first [len] elements of the three buffers. *)
Definition frame_ok {A : arith} (run : M A unit) (c a b len : Z)
    (s : state A) : Prop :=
  exists s', run s = Ok tt s' /\
    unchanged_outside A c len s s' /\
    exists tr, trace s' = trace s ++ tr /\ in_bounds c a b len tr.

(** The run [run] from [s] ends normally with some result, leaves the
    memory as it was, and only loads inside the first [len] elements of
    the buffer at [a]. *)
Definition readonly_ok {A : arith} (run : M A (elt A)) (a len : Z)
    (s : state A) : Prop :=
  exists r s', run s = Ok r s' /\
    mem s' = mem s /\
    exists tr, trace s' = trace s ++ tr /\ loads_in a len tr.

(** What the caller owes for the comparison of an aliased call with a
    call on a distinct output buffer [c]: [b] is the buffer [a] itself or
    apart from it, and [c] is apart from both inputs. *)
Definition alias_call {A : arith} (s : state A) (a b c len : Z) : Prop :=
  0 <= len <= INT_MAX /\
  allocated A (mem s) a (Z.to_nat len) = true /\
  allocated A (mem s) b (Z.to_nat len) = true /\
  allocated A (mem s) c (Z.to_nat len) = true /\
  (b = a \/ separate b a len) /\ separate c a len /\ separate c b len.

(** The call with the output aliased to the first input and the call
    with the output at [c] both end normally and leave the same value at
    every index below [len] of their outputs. *)
Definition alias_agrees {A : arith}
    (kernel : nat -> Z -> Z -> Z -> Z -> M A unit)
    (fuel : nat) (a b c len : Z) (s : state A) : Prop :=
  exists s1 s2,
    kernel fuel a a b len s = Ok tt s1 /\
    kernel fuel c a b len s = Ok tt s2 /\
    forall i, 0 <= i < len -> mem s1 !! (a + i) = mem s2 !! (c + i).

(** ** The aligned allocator *)

Definition NULL : Z := 0.

(** Conversion of an [int] argument to [size_t] (64 bits). *)
Definition size_t_of_int (n : Z) : Z := n mod 2 ^ 64.

Section Allocator.

(** The C library's heap and its [posix_memalign] are outside the
    repository; they are parameters.  [posix_memalign h alignment size]
    gives the return code, the value of [*memptr] after the call and the
    heap after the call. *)
Context {heap : Type}.
Variable posix_memalign : heap -> Z -> Z -> Z * Z * heap.

Definition sse_utils_malloc (h : heap) (bytes : Z) : Z * heap :=
  let '(rc, p, h') := posix_memalign h 128 (size_t_of_int bytes) in
  if rc =? 0 then (p, h') else (NULL, h').

(** POSIX on [posix_memalign]: on success (return code 0) the pointer is
    a multiple of the alignment and [size] bytes are usable at it; on
    failure the heap is as before.  [usable h p n]: in heap [h], [n] bytes
    may be used at [p]. *)
Definition posix_memalign_contract (usable : heap -> Z -> Z -> Prop) : Prop :=
  forall h alignment size rc p h',
    posix_memalign h alignment size = (rc, p, h') ->
    (rc = 0 -> p mod alignment = 0 /\ usable h' p size) /\
    (rc <> 0 -> h' = h).

End Allocator.

(** A small allocator that meets the contract: it hands out the next
    aligned address below a limit and records the block. *)
Record bump_heap : Type := BumpHeap {
  brk : Z;
  limit : Z;
  live : list (Z * Z)
}.

Definition bump_memalign (h : bump_heap) (alignment size : Z)
    : Z * Z * bump_heap :=
  if alignment <=? 0 then (22, 0, h)
  else
    let p := (brk h + alignment - 1) / alignment * alignment in
    if p + size <=? limit h
    then (0, p, BumpHeap (p + size) (limit h) ((p, size) :: live h))
    else (12, 0, h).

Definition bump_usable (h : bump_heap) (p n : Z) : Prop :=
  exists k, In (p, k) (live h) /\ n <= k.

(** ** Comparing floating-point results *)

(** The rational value of a finite float. *)
Definition SF2Q (x : spec_float) : option Q :=
  match x with
  | S754_zero _ => Some 0%Q
  | S754_finite s m e => Some (inject_Z (cond_Zopp s (Z.pos m)) * 2 ^ e)%Q
  | S754_infinity _ | S754_nan => None
  end.

(** [x] and [y] agree up to [tol]: both finite and at most [tol] apart,
    or the same infinity or both not a number. *)
Definition within (tol : Q) (x y : spec_float) : Prop :=
  match SF2Q x, SF2Q y with
  | Some u, Some v => (Qabs (u - v) <= tol)%Q
  | _, _ => x = y
  end.

(** Machine epsilon of a format with [prec] bits of precision,
    [2 ^ (1 - prec)]. *)
Definition epsilon (prec : Z) : Q := (2 / inject_Z (2 ^ prec))%Q.

Definition FLT_EPSILON : Q := epsilon 24.
Definition DBL_EPSILON : Q := epsilon 53.

(** The magnitude of a finite float, and the sum of the magnitudes of a
    list of floats. *)
Definition magnitude (x : spec_float) : Q :=
  match SF2Q x with Some q => Qabs q | None => 0%Q end.

Definition magnitudes (xs : list spec_float) : Q :=
  foldr (fun x acc => (magnitude x + acc)%Q) 0%Q xs.

Definition finite_float (x : spec_float) : bool :=
  match x with
  | S754_zero _ | S754_finite _ _ _ => true
  | S754_infinity _ | S754_nan => false
  end.

(** A finite float of the format: what a [float] or [double] in memory
    can be, apart from infinities and NaN. *)
Definition finite_valid (prec emax : Z) (x : spec_float) : Prop :=
  valid_binary prec emax x = true /\ finite_float x = true.

(** ** Rounding error: auxiliary notions *)

(** The record of [SpecFloat]'s right shift after [k] steps on [m]. *)
Definition shifted (m : Z) (k : nat) : shr_record :=
  Build_shr_record (m / 2 ^ Z.of_nat k)
    (match k with O => false | S j => Z.testbit m (Z.of_nat j) end)
    (match k with O => false | S j => negb (m mod 2 ^ Z.of_nat j =? 0) end).

Definition sumZ (l : list Z) : Z := foldr Z.add 0 l.

Section FloatValues.

Variables prec emax : Z.

(** The value of a finite float in units of [2 ^ emin], the spacing of
    the subnormal numbers; 0 for the others. *)
Definition ulps (x : spec_float) : Z :=
  match x with
  | S754_finite s m e => cond_Zopp s (Z.pos m) * 2 ^ (e - emin prec emax)
  | _ => 0
  end.

(** A zero, or a finite float whose exponent is not below [emin]. *)
Definition good (x : spec_float) : Prop :=
  match x with
  | S754_zero _ => True
  | S754_finite _ _ e => emin prec emax <= e
  | S754_infinity _ | S754_nan => False
  end.

(** [approx k r v B]: the float [r] stands for the exact value [v] (in
    units of [2 ^ emin]), a sum of terms whose absolute values add up to
    [B], with at most [k] roundings on any path from a term to [r]:
    [|r - v| <= ((1 + 2^-prec)^k - 1) * B]. *)
Definition approx (k : nat) (r : spec_float) (v B : Z) : Prop :=
  good r /\ Z.abs v <= B /\
  (2 ^ prec) ^ Z.of_nat k * Z.abs (ulps r - v)
  <= ((2 ^ prec + 1) ^ Z.of_nat k - (2 ^ prec) ^ Z.of_nat k) * B.

Definition sum_ulps (xs : list spec_float) : Z := sumZ (ulps <$> xs).

Definition sum_abs (xs : list spec_float) : Z :=
  sumZ ((fun x => Z.abs (ulps x)) <$> xs).

End FloatValues.

Definition FLT_MAX : spec_float := S754_finite false (2 ^ 24 - 1) 104.
Definition DBL_MAX : spec_float := S754_finite false (2 ^ 53 - 1) 971.

(** "The sum kernel agrees with the naive left-to-right sum within a
    tolerance", for the two precisions and for a tolerance [tol] given as
    a function of the length and of the data; [K * len * epsilon] is
    [fun len _ => K * inject_Z len * FLT_EPSILON]. *)
Definition sums_within_tolerance (tol : Z -> list spec_float -> Q) : Prop :=
  forall fuel a len (s : state binary32) xs,
    0 <= len <= INT_MAX ->
    read_lanes binary32 (mem s) a (Z.to_nat len) = Some xs ->
    (Z.to_nat len <= fuel)%nat ->
    exists r s',
      sse_utils_sums binary32 fuel a len s = Ok r s' /\
      within (tol len xs) r (naive_sum binary32 xs).

Definition sumd_within_tolerance (tol : Z -> list spec_float -> Q) : Prop :=
  forall fuel a len (s : state binary64) xs,
    0 <= len <= INT_MAX ->
    read_lanes binary64 (mem s) a (Z.to_nat len) = Some xs ->
    (Z.to_nat len <= fuel)%nat ->
    exists r s',
      sse_utils_sumd binary64 fuel a len s = Ok r s' /\
      within (tol len xs) r (naive_sum binary64 xs).

(** "For a negative length every kernel does nothing", as a property of
    one length. *)
Definition noop_at (len : Z) : Prop :=
  (forall fuel c a b (s : state binary32),
     sse_utils_vadds binary32 fuel c a b len s = Ok tt s /\
     sse_utils_vmuls binary32 fuel c a b len s = Ok tt s) /\
  (forall fuel c a b (s : state binary64),
     sse_utils_vaddd binary64 fuel c a b len s = Ok tt s /\
     sse_utils_vmuld binary64 fuel c a b len s = Ok tt s) /\
  (forall fuel a (s : state binary32),
     sse_utils_sums binary32 fuel a len s = Ok (S754_zero false) s) /\
  (forall fuel a (s : state binary64),
     sse_utils_sumd binary64 fuel a len s = Ok (S754_zero false) s).

(** ** Observing an outcome *)

Definition result {A : arith} {X : Type} (o : outcome A X) : option X :=
  match o with Ok x _ => Some x | _ => None end.

Definition final_state {A : arith} {X : Type} (o : outcome A X) : state A :=
  match o with Ok _ s | Fault s | Timeout s => s end.

(** ** Example inputs *)

(** A memory holding the list [xs] at address [p], on top of [m]. *)
Definition with_buffer (A : arith) (p : Z) (xs : list (elt A))
    (m : gmap Z (elt A)) : gmap Z (elt A) :=
  write_lanes A m p xs.

(** [a = {1,2,3,4,5}] at address 0, [b = {5,4,3,2,1}] at address 100 and
    five zeros at address 200. *)
Definition ex_state32 : state binary32 :=
  State (with_buffer binary32 0 (map f32 [1; 2; 3; 4; 5])
          (with_buffer binary32 100 (map f32 [5; 4; 3; 2; 1])
            (with_buffer binary32 200 (map f32 [0; 0; 0; 0; 0]) ∅))) [].

Definition ex_state64 : state binary64 :=
  State (with_buffer binary64 0 (map f64 [1; 2; 3; 4; 5])
          (with_buffer binary64 100 (map f64 [5; 4; 3; 2; 1])
            (with_buffer binary64 200 (map f64 [0; 0; 0; 0; 0]) ∅))) [].

(** Thirteen elements [1..13] at address 0, [13..1] at address 100 and
    thirteen zeros at address 200: one wide, one narrow and one scalar
    step for the single-precision kernels. *)
Definition ex_buffers (A : arith) (f : Z -> elt A) : state A :=
  State (with_buffer A 0 (map f [1; 2; 3; 4; 5; 6; 7; 8; 9; 10; 11; 12; 13])
          (with_buffer A 100
             (map f [13; 12; 11; 10; 9; 8; 7; 6; 5; 4; 3; 2; 1])
             (with_buffer A 200 (map f (replicate 13 0)) ∅))) [].

(** Thirteen integers at address 0: one wide step, one narrow step and
    one scalar step for the single-precision kernels. *)
Definition ex_stateZ : state exactZ :=
  State (with_buffer exactZ 0
           [3; 1; 4; 1; 5; 9; 2; 6; 5; 3; 5; 8; 9] ∅) [].

(** Finite single-precision data whose lane totals overflow although
    the left-to-right sum is 0: [{MAX, -MAX, 0, 0, MAX, -MAX, 0, 0}]. *)
Definition overflow32 : list spec_float :=
  [FLT_MAX; SFopp FLT_MAX; S754_zero false; S754_zero false;
   FLT_MAX; SFopp FLT_MAX; S754_zero false; S754_zero false].

(** The same for double precision: [{MAX, -MAX, MAX, -MAX}]. *)
Definition overflow64 : list spec_float :=
  [DBL_MAX; SFopp DBL_MAX; DBL_MAX; SFopp DBL_MAX].

(** Data without overflow on which the two summation orders differ by
    cancellation: [{1, 0, 2^30, -2^30}]. *)
Definition cancel32 : list spec_float :=
  [f32 1; f32 0; f32 (2 ^ 30); f32 (- 2 ^ 30)].

(** Three buffers of eight elements each: [1..8] at address 0, [8..1] at
    address 100 and zeros at address 200. *)
Definition ex_state8 : state binary32 :=
  State (with_buffer binary32 0 (map f32 [1; 2; 3; 4; 5; 6; 7; 8])
          (with_buffer binary32 100 (map f32 [8; 7; 6; 5; 4; 3; 2; 1])
            (with_buffer binary32 200 (map f32 [0; 0; 0; 0; 0; 0; 0; 0]) ∅))) [].

(** ** Further notions for the properties of the kernels *)

(** The loop of the source comments on the element-wise kernels,
    [for (i = 0; i < len; i++) c[i] = a[i] op b[i];] *)
Definition scalar_loop (A : arith) (op : elt A -> elt A -> elt A)
    (fuel : nat) (c a b : Z) (len : Z) : M A unit :=
  do (_, _) <- for_loop fuel (fun i => i <? len)
      (fun i _ => scalar A op c a b i)
      (fun i => wrap_int (i + 1)) 0 tt ;
  ret tt.

(** Two runs from [s] end normally and leave the same memory. *)
Definition same_memory {A : arith} (run1 run2 : M A unit) (s : state A)
    : Prop :=
  exists s1 s2, run1 s = Ok tt s1 /\ run2 s = Ok tt s2 /\ mem s1 = mem s2.

(** Two runs from [s] end normally and leave the same values in the first
    [len] elements of their output buffers at [c1] and [c2]. *)
Definition agree_on {A : arith} (run1 run2 : M A unit) (c1 c2 len : Z)
    (s : state A) : Prop :=
  exists s1 s2,
    run1 s = Ok tt s1 /\ run2 s = Ok tt s2 /\
    forall i, 0 <= i < len -> mem s1 !! (c1 + i) = mem s2 !! (c2 + i).

(** The run [run1] from [s], followed by [run2], and the run [run] from
    [s] all end normally, and the two ways leave the same memory. *)
Definition composes_to {A : arith} (run1 run2 run : M A unit) (s : state A)
    : Prop :=
  exists s1 s2 s',
    run1 s = Ok tt s1 /\ run2 s1 = Ok tt s2 /\ run s = Ok tt s' /\
    mem s2 = mem s'.

(** The indices (relative to the buffer at [a]) read by the loads of a
    trace, in the order in which they are read. *)
Definition loaded (a : Z) (tr : list event) : list Z :=
  flat_map (fun e => match e with
                     | EvLoad p w => seqZ (p - a) (Z.of_nat w)
                     | EvStore _ _ => []
                     end) tr.

(** An allocator that meets the contract and never hands out more than
    4096 bytes at once. *)
Definition page_memalign (h : bump_heap) (alignment size : Z)
    : Z * Z * bump_heap :=
  if 4096 <? size then (12, 0, h) else bump_memalign h alignment size.

Definition page_usable (h : bump_heap) (p n : Z) : Prop :=
  bump_usable h p n /\ n <= 4096.

(** The run leaves mapped exactly the addresses that were mapped,
    however it ends. *)
Definition keeps_domain {A : arith} {X : Type} (run : M A X) : Prop :=
  forall s, dom (mem (final_state (run s))) = dom (mem s).

(** The run from [s] ends normally after [n1] steps of [W1] lanes from
    index 0, then [n2] steps of [W2] lanes, then [n3] scalar steps. *)
Definition steps_of {A : arith} (run : M A unit) (W1 W2 : nat) (c a b : Z)
    (s : state A) (n1 n2 n3 : nat) : Prop :=
  exists s', run s = Ok tt s' /\
    trace s' = trace s ++
      tier_events W1 c a b 0 n1 ++
      tier_events W2 c a b (Z.of_nat (W1 * n1)) n2 ++
      tier_events 1 c a b (Z.of_nat (W1 * n1 + W2 * n2)) n3.

(** The largest size of an object (64-bit [ptrdiff_t]). *)
Definition PTRDIFF_MAX : Z := 2 ^ 63 - 1.

(** The left-to-right sum of the elements [j], [j + W], [j + 2 W], ...
    of the whole chunks of [xs]: what lane [j] of the accumulator holds
    after the vector loop. *)
Definition lane_total (A : arith) (W : nat) (xs : list (elt A)) (j : nat)
    : elt A :=
  naive_sum A
    (map (fun k => nth (W * k + j) xs (fzero A)) (seq 0 (length xs / W))).

(** Four interleaved partial sums, combined as [(S0 + S1) + (S2 + S3)],
    then the remaining elements in index order; and the same with two
    partial sums. *)
Definition interleaved_sum_4 (A : arith) (xs : list (elt A)) : elt A :=
  fold_left (fadd A) (drop (4 * (length xs / 4)) xs)
    (fadd A (fadd A (lane_total A 4 xs 0) (lane_total A 4 xs 1))
            (fadd A (lane_total A 4 xs 2) (lane_total A 4 xs 3))).

Definition interleaved_sum_2 (A : arith) (xs : list (elt A)) : elt A :=
  fold_left (fadd A) (drop (2 * (length xs / 2)) xs)
    (fadd A (lane_total A 2 xs 0) (lane_total A 2 xs 1)).

(** The value of a float as a rational number (0 when it is not finite),
    and the exact sum of the values of a list of floats. *)
Definition value (x : spec_float) : Q :=
  match SF2Q x with Some q => q | None => 0%Q end.

Definition exact_sum (xs : list spec_float) : Q :=
  foldr (fun x acc => (value x + acc)%Q) 0%Q xs.

(** The float [r] is finite and at most [tol] away from the rational
    number [q]. *)
Definition close_to (tol : Q) (r : spec_float) (q : Q) : Prop :=
  match SF2Q r with
  | Some u => (Qabs (u - q) <= tol)%Q
  | None => False
  end.

(** * Proofs *)

Lemma wrap_int_id z : in_int z -> wrap_int z = z.
Proof.
  unfold in_int, INT_MIN, INT_MAX, wrap_int. intros Hz.
  rewrite Z.mod_small by lia. lia.
Qed.

Section Lanes.

Context (A : arith).
Abbreviation T := (elt A).
Implicit Types (m : gmap Z T) (p q : Z) (w : nat) (v : list T).

Lemma read_lanes_length m p w v : read_lanes A m p w = Some v -> length v = w.
Proof.
  revert p v. induction w as [|w IH]; intros p v; simpl.
  - by intros [= <-].
  - destruct (m !! p) as [x|]; [|done].
    destruct (read_lanes A m (p + 1) w) as [v'|] eqn:Hv; [|done].
    intros [= <-]. simpl. f_equal. eauto.
Qed.

Lemma read_lanes_lookup m p w v (k : nat) :
  read_lanes A m p w = Some v -> (k < w)%nat ->
  v !! k = m !! (p + Z.of_nat k).
Proof.
  revert p v k. induction w as [|w IH]; intros p v k; simpl; [lia|].
  destruct (m !! p) as [x|] eqn:Hx; [|done].
  destruct (read_lanes A m (p + 1) w) as [v'|] eqn:Hv; [|done].
  intros [= <-] Hk. destruct k as [|k]; simpl.
  - by rewrite Z.add_0_r.
  - rewrite (IH _ _ k Hv) by lia. f_equal. lia.
Qed.

Lemma read_lanes_is_Some m p w :
  (forall k : Z, 0 <= k < Z.of_nat w -> is_Some (m !! (p + k))) ->
  is_Some (read_lanes A m p w).
Proof.
  revert p. induction w as [|w IH]; intros p Hall; simpl; [by eexists|].
  destruct (Hall 0 ltac:(lia)) as [x Hx]. rewrite Z.add_0_r in Hx. rewrite Hx.
  destruct (IH (p + 1)) as [v' Hv'].
  - intros k Hk. replace (p + 1 + k) with (p + (k + 1)) by lia. apply Hall. lia.
  - rewrite Hv'. by eexists.
Qed.

Lemma read_lanes_Some_inv m p w v (k : Z) :
  read_lanes A m p w = Some v -> 0 <= k < Z.of_nat w ->
  is_Some (m !! (p + k)).
Proof.
  intros Hv Hk.
  pose proof (read_lanes_lookup m p w v (Z.to_nat k) Hv ltac:(lia)) as Hl.
  rewrite Z2Nat.id in Hl by lia. rewrite <- Hl.
  apply lookup_lt_is_Some. rewrite (read_lanes_length _ _ _ _ Hv). lia.
Qed.

Lemma allocated_spec m p w :
  allocated A m p w = true <->
  forall k : Z, 0 <= k < Z.of_nat w -> is_Some (m !! (p + k)).
Proof.
  unfold allocated. split.
  - destruct (read_lanes A m p w) as [v|] eqn:Hv; [|done].
    intros _ k Hk. eapply read_lanes_Some_inv; eauto.
  - intros Hall. by destruct (read_lanes_is_Some m p w Hall) as [v ->].
Qed.

Lemma read_lanes_ext m m' p w :
  (forall k : Z, 0 <= k < Z.of_nat w -> m' !! (p + k) = m !! (p + k)) ->
  read_lanes A m' p w = read_lanes A m p w.
Proof.
  revert p. induction w as [|w IH]; intros p Hall; simpl; [done|].
  pose proof (Hall 0 ltac:(lia)) as H0. rewrite Z.add_0_r in H0. rewrite H0.
  rewrite IH; [done|].
  intros k Hk. replace (p + 1 + k) with (p + (k + 1)) by lia. apply Hall. lia.
Qed.

Lemma write_lanes_lookup_lt m p v q :
  q < p -> write_lanes A m p v !! q = m !! q.
Proof.
  revert m p. induction v as [|x v IH]; intros m p Hq; simpl; [done|].
  rewrite IH by lia. apply lookup_insert_ne. lia.
Qed.

Lemma write_lanes_lookup_ge m p v q :
  p + Z.of_nat (length v) <= q -> write_lanes A m p v !! q = m !! q.
Proof.
  revert m p. induction v as [|x v IH]; intros m p Hq; simpl in *; [done|].
  rewrite IH by lia. apply lookup_insert_ne. lia.
Qed.

Lemma write_lanes_lookup_in m p v (k : nat) x :
  v !! k = Some x -> write_lanes A m p v !! (p + Z.of_nat k) = Some x.
Proof.
  revert m p k. induction v as [|y v IH]; intros m p k Hk; simpl in *; [done|].
  destruct k as [|k]; simpl in *.
  - injection Hk as ->. rewrite write_lanes_lookup_lt by lia.
    rewrite Z.add_0_r. apply lookup_insert_eq.
  - replace (p + Z.of_nat (S k)) with (p + 1 + Z.of_nat k) by lia. by apply IH.
Qed.

End Lanes.

(** ** Loops *)

Section Loops.

Context (A : arith).
Abbreviation T := (elt A).

(** A counted loop with step [w] that runs while a whole step fits below
    [len]: from an invariant of the body, the loop ends after [n] steps at
    the first index from which no whole step fits, provided the fuel
    covers the distance to [len]. *)
Lemma for_loop_rule {X} (I : nat -> X -> state A -> Prop) (w len i0 : Z)
    (guard : Z -> bool) (body : Z -> X -> M A X) (incr : Z -> Z) :
  0 < w ->
  (forall i, guard i = (i <=? len - w)) ->
  (forall i, i0 <= i -> i + w <= len -> incr i = i + w) ->
  (forall n x s, i0 + w * Z.of_nat n + w <= len -> I n x s ->
     exists x' s', body (i0 + w * Z.of_nat n) x s = Ok x' s' /\ I (S n) x' s') ->
  forall fuel k x s,
    i0 + w * Z.of_nat k <= len ->
    (Z.to_nat (len - (i0 + w * Z.of_nat k)) <= fuel)%nat ->
    I k x s ->
    exists n x' s',
      for_loop fuel guard body incr (i0 + w * Z.of_nat k) x s
        = Ok (i0 + w * Z.of_nat n, x') s' /\
      I n x' s' /\ (k <= n)%nat /\
      i0 + w * Z.of_nat n <= len < i0 + w * Z.of_nat n + w.
Proof.
  intros Hw Hg Hincr Hbody.
  induction fuel as [|fuel IH]; intros k x s Hk Hfuel HI; simpl; rewrite Hg;
    destruct (Z.leb_spec (i0 + w * Z.of_nat k) (len - w)) as [Hle|Hgt].
  - lia.
  - exists k, x, s. repeat split; [done|lia..].
  - destruct (Hbody k x s ltac:(lia) HI) as (x' & s' & -> & HI').
    rewrite Hincr by lia.
    replace (i0 + w * Z.of_nat k + w) with (i0 + w * Z.of_nat (S k)) by lia.
    destruct (IH (S k) x' s' ltac:(lia) ltac:(lia) HI')
      as (n & x'' & s'' & Hrun & HI'' & Hn & Hend).
    exists n, x'', s''. repeat split; [done..|lia|lia|lia].
  - exists k, x, s. repeat split; [done|lia..].
Qed.

(** A loop whose guard is false on entry returns at once, whatever the
    fuel and the memory. *)
Lemma for_loop_skip {X} fuel (guard : Z -> bool) (body : Z -> X -> M A X)
    incr i x s :
  guard i = false -> for_loop fuel guard body incr i x s = Ok (i, x) s.
Proof. intros Hg. destruct fuel; simpl; by rewrite Hg. Qed.

Lemma tier_events_S w c a b i0 n :
  tier_events w c a b i0 (S n)
  = tier_events w c a b i0 n
    ++ chunk_events w c a b (i0 + Z.of_nat w * Z.of_nat n).
Proof.
  unfold tier_events. by rewrite seq_S, flat_map_app.
Qed.

Lemma scalar_chunk op c a b i s :
  scalar A op c a b i s = chunk A op 1 c a b i s.
Proof.
  unfold scalar, chunk, bind, load, loadu, store, storeu, allocated. simpl.
  destruct (mem s !! (a + i)) as [x|]; [|done]. simpl.
  destruct (mem s !! (b + i)) as [y|]; [|done]. simpl.
  by destruct (mem s !! (c + i)).
Qed.

Lemma for_loop_ext {X} fuel guard guard' (body body' : Z -> X -> M A X)
    incr i x s :
  (forall j, guard j = guard' j) ->
  (forall j y t, body j y t = body' j y t) ->
  for_loop fuel guard body incr i x s = for_loop fuel guard' body' incr i x s.
Proof.
  intros Hg Hb. revert i x s.
  induction fuel as [|fuel IH]; intros i x s; simpl; rewrite Hg; [done|].
  destruct (guard' i); [|done]. rewrite Hb.
  destruct (body' i x s); [apply IH|done..].
Qed.

End Loops.

(** ** The tiers of an element-wise kernel *)

Section Tiers.

Context (A : arith).
Abbreviation T := (elt A).

Variables (op : T -> T -> T) (c a b len : Z) (s0 : state A).

Hypothesis Ha : allocated A (mem s0) a (Z.to_nat len) = true.
Hypothesis Hb : allocated A (mem s0) b (Z.to_nat len) = true.
Hypothesis Hc : allocated A (mem s0) c (Z.to_nat len) = true.
Hypothesis Hca : no_clobber c a len.
Hypothesis Hcb : no_clobber c b len.

Lemma input_cell p i s :
  allocated A (mem s0) p (Z.to_nat len) = true -> no_clobber c p len ->
  unchanged_outside A c i s0 s -> 0 <= i ->
  forall k, i <= k < len ->
    mem s !! (p + k) = mem s0 !! (p + k) /\ is_Some (mem s0 !! (p + k)).
Proof.
  intros Hp Hcp Hout Hi k Hk. split.
  - apply Hout. unfold no_clobber in Hcp. lia.
  - apply (proj1 (allocated_spec A _ _ _) Hp). lia.
Qed.

Lemma read_input p i s (w : nat) :
  allocated A (mem s0) p (Z.to_nat len) = true -> no_clobber c p len ->
  unchanged_outside A c i s0 s -> 0 <= i -> i + Z.of_nat w <= len ->
  exists v, read_lanes A (mem s) (p + i) w = Some v /\ length v = w /\
    forall k : nat, (k < w)%nat -> v !! k = mem s0 !! (p + (i + Z.of_nat k)).
Proof.
  intros Hp Hcp Hout Hi Hw.
  assert (Hext : read_lanes A (mem s) (p + i) w = read_lanes A (mem s0) (p + i) w).
  { apply read_lanes_ext. intros k Hk. rewrite <- Z.add_assoc.
    apply (input_cell p i s); auto; lia. }
  destruct (read_lanes_is_Some A (mem s0) (p + i) w) as [v Hv].
  { intros k Hk. rewrite <- Z.add_assoc.
    apply (input_cell p i s); auto; lia. }
  exists v. rewrite Hext. split; [done|]. split.
  - eapply read_lanes_length; eauto.
  - intros k Hk. rewrite (read_lanes_lookup A _ _ _ _ k Hv Hk).
    f_equal. lia.
Qed.

(** One step of width [w] at index [i] extends the finished prefix from
    [i] to [i + w]. *)
Lemma chunk_step (w : nat) i s :
  0 <= i -> i + Z.of_nat w <= len ->
  elementwise A op c a b i s0 s -> unchanged_outside A c i s0 s ->
  exists s', chunk A op w c a b i s = Ok tt s' /\
    trace s' = trace s ++ chunk_events w c a b i /\
    elementwise A op c a b (i + Z.of_nat w) s0 s' /\
    unchanged_outside A c (i + Z.of_nat w) s0 s'.
Proof.
  intros Hi Hw Hdone Hout.
  destruct (read_input a i s w Ha Hca Hout Hi Hw) as (va & Hva & Hla & Hka).
  destruct (read_input b i s w Hb Hcb Hout Hi Hw) as (vb & Hvb & Hlb & Hkb).
  assert (Hcs : allocated A (mem s) (c + i) w = true).
  { apply allocated_spec. intros k Hk. rewrite <- Z.add_assoc.
    rewrite Hout by lia. apply (proj1 (allocated_spec A _ _ _) Hc). lia. }
  assert (Hlz : length (zip_with op va vb) = w) by (rewrite length_zip_with; lia).
  unfold chunk, bind, loadu, storeu. simpl. rewrite Hva. simpl. rewrite Hvb.
  simpl. rewrite Hcs.
  eexists. split; [reflexivity|]. simpl. split; [by rewrite <- !app_assoc|].
  split.
  - intros j Hj. simpl. destruct (Z_lt_ge_dec j i) as [Hlt|Hge].
    + destruct (Hdone j ltac:(lia)) as (x & y & Hx & Hy & Hz).
      exists x, y. rewrite write_lanes_lookup_lt by lia. done.
    + pose proof (Hka (Z.to_nat (j - i)) ltac:(lia)) as Hx.
      pose proof (Hkb (Z.to_nat (j - i)) ltac:(lia)) as Hy.
      replace (i + Z.of_nat (Z.to_nat (j - i))) with j in Hx, Hy by lia.
      destruct (proj2 (input_cell a i s Ha Hca Hout Hi j ltac:(lia))) as [x Hx'].
      destruct (proj2 (input_cell b i s Hb Hcb Hout Hi j ltac:(lia))) as [y Hy'].
      exists x, y. split; [done|]. split; [done|].
      replace (c + j) with (c + i + Z.of_nat (Z.to_nat (j - i))) by lia.
      apply write_lanes_lookup_in. rewrite lookup_zip_with, Hx, Hx'. simpl.
      by rewrite Hy, Hy'.
  - intros p Hp. simpl. destruct (Z_lt_ge_dec p c) as [Hlt|Hge].
    + rewrite write_lanes_lookup_lt by lia. apply Hout. lia.
    + rewrite write_lanes_lookup_ge by lia. apply Hout. lia.
Qed.

(** A whole tier of width [w] entered at index [i0]. *)
Lemma tier_spec (w : nat) (guard : Z -> bool) (incr : Z -> Z) fuel i0 s :
  (0 < w)%nat -> 0 <= i0 <= len ->
  (forall i, guard i = (i <=? len - Z.of_nat w)) ->
  (forall i, i0 <= i -> i + Z.of_nat w <= len -> incr i = i + Z.of_nat w) ->
  (Z.to_nat len <= fuel)%nat ->
  elementwise A op c a b i0 s0 s -> unchanged_outside A c i0 s0 s ->
  exists (n : nat) s',
    for_loop fuel guard (fun i _ => chunk A op w c a b i) incr i0 tt s
      = Ok (i0 + Z.of_nat w * Z.of_nat n, tt) s' /\
    trace s' = trace s ++ tier_events w c a b i0 n /\
    elementwise A op c a b (i0 + Z.of_nat w * Z.of_nat n) s0 s' /\
    unchanged_outside A c (i0 + Z.of_nat w * Z.of_nat n) s0 s' /\
    i0 + Z.of_nat w * Z.of_nat n <= len
      < i0 + Z.of_nat w * Z.of_nat n + Z.of_nat w.
Proof.
  intros Hw Hi0 Hg Hincr Hfuel Hdone Hout.
  pose (I := fun (n : nat) (_ : unit) (s' : state A) =>
    trace s' = trace s ++ tier_events w c a b i0 n /\
    elementwise A op c a b (i0 + Z.of_nat w * Z.of_nat n) s0 s' /\
    unchanged_outside A c (i0 + Z.of_nat w * Z.of_nat n) s0 s').
  destruct (for_loop_rule A I (Z.of_nat w) len i0 guard
              (fun i _ => chunk A op w c a b i) incr ltac:(lia) Hg Hincr)
    with (fuel := fuel) (k := O) (x := tt) (s := s)
    as (n & x' & s' & Hrun & (Htr & Hd & Ho) & _ & Hend).
  - intros n [] t Hn (Htr & Hd & Ho).
    destruct (chunk_step w (i0 + Z.of_nat w * Z.of_nat n) t
                ltac:(lia) ltac:(lia) Hd Ho) as (t' & Hrun & Htr' & Hd' & Ho').
    exists tt, t'. split; [done|]. unfold I.
    replace (i0 + Z.of_nat w * Z.of_nat (S n))
      with (i0 + Z.of_nat w * Z.of_nat n + Z.of_nat w) by lia.
    rewrite tier_events_S, Htr', Htr, app_assoc. done.
  - lia.
  - lia.
  - unfold I. simpl. rewrite app_nil_r, Z.mul_0_r, Z.add_0_r. done.
  - rewrite Z.mul_0_r, Z.add_0_r in Hrun. destruct x'.
    exists n, s'. done.
Qed.

End Tiers.

(** ** The element-wise kernels as a whole *)

Section Tiered.

Context (A : arith).
Abbreviation T := (elt A).

Lemma div_steps (w n len : Z) :
  0 < w -> w * n <= len < w * n + w -> len / w = n.
Proof.
  intros Hw Hn. symmetry. apply Z.div_unique with (r := len - w * n); lia.
Qed.

Lemma tiered_spec (op : T -> T -> T) (W1 W2 : nat) fuel c a b len s :
  (0 < W1 <= 8)%nat -> (0 < W2 <= 8)%nat ->
  0 <= len <= INT_MAX ->
  allocated A (mem s) a (Z.to_nat len) = true ->
  allocated A (mem s) b (Z.to_nat len) = true ->
  allocated A (mem s) c (Z.to_nat len) = true ->
  no_clobber c a len -> no_clobber c b len ->
  (Z.to_nat len <= fuel)%nat ->
  exists s',
    tiered A op W1 W2 fuel c a b len s = Ok tt s' /\
    elementwise A op c a b len s s' /\
    unchanged_outside A c len s s' /\
    trace s' = trace s ++ tiers_trace W1 W2 c a b len.
Proof.
  intros HW1 HW2 Hlen Ha Hb Hc Hca Hcb Hfuel.
  assert (Hmax : INT_MAX = 2147483647) by reflexivity.
  assert (Hwrap : forall z, -8 <= z <= INT_MAX -> wrap_int z = z).
  { intros z Hz. apply wrap_int_id. unfold in_int, INT_MIN. lia. }
  destruct (tier_spec A op c a b len s Ha Hb Hc Hca Hcb W1
              (fun i => i <=? wrap_int (len - Z.of_nat W1))
              (fun i => wrap_int (i + Z.of_nat W1)) fuel 0 s)
    as (n1 & s1 & Hrun1 & Htr1 & Hd1 & Ho1 & Hend1);
    [lia|lia| |intros; apply Hwrap; lia|lia| | |].
  { intros i. by rewrite Hwrap by lia. }
  { intros j Hj. lia. }
  { intros p _. done. }
  set (i1 := 0 + Z.of_nat W1 * Z.of_nat n1) in *.
  destruct (tier_spec A op c a b len s Ha Hb Hc Hca Hcb W2
              (fun i => i <=? wrap_int (len - Z.of_nat W2))
              (fun i => wrap_int (i + Z.of_nat W2)) fuel i1 s1)
    as (n2 & s2 & Hrun2 & Htr2 & Hd2 & Ho2 & Hend2);
    [lia|lia| |intros; apply Hwrap; lia|lia|done|done|].
  { intros i. by rewrite Hwrap by lia. }
  set (i2 := i1 + Z.of_nat W2 * Z.of_nat n2) in *.
  destruct (tier_spec A op c a b len s Ha Hb Hc Hca Hcb 1
              (fun i => i <? len)
              (fun i => wrap_int (i + 1)) fuel i2 s2)
    as (n3 & s3 & Hrun3 & Htr3 & Hd3 & Ho3 & Hend3);
    [lia|lia| |intros; apply Hwrap; lia|lia|done|done|].
  { intros i. destruct (Z.ltb_spec i len), (Z.leb_spec i (len - Z.of_nat 1)); lia. }
  assert (Hi3 : i2 + Z.of_nat 1 * Z.of_nat n3 = len) by lia.
  rewrite Hi3 in *.
  exists s3. split; [|split; [done|split; [done|]]].
  - unfold tiered, bind. rewrite Hrun1. simpl. fold i1. rewrite Hrun2. simpl.
    fold i2.
    rewrite (for_loop_ext A fuel _ (fun i => i <? len) _
               (fun i _ => chunk A op 1 c a b i)); [|done|].
    + by rewrite Hrun3.
    + intros j [] t. apply scalar_chunk.
  - rewrite Htr3, Htr2, Htr1, <- !app_assoc. unfold tiers_trace.
    assert (Hn1 : len / Z.of_nat W1 = Z.of_nat n1)
      by (apply div_steps; lia).
    rewrite Hn1. fold i1. replace (Z.of_nat W1 * Z.of_nat n1) with i1 by lia.
    assert (Hn2 : (len - i1) / Z.of_nat W2 = Z.of_nat n2)
      by (apply div_steps; lia).
    rewrite Hn2. fold i2. rewrite !Nat2Z.id.
    replace (Z.to_nat (len - i2)) with n3 by lia. done.
Qed.

Lemma sse_utils_vadds_tiered fuel c a b len :
  sse_utils_vadds A fuel c a b len = tiered A (fadd A) 8 4 fuel c a b len.
Proof. reflexivity. Qed.

Lemma sse_utils_vaddd_tiered fuel c a b len :
  sse_utils_vaddd A fuel c a b len = tiered A (fadd A) 4 2 fuel c a b len.
Proof. reflexivity. Qed.

Lemma sse_utils_vmuls_tiered fuel c a b len :
  sse_utils_vmuls A fuel c a b len = tiered A (fmul A) 8 4 fuel c a b len.
Proof. reflexivity. Qed.

Lemma sse_utils_vmuld_tiered fuel c a b len :
  sse_utils_vmuld A fuel c a b len = tiered A (fmul A) 4 2 fuel c a b len.
Proof. reflexivity. Qed.

End Tiered.

(** ** The sum kernels *)

Section Sums.

Context (A : arith).
Abbreviation T := (elt A).

Lemma read_lanes_sub m p (n : nat) (xs : list T) (i w : nat) :
  read_lanes A m p n = Some xs -> (i + w <= n)%nat ->
  read_lanes A m (p + Z.of_nat i) w = Some (take w (drop i xs)).
Proof.
  intros Hxs Hiw.
  destruct (read_lanes_is_Some A m (p + Z.of_nat i) w) as [v Hv].
  { intros k Hk. rewrite <- Z.add_assoc.
    eapply read_lanes_Some_inv; eauto. lia. }
  rewrite Hv. f_equal. apply list_eq. intros k.
  pose proof (read_lanes_length A _ _ _ _ Hv) as Hlv.
  pose proof (read_lanes_length A _ _ _ _ Hxs) as Hlx.
  destruct (Nat.lt_ge_cases k w) as [Hk|Hk].
  - rewrite (read_lanes_lookup A _ _ _ _ k Hv Hk).
    rewrite lookup_take_lt, lookup_drop by done.
    rewrite (read_lanes_lookup A _ _ _ _ (i + k) Hxs) by lia.
    f_equal. lia.
  - rewrite lookup_ge_None_2 by lia.
    symmetry. apply lookup_ge_None_2. rewrite length_take. lia.
Qed.

Lemma bind_ok {X Y} (m : M A X) (f : X -> M A Y) s x s' :
  m s = Ok x s' -> bind m f s = f x s'.
Proof. unfold bind. by intros ->. Qed.

(** The lane-wise accumulation loop of a sum kernel. *)
Lemma vector_sum_loop (w : nat) fuel a len s (xs : list T) acc0 :
  (0 < w <= 8)%nat -> 0 <= len <= INT_MAX ->
  read_lanes A (mem s) a (Z.to_nat len) = Some xs ->
  (Z.to_nat len <= fuel)%nat ->
  for_loop fuel (fun i => i <=? wrap_int (len - Z.of_nat w))
    (fun i acc => do v <- loadu A w (a + i) ; ret (zip_with (fadd A) acc v))
    (fun i => wrap_int (i + Z.of_nat w)) 0 acc0 s
  = Ok (Z.of_nat w * (len / Z.of_nat w),
        fold_left
          (fun acc k => zip_with (fadd A) acc (take w (drop (w * k) xs)))
          (seq 0 (Z.to_nat (len / Z.of_nat w))) acc0)
       (State (mem s)
          (trace s ++ map (fun k => EvLoad (a + Z.of_nat w * Z.of_nat k) w)
                          (seq 0 (Z.to_nat (len / Z.of_nat w))))).
Proof.
  intros Hw Hlen Hxs Hfuel.
  assert (Hmax : INT_MAX = 2147483647) by reflexivity.
  assert (Hwrap : forall z, -8 <= z <= INT_MAX -> wrap_int z = z).
  { intros z Hz. apply wrap_int_id. unfold in_int, INT_MIN. lia. }
  pose (I := fun (n : nat) (acc : list T) (s' : state A) =>
    acc = fold_left
            (fun acc k => zip_with (fadd A) acc (take w (drop (w * k) xs)))
            (seq 0 n) acc0 /\
    s' = State (mem s)
           (trace s ++ map (fun k => EvLoad (a + Z.of_nat w * Z.of_nat k) w)
                           (seq 0 n))).
  destruct (for_loop_rule A I (Z.of_nat w) len 0
              (fun i => i <=? wrap_int (len - Z.of_nat w))
              (fun i acc => do v <- loadu A w (a + i) ;
                            ret (zip_with (fadd A) acc v))
              (fun i => wrap_int (i + Z.of_nat w)))
    with (fuel := fuel) (k := O) (x := acc0) (s := s)
    as (n & acc & s' & Hrun & (Hacc & Hs') & _ & Hend).
  - lia.
  - intros i. by rewrite Hwrap by lia.
  - intros i Hi Hiw. apply Hwrap. lia.
  - intros n acc t Hn [-> ->].
    eexists _, _. split.
    + unfold bind, loadu. simpl.
      replace (a + (0 + Z.of_nat w * Z.of_nat n)) with (a + Z.of_nat (w * n)) by lia.
      rewrite (read_lanes_sub _ _ _ _ (w * n)%nat w Hxs) by lia.
      reflexivity.
    + unfold I, log. rewrite !seq_S, !fold_left_app, map_app, app_assoc.
      cbn [mem trace fold_left map Nat.add]. split; [done|].
      by rewrite Nat2Z.inj_mul.
  - lia.
  - lia.
  - unfold I. simpl. rewrite app_nil_r. by destruct s.
  - rewrite Z.mul_0_r, Z.add_0_l in Hrun. rewrite Hrun.
    assert (Hn : len / Z.of_nat w = Z.of_nat n) by (apply div_steps; lia).
    rewrite Hn, Nat2Z.id, Hacc, Hs', Z.add_0_l. done.
Qed.

(** The scalar tail loop of a sum kernel. *)
Lemma scalar_sum_loop fuel a len s (xs : list T) i0 sum0 :
  0 <= i0 <= len -> len <= INT_MAX ->
  read_lanes A (mem s) a (Z.to_nat len) = Some xs ->
  (Z.to_nat len <= fuel)%nat ->
  for_loop fuel (fun i => i <? len)
    (fun i sum => do x <- load A (a + i) ; ret (fadd A sum x))
    (fun i => wrap_int (i + 1)) i0 sum0 s
  = Ok (len, fold_left (fadd A) (drop (Z.to_nat i0) xs) sum0)
       (State (mem s)
          (trace s ++ map (fun k => EvLoad (a + i0 + Z.of_nat k) 1)
                          (seq 0 (Z.to_nat (len - i0))))).
Proof.
  intros Hi0 Hlen Hxs Hfuel.
  assert (Hmax : INT_MAX = 2147483647) by reflexivity.
  pose proof (read_lanes_length A _ _ _ _ Hxs) as Hlx.
  pose (I := fun (n : nat) (sum : T) (s' : state A) =>
    sum = fold_left (fadd A) (take n (drop (Z.to_nat i0) xs)) sum0 /\
    s' = State (mem s)
           (trace s ++ map (fun k => EvLoad (a + i0 + Z.of_nat k) 1) (seq 0 n))).
  destruct (for_loop_rule A I 1 len i0 (fun i => i <? len)
              (fun i sum => do x <- load A (a + i) ; ret (fadd A sum x))
              (fun i => wrap_int (i + 1)))
    with (fuel := fuel) (k := O) (x := sum0) (s := s)
    as (n & sum & s' & Hrun & (Hsum & Hs') & _ & Hend).
  - lia.
  - intros i. destruct (Z.ltb_spec i len), (Z.leb_spec i (len - 1)); lia.
  - intros i Hi Hiw. apply wrap_int_id. unfold in_int, INT_MIN. lia.
  - intros n sum t Hn [-> ->].
    destruct (lookup_lt_is_Some_2 xs (Z.to_nat i0 + n)) as [x Hx]; [lia|].
    exists (fadd A (fold_left (fadd A) (take n (drop (Z.to_nat i0) xs)) sum0) x).
    eexists. split.
    + unfold bind, load. simpl.
      replace (a + (i0 + 1 * Z.of_nat n))
        with (a + Z.of_nat (Z.to_nat i0 + n)) by lia.
      rewrite (read_lanes_lookup A _ _ _ _ (Z.to_nat i0 + n) Hxs) in Hx by lia.
      rewrite Hx. reflexivity.
    + unfold I, log. split.
      * rewrite (take_S_r _ _ x) by (by rewrite lookup_drop).
        by rewrite fold_left_app.
      * rewrite seq_S, map_app, app_assoc. cbn [mem trace map Nat.add].
        do 4 f_equal. lia.
  - lia.
  - lia.
  - unfold I. simpl. rewrite app_nil_r. by destruct s.
  - rewrite Z.mul_0_r, Z.add_0_r in Hrun. rewrite Hrun.
    assert (Hn : n = Z.to_nat (len - i0)) by lia.
    rewrite Hsum, Hs', <- Hn, take_ge by (rewrite length_drop; lia).
    do 2 f_equal. lia.
Qed.

Lemma acc_length (W : nat) (xs : list T) n acc0 :
  length acc0 = W -> (W * n <= length xs)%nat ->
  length (fold_left
            (fun acc k => zip_with (fadd A) acc (take W (drop (W * k) xs)))
            (seq 0 n) acc0) = W.
Proof.
  intros Hacc. induction n as [|n IH]; intros Hn; [done|].
  rewrite seq_S, fold_left_app. simpl.
  rewrite length_zip_with, IH, length_take, length_drop by lia. lia.
Qed.

Lemma sum_events_split (w : nat) a len (tr : list event) :
  (tr ++ map (fun k => EvLoad (a + Z.of_nat w * Z.of_nat k) w)
             (seq 0 (Z.to_nat (len / Z.of_nat w)))) ++
  map (fun k => EvLoad (a + Z.of_nat w * (len / Z.of_nat w) + Z.of_nat k) 1)
      (seq 0 (Z.to_nat (len - Z.of_nat w * (len / Z.of_nat w))))
  = tr ++ sum_events w a len.
Proof. unfold sum_events. by rewrite <- app_assoc. Qed.

(** [sse_utils_sums] computes the narrow-tier reduction with 4 lanes and
    two fold passes, reading each element once and writing nothing. *)
Lemma sse_utils_sums_spec fuel a len s (xs : list T) :
  0 <= len <= INT_MAX ->
  read_lanes A (mem s) a (Z.to_nat len) = Some xs ->
  (Z.to_nat len <= fuel)%nat ->
  sse_utils_sums A fuel a len s
  = Ok (narrow_sum A 4 2 xs) (State (mem s) (trace s ++ sum_events 4 a len)).
Proof.
  intros Hlen Hxs Hfuel.
  pose proof (read_lanes_length A _ _ _ _ Hxs) as Hlx.
  pose proof (Z.mul_div_le len 4 ltac:(lia)) as Hq.
  pose proof (Z.div_pos len 4 ltac:(lia) ltac:(lia)) as Hq0.
  unfold sse_utils_sums. cbv zeta.
  rewrite (bind_ok _ _ _ _ _
             (vector_sum_loop 4 fuel a len s xs (_mm_setzero_ps A)
                ltac:(lia) Hlen Hxs Hfuel)).
  cbv beta iota.
  match goal with |- bind _ _ ?t = _ => set (s1 := t) end.
  rewrite (bind_ok _ _ _ _ _
             (scalar_sum_loop fuel a len s1 xs (4 * (len / 4)) _
                ltac:(lia) ltac:(lia) Hxs Hfuel)).
  unfold ret, s1. cbn [mem trace]. rewrite sum_events_split. f_equal.
  unfold narrow_sum. rewrite Hlx.
  assert (Hn : (Z.to_nat len / 4)%nat = Z.to_nat (len / 4)).
  { rewrite Z2Nat.inj_div by lia. done. }
  rewrite Hn.
  replace (Z.to_nat (4 * (len / 4))) with (4 * Z.to_nat (len / 4))%nat by lia.
  f_equal.
  pose proof (acc_length 4 xs (Z.to_nat (len / 4)) (replicate 4 (fzero A))
                eq_refl ltac:(lia)) as Hacc.
  unfold _mm_setzero_ps. change (Z.of_nat 4) with 4.
  destruct (fold_left _ (seq 0 (Z.to_nat (len / 4))) (replicate 4 (fzero A)))
    as [|l0 [|l1 [|l2 [|l3 [|? ?]]]]]; try discriminate Hacc.
  reflexivity.
Qed.

(** [sse_utils_sumd] computes the narrow-tier reduction with 2 lanes and
    one fold pass. *)
Lemma sse_utils_sumd_spec fuel a len s (xs : list T) :
  0 <= len <= INT_MAX ->
  read_lanes A (mem s) a (Z.to_nat len) = Some xs ->
  (Z.to_nat len <= fuel)%nat ->
  sse_utils_sumd A fuel a len s
  = Ok (narrow_sum A 2 1 xs) (State (mem s) (trace s ++ sum_events 2 a len)).
Proof.
  intros Hlen Hxs Hfuel.
  pose proof (read_lanes_length A _ _ _ _ Hxs) as Hlx.
  pose proof (Z.mul_div_le len 2 ltac:(lia)) as Hq.
  pose proof (Z.div_pos len 2 ltac:(lia) ltac:(lia)) as Hq0.
  unfold sse_utils_sumd. cbv zeta.
  rewrite (bind_ok _ _ _ _ _
             (vector_sum_loop 2 fuel a len s xs (_mm_setzero_pd A)
                ltac:(lia) Hlen Hxs Hfuel)).
  cbv beta iota.
  match goal with |- bind _ _ ?t = _ => set (s1 := t) end.
  rewrite (bind_ok _ _ _ _ _
             (scalar_sum_loop fuel a len s1 xs (2 * (len / 2)) _
                ltac:(lia) ltac:(lia) Hxs Hfuel)).
  unfold ret, s1. cbn [mem trace]. rewrite sum_events_split. f_equal.
  unfold narrow_sum. rewrite Hlx.
  assert (Hn : (Z.to_nat len / 2)%nat = Z.to_nat (len / 2)).
  { rewrite Z2Nat.inj_div by lia. done. }
  rewrite Hn.
  replace (Z.to_nat (2 * (len / 2))) with (2 * Z.to_nat (len / 2))%nat by lia.
  f_equal.
  pose proof (acc_length 2 xs (Z.to_nat (len / 2)) (replicate 2 (fzero A))
                eq_refl ltac:(lia)) as Hacc.
  unfold _mm_setzero_pd. change (Z.of_nat 2) with 2.
  destruct (fold_left _ (seq 0 (Z.to_nat (len / 2))) (replicate 2 (fzero A)))
    as [|l0 [|l1 [|? ?]]]; try discriminate Hacc.
  reflexivity.
Qed.

End Sums.

(** ** Reassociation over an exact arithmetic *)

Section Exact.

Context (A : arith).
Abbreviation T := (elt A).

Hypothesis fadd_assoc : forall x y z : T, fadd A x (fadd A y z) = fadd A (fadd A x y) z.
Hypothesis fadd_comm : forall x y : T, fadd A x y = fadd A y x.
Hypothesis fadd_0_l : forall x : T, fadd A (fzero A) x = x.

Lemma fadd_0_r (x : T) : fadd A x (fzero A) = x.
Proof. by rewrite fadd_comm. Qed.

Lemma fadd_swap (x y u v : T) :
  fadd A (fadd A x y) (fadd A u v) = fadd A (fadd A x u) (fadd A y v).
Proof.
  rewrite <- !fadd_assoc. f_equal.
  rewrite !fadd_assoc. f_equal. apply fadd_comm.
Qed.

Lemma fold_left_fadd_shift (xs : list T) (u v : T) :
  fold_left (fadd A) xs (fadd A u v) = fadd A u (fold_left (fadd A) xs v).
Proof.
  revert v. induction xs as [|x xs IH]; intros v; simpl; [done|].
  by rewrite <- fadd_assoc, IH.
Qed.

Lemma fold_left_naive (xs : list T) (u : T) :
  fold_left (fadd A) xs u = fadd A u (naive_sum A xs).
Proof.
  unfold naive_sum. rewrite <- fold_left_fadd_shift. by rewrite fadd_0_r.
Qed.

Lemma naive_sum_cons (x : T) (xs : list T) :
  naive_sum A (x :: xs) = fadd A x (naive_sum A xs).
Proof.
  unfold naive_sum at 1. simpl. by rewrite fadd_0_l, fold_left_naive.
Qed.

Lemma naive_sum_app (xs ys : list T) :
  naive_sum A (xs ++ ys) = fadd A (naive_sum A xs) (naive_sum A ys).
Proof.
  unfold naive_sum at 1. rewrite fold_left_app. apply fold_left_naive.
Qed.

Lemma naive_sum_zip (xs ys : list T) :
  length xs = length ys ->
  naive_sum A (zip_with (fadd A) xs ys)
  = fadd A (naive_sum A xs) (naive_sum A ys).
Proof.
  revert ys. induction xs as [|x xs IH]; intros [|y ys] Hl;
    simpl in *; try discriminate.
  - unfold naive_sum. simpl. by rewrite fadd_0_l.
  - rewrite !naive_sum_cons, IH by lia. apply fadd_swap.
Qed.

Lemma naive_sum_zeros (W : nat) : naive_sum A (replicate W (fzero A)) = fzero A.
Proof.
  induction W as [|W IH]; [done|]. simpl.
  by rewrite naive_sum_cons, IH, fadd_0_l.
Qed.

(** After [n] chunks the lanes of the accumulator add up to the sum of
    the first [W * n] elements. *)
Lemma acc_naive (W : nat) (xs : list T) n :
  (W * n <= length xs)%nat ->
  naive_sum A
    (fold_left (fun acc k => zip_with (fadd A) acc (take W (drop (W * k) xs)))
               (seq 0 n) (replicate W (fzero A)))
  = naive_sum A (take (W * n) xs).
Proof.
  induction n as [|n IH]; intros Hn.
  - rewrite Nat.mul_0_r. simpl. apply naive_sum_zeros.
  - rewrite seq_S, fold_left_app. simpl.
    rewrite naive_sum_zip.
    + rewrite IH by lia. rewrite <- naive_sum_app, take_take_drop.
      f_equal. f_equal. lia.
    + rewrite acc_length, length_take, length_drop;
        [lia|apply length_replicate|lia].
Qed.

Lemma narrow_sum_4_naive (xs : list T) :
  narrow_sum A 4 2 xs = naive_sum A xs.
Proof.
  unfold narrow_sum.
  pose proof (Nat.Div0.mul_div_le (length xs) 4) as Hq.
  pose proof (acc_naive 4 xs (length xs / 4) Hq) as Hacc.
  pose proof (acc_length A 4 xs (length xs / 4) (replicate 4 (fzero A))
                eq_refl Hq) as Hl.
  destruct (fold_left _ (seq 0 (length xs / 4)) (replicate 4 (fzero A)))
    as [|l0 [|l1 [|l2 [|l3 [|? ?]]]]]; try discriminate Hl.
  rewrite fold_left_naive.
  rewrite <- (take_drop (4 * (length xs / 4)) xs) at 3.
  rewrite naive_sum_app, <- Hacc. f_equal.
  unfold naive_sum, lane. simpl. by rewrite fadd_0_l, <- !fadd_assoc.
Qed.

Lemma narrow_sum_2_naive (xs : list T) :
  narrow_sum A 2 1 xs = naive_sum A xs.
Proof.
  unfold narrow_sum.
  pose proof (Nat.Div0.mul_div_le (length xs) 2) as Hq.
  pose proof (acc_naive 2 xs (length xs / 2) Hq) as Hacc.
  pose proof (acc_length A 2 xs (length xs / 2) (replicate 2 (fzero A))
                eq_refl Hq) as Hl.
  destruct (fold_left _ (seq 0 (length xs / 2)) (replicate 2 (fzero A)))
    as [|l0 [|l1 [|? ?]]]; try discriminate Hl.
  rewrite fold_left_naive.
  rewrite <- (take_drop (2 * (length xs / 2)) xs) at 3.
  rewrite naive_sum_app, <- Hacc. f_equal.
  unfold naive_sum, lane. simpl. by rewrite fadd_0_l.
Qed.

End Exact.

(** ** The access log of an element-wise kernel *)

Section Traces.

Lemma written_app c (tr1 tr2 : list event) :
  written c (tr1 ++ tr2) = written c tr1 ++ written c tr2.
Proof. apply flat_map_app. Qed.

Lemma written_chunk w c a b i :
  written c (chunk_events w c a b i) = seqZ i (Z.of_nat w).
Proof.
  unfold written, chunk_events. simpl. rewrite app_nil_r. f_equal. lia.
Qed.

(** A tier of [n] steps of width [w] entered at [i0] writes the indices
    [i0], [i0 + 1], ..., [i0 + w * n - 1], each once, in this order. *)
Lemma written_tier w c a b i0 n :
  written c (tier_events w c a b i0 n)
  = seqZ i0 (Z.of_nat w * Z.of_nat n).
Proof.
  induction n as [|n IH].
  - by rewrite Z.mul_0_r.
  - rewrite tier_events_S, written_app, IH, written_chunk.
    replace (Z.of_nat w * Z.of_nat (S n))
      with (Z.of_nat w * Z.of_nat n + Z.of_nat w) by lia.
    by rewrite seqZ_app by lia.
Qed.

Lemma tier_bounds (W1 W2 : nat) len :
  (0 < W1)%nat -> (0 < W2)%nat -> 0 <= len ->
  let n1 := len / Z.of_nat W1 in
  let i1 := Z.of_nat W1 * n1 in
  let n2 := (len - i1) / Z.of_nat W2 in
  let i2 := i1 + Z.of_nat W2 * n2 in
  0 <= n1 /\ 0 <= n2 /\ 0 <= i1 <= i2 /\ i2 <= len /\
  len - i1 < Z.of_nat W1 /\ len - i2 < Z.of_nat W2.
Proof.
  intros HW1 HW2 Hlen n1 i1 n2 i2.
  pose proof (Z.mul_div_le len (Z.of_nat W1) ltac:(lia)).
  pose proof (Z.mul_succ_div_gt len (Z.of_nat W1) ltac:(lia)).
  pose proof (Z.div_pos len (Z.of_nat W1) ltac:(lia) ltac:(lia)).
  pose proof (Z.mul_div_le (len - i1) (Z.of_nat W2) ltac:(lia)).
  pose proof (Z.mul_succ_div_gt (len - i1) (Z.of_nat W2) ltac:(lia)).
  pose proof (Z.div_pos (len - i1) (Z.of_nat W2) ltac:(unfold i1, n1; lia) ltac:(lia)).
  unfold i2, n2, i1, n1 in *. lia.
Qed.

(** The three tiers together write the indices 0, 1, ..., [len - 1], each
    exactly once and in increasing order. *)
Lemma written_tiers (W1 W2 : nat) c a b len :
  (0 < W1)%nat -> (0 < W2)%nat -> 0 <= len ->
  written c (tiers_trace W1 W2 c a b len) = seqZ 0 len.
Proof.
  intros HW1 HW2 Hlen.
  pose proof (tier_bounds W1 W2 len HW1 HW2 Hlen) as Hb. cbv zeta in Hb.
  unfold tiers_trace. rewrite !written_app, !written_tier.
  rewrite !Z2Nat.id by lia.
  set (i1 := Z.of_nat W1 * (len / Z.of_nat W1)) in *.
  set (n2 := (len - i1) / Z.of_nat W2) in *.
  replace (seqZ 0 len) with (seqZ 0 (i1 + (len - i1))) by (f_equal; lia).
  rewrite seqZ_app, Z.add_0_l by lia. f_equal.
  rewrite <- seqZ_app by lia. f_equal. lia.
Qed.

Lemma in_bounds_tier w c a b len i0 n :
  0 <= i0 -> i0 + Z.of_nat w * Z.of_nat n <= len ->
  in_bounds c a b len (tier_events w c a b i0 n).
Proof.
  intros Hi0 Hn. unfold in_bounds, tier_events.
  apply Forall_forall. intros e He. apply list_elem_of_In, in_flat_map in He.
  destruct He as (k & Hk & He). apply in_seq in Hk.
  assert (i0 + Z.of_nat w * Z.of_nat k + Z.of_nat w <= len) by nia.
  unfold chunk_events in He. simpl in He.
  destruct He as [<-|[<-|[<-|[]]]]; lia.
Qed.

Lemma in_bounds_tiers (W1 W2 : nat) c a b len :
  (0 < W1)%nat -> (0 < W2)%nat -> 0 <= len ->
  in_bounds c a b len (tiers_trace W1 W2 c a b len).
Proof.
  intros HW1 HW2 Hlen.
  pose proof (tier_bounds W1 W2 len HW1 HW2 Hlen) as Hb. cbv zeta in Hb.
  unfold tiers_trace, in_bounds. rewrite !Forall_app.
  split; [|split]; apply in_bounds_tier; lia.
Qed.

End Traces.

(** ** Calls that run no loop body *)

Section Noop.

Context (A : arith).
Abbreviation T := (elt A).

Lemma guard_false (W : Z) len :
  0 < W -> INT_MIN + W <= len <= 0 -> (0 <=? wrap_int (len - W)) = false.
Proof.
  intros HW Hlen. rewrite wrap_int_id.
  - apply Z.leb_gt. lia.
  - unfold in_int, INT_MAX. unfold INT_MIN in *. lia.
Qed.

Lemma tiered_noop (op : T -> T -> T) (W1 W2 : nat) fuel c a b len s :
  (0 < W1)%nat -> (0 < W2)%nat ->
  INT_MIN + Z.of_nat W1 <= len -> INT_MIN + Z.of_nat W2 <= len -> len <= 0 ->
  tiered A op W1 W2 fuel c a b len s = Ok tt s.
Proof.
  intros HW1 HW2 H1 H2 Hlen. unfold tiered, bind.
  rewrite for_loop_skip by (apply guard_false; lia).
  rewrite for_loop_skip by (apply guard_false; lia).
  rewrite for_loop_skip by (apply Z.ltb_ge; lia).
  reflexivity.
Qed.

Lemma sse_utils_sums_noop fuel a len s :
  INT_MIN + 4 <= len <= 0 ->
  sse_utils_sums A fuel a len s
  = Ok (fadd A (fadd A (fzero A) (fzero A)) (fadd A (fzero A) (fzero A))) s.
Proof.
  intros Hlen. unfold sse_utils_sums, bind.
  rewrite for_loop_skip by (apply guard_false; lia).
  rewrite for_loop_skip by (apply Z.ltb_ge; lia).
  reflexivity.
Qed.

Lemma sse_utils_sumd_noop fuel a len s :
  INT_MIN + 2 <= len <= 0 ->
  sse_utils_sumd A fuel a len s = Ok (fadd A (fzero A) (fzero A)) s.
Proof.
  intros Hlen. unfold sse_utils_sumd, bind.
  rewrite for_loop_skip by (apply guard_false; lia).
  rewrite for_loop_skip by (apply Z.ltb_ge; lia).
  reflexivity.
Qed.

End Noop.

Lemma loads_in_sum_events (w : nat) a len :
  (0 < w)%nat -> 0 <= len -> loads_in a len (sum_events w a len).
Proof.
  intros Hw Hlen.
  pose proof (Z.mul_div_le len (Z.of_nat w) ltac:(lia)) as Hq.
  pose proof (Z.div_pos len (Z.of_nat w) ltac:(lia) ltac:(lia)) as Hq0.
  unfold loads_in, sum_events. rewrite Forall_app. split;
    apply Forall_forall; intros e He; apply list_elem_of_In, in_map_iff in He;
    destruct He as (k & <- & Hk); apply in_seq in Hk.
  - assert (Z.of_nat w * Z.of_nat k + Z.of_nat w <= len) by nia. lia.
  - lia.
Qed.

(** ** The allocator *)

Section AllocatorSpec.

Context {heap : Type}.
Variable posix_memalign : heap -> Z -> Z -> Z * Z * heap.
Variable usable : heap -> Z -> Z -> Prop.
Hypothesis contract : posix_memalign_contract posix_memalign usable.

Lemma sse_utils_malloc_spec h bytes :
  in_int bytes ->
  let r := posix_memalign h 128 (size_t_of_int bytes) in
  let '(p, h') := sse_utils_malloc posix_memalign h bytes in
  h' = r.2 /\
  ((r.1.1 = 0 /\ p = r.1.2 /\ p mod 128 = 0 /\
    usable h' p (size_t_of_int bytes) /\ bytes <= size_t_of_int bytes) \/
   (r.1.1 <> 0 /\ p = NULL /\ h' = h)).
Proof.
  intros Hint. unfold sse_utils_malloc.
  destruct (posix_memalign h 128 (size_t_of_int bytes)) as [[rc p] h'] eqn:Hr.
  destruct (contract _ _ _ _ _ _ Hr) as [Hok Hfail]. simpl.
  destruct (Z.eqb_spec rc 0) as [->|Hrc].
  - destruct (Hok eq_refl) as [Hal Hus]. split; [done|]. left.
    repeat split; try done.
    unfold size_t_of_int.
    destruct (Z_lt_ge_dec bytes 0) as [Hneg|Hpos].
    + pose proof (Z.mod_pos_bound bytes (2 ^ 64) ltac:(lia)). lia.
    + unfold in_int, INT_MAX in Hint. rewrite Z.mod_small; lia.
  - split; [done|]. right. auto.
Qed.

End AllocatorSpec.

(** ** The kernels under the caller's obligations *)

Section Kernels.

Context (A : arith).
Abbreviation T := (elt A).

Lemma tiered_valid (op : T -> T -> T) (W1 W2 : nat) fuel c a b len s :
  (0 < W1 <= 8)%nat -> (0 < W2 <= 8)%nat ->
  valid_call s c a b len -> (Z.to_nat len <= fuel)%nat ->
  exists s',
    tiered A op W1 W2 fuel c a b len s = Ok tt s' /\
    elementwise A op c a b len s s' /\
    unchanged_outside A c len s s' /\
    trace s' = trace s ++ tiers_trace W1 W2 c a b len.
Proof.
  intros HW1 HW2 (Hlen & Ha & Hb & Hc & Hca & Hcb) Hfuel.
  by apply tiered_spec.
Qed.

Lemma tiered_frame (op : T -> T -> T) (W1 W2 : nat) fuel c a b len s :
  (0 < W1 <= 8)%nat -> (0 < W2 <= 8)%nat ->
  valid_call s c a b len -> (Z.to_nat len <= fuel)%nat ->
  frame_ok (tiered A op W1 W2 fuel c a b len) c a b len s.
Proof.
  intros HW1 HW2 Hv Hfuel.
  destruct (tiered_valid op W1 W2 fuel c a b len s HW1 HW2 Hv Hfuel)
    as (s' & Hrun & _ & Hout & Htr).
  exists s'. split; [done|]. split; [done|].
  exists (tiers_trace W1 W2 c a b len). split; [done|].
  destruct Hv as (Hlen & _). apply in_bounds_tiers; lia.
Qed.

Lemma tiered_alias (op : T -> T -> T) (W1 W2 : nat) fuel a b c len s :
  (0 < W1 <= 8)%nat -> (0 < W2 <= 8)%nat ->
  alias_call s a b c len -> (Z.to_nat len <= fuel)%nat ->
  alias_agrees (tiered A op W1 W2) fuel a b c len s.
Proof.
  intros HW1 HW2 (Hlen & Ha & Hb & Hc & Hba & Hca & Hcb) Hfuel.
  destruct (tiered_spec A op W1 W2 fuel a a b len s) as (s1 & Hrun1 & He1 & _);
    try done.
  { left. lia. }
  { unfold no_clobber, separate in *. lia. }
  destruct (tiered_spec A op W1 W2 fuel c a b len s) as (s2 & Hrun2 & He2 & _);
    try done.
  { unfold no_clobber, separate in *. lia. }
  { unfold no_clobber, separate in *. lia. }
  exists s1, s2. split; [done|]. split; [done|].
  intros i Hi.
  destruct (He1 i Hi) as (x & y & Hx & Hy & ->).
  destruct (He2 i Hi) as (x' & y' & Hx' & Hy' & ->).
  congruence.
Qed.

Lemma sums_readonly fuel a len s (xs : list T) :
  0 <= len <= INT_MAX ->
  read_lanes A (mem s) a (Z.to_nat len) = Some xs ->
  (Z.to_nat len <= fuel)%nat ->
  readonly_ok (sse_utils_sums A fuel a len) a len s /\
  readonly_ok (sse_utils_sumd A fuel a len) a len s.
Proof.
  intros Hlen Hxs Hfuel. split.
  - eexists _, _. split; [by apply sse_utils_sums_spec|]. split; [done|].
    eexists. split; [done|]. apply loads_in_sum_events; lia.
  - eexists _, _. split; [by apply sse_utils_sumd_spec|]. split; [done|].
    eexists. split; [done|]. apply loads_in_sum_events; lia.
Qed.

End Kernels.

Lemma bump_contract : posix_memalign_contract bump_memalign bump_usable.
Proof.
  intros h al sz rc p h' Hr. unfold bump_memalign in Hr.
  destruct (Z.leb_spec al 0) as [Hal|Hal].
  { injection Hr as <- <- <-. split; [done|auto]. }
  destruct (Z.leb_spec ((brk h + al - 1) / al * al + sz) (limit h)).
  - injection Hr as <- <- <-. split; [|done]. intros _. split.
    + apply Z.mod_mul. lia.
    + exists sz. simpl. split; [by left|lia].
  - injection Hr as <- <- <-. split; [done|auto].
Qed.


(** * Rounding error of floating-point addition *)

Section Rounding.

Variables prec emax : Z.
Hypothesis Hprec : 0 < prec.

Abbreviation emin' := (emin prec emax).
Abbreviation fexp' := (fexp prec emax).
Abbreviation ulps' := (ulps prec emax).
Abbreviation good' := (good prec emax).
Abbreviation approx' := (approx prec emax).
Abbreviation P := (2 ^ prec).

Lemma digits2_pos_bounds (m : positive) :
  2 ^ (Z.pos (digits2_pos m) - 1) <= Z.pos m < 2 ^ Z.pos (digits2_pos m).
Proof.
  induction m as [m IH|m IH|]; simpl digits2_pos.
  - rewrite Pos2Z.inj_succ.
    replace (Z.succ (Z.pos (digits2_pos m)) - 1)
      with (Z.succ (Z.pos (digits2_pos m) - 1)) by lia.
    rewrite !Z.pow_succ_r by lia. lia.
  - rewrite Pos2Z.inj_succ.
    replace (Z.succ (Z.pos (digits2_pos m)) - 1)
      with (Z.succ (Z.pos (digits2_pos m) - 1)) by lia.
    rewrite !Z.pow_succ_r by lia. lia.
  - simpl. lia.
Qed.

Lemma digits2_pos_unique (m : positive) (d : Z) :
  2 ^ (d - 1) <= Z.pos m < 2 ^ d -> Z.pos (digits2_pos m) = d.
Proof.
  intros Hd. pose proof (digits2_pos_bounds m) as Hm.
  assert (0 < d).
  { destruct (Z_lt_ge_dec 0 d); [done|].
    assert (2 ^ d <= 1); [|lia].
    destruct (Z.eq_dec d 0) as [->|]; [simpl; lia|].
    rewrite Z.pow_neg_r; lia. }
  destruct (Z_lt_ge_dec (Z.pos (digits2_pos m)) d) as [Hlt|Hge].
  - assert (2 ^ Z.pos (digits2_pos m) <= 2 ^ (d - 1))
      by (apply Z.pow_le_mono_r; lia). lia.
  - destruct (Z_lt_ge_dec d (Z.pos (digits2_pos m))) as [Hlt|Hge']; [|lia].
    assert (2 ^ d <= 2 ^ (Z.pos (digits2_pos m) - 1))
      by (apply Z.pow_le_mono_r; lia). lia.
Qed.

Lemma iter_pos_nat {X} (f : X -> X) (p : positive) (x : X) :
  SpecFloat.iter_pos f p x = Nat.iter (Pos.to_nat p) f x.
Proof.
  revert x. induction p as [p IH|p IH|]; intros x; cbn [SpecFloat.iter_pos].
  - rewrite !IH, Pos2Nat.inj_xI.
    replace (S (2 * Pos.to_nat p)) with (S (Pos.to_nat p + Pos.to_nat p)) by lia.
    by rewrite Nat.iter_succ_r, Nat.iter_add.
  - rewrite !IH, Pos2Nat.inj_xO.
    replace (2 * Pos.to_nat p)%nat with (Pos.to_nat p + Pos.to_nat p)%nat by lia.
    by rewrite Nat.iter_add.
  - reflexivity.
Qed.

(** One right shift keeps the quotient, the bit shifted out and whether
    anything was shifted out before. *)
Lemma shr_1_spec (m : Z) (r s : bool) :
  0 <= m ->
  shr_1 (Build_shr_record m r s)
  = Build_shr_record (m / 2) (Z.odd m) (r || s).
Proof.
  intros Hm. destruct m as [|[p|p|]|p]; try lia; unfold shr_1.
  - reflexivity.
  - f_equal. rewrite Pos2Z.inj_xI.
    apply Z.div_unique with (r := 1); lia.
  - f_equal. rewrite Pos2Z.inj_xO.
    apply Z.div_unique with (r := 0); lia.
  - reflexivity.
Qed.

Lemma iter_shr_1 (m : Z) (k : nat) :
  0 <= m ->
  Nat.iter k shr_1 (Build_shr_record m false false) = shifted m k.
Proof.
  intros Hm. induction k as [|k IH].
  - unfold shifted. simpl. by rewrite Z.div_1_r.
  - rewrite Nat.iter_succ, IH. unfold shifted at 1.
    rewrite shr_1_spec by (apply Z.div_pos; lia).
    unfold shifted. f_equal.
    + rewrite Z.div_div by lia. f_equal.
      rewrite Nat2Z.inj_succ, Z.pow_succ_r by lia. lia.
    + rewrite Z.testbit_odd, Z.shiftr_div_pow2 by lia. done.
    + destruct k as [|j]; [simpl; by rewrite Z.mod_1_r|].
      rewrite (Nat2Z.inj_succ j), Z.pow_succ_r by lia.
      rewrite (Z.mul_comm 2), Z.rem_mul_r by lia.
      rewrite Z.testbit_odd, Z.shiftr_div_pow2 by lia.
      rewrite Zodd_mod.
      pose proof (Z.mod_pos_bound m (2 ^ Z.of_nat j) ltac:(lia)).
      pose proof (Z.mod_pos_bound (m / 2 ^ Z.of_nat j) 2 ltac:(lia)).
      destruct (Z.eqb_spec ((m / 2 ^ Z.of_nat j) mod 2) 1),
               (Z.eqb_spec (m mod 2 ^ Z.of_nat j) 0),
               (Z.eqb_spec (m mod 2 ^ Z.of_nat j
                            + 2 ^ Z.of_nat j * ((m / 2 ^ Z.of_nat j) mod 2)) 0);
        simpl; try done; nia.
Qed.

(** Rounding the shifted mantissa to nearest even is off by at most half
    a unit of the new last place. *)
Lemma round_shifted (m : Z) (k : nat) :
  0 <= m -> (0 < k)%nat ->
  let m' := round_nearest_even (shr_m (shifted m k))
              (loc_of_shr_record (shifted m k)) in
  m / 2 ^ Z.of_nat k <= m' <= m / 2 ^ Z.of_nat k + 1 /\
  2 * Z.abs (m' * 2 ^ Z.of_nat k - m) <= 2 ^ Z.of_nat k.
Proof.
  intros Hm Hk. destruct k as [|j]; [lia|].
  unfold shifted. cbn [shr_m].
  rewrite (Nat2Z.inj_succ j), Z.pow_succ_r by lia.
  set (q := m / (2 * 2 ^ Z.of_nat j)).
  pose proof (Z.pow_pos_nonneg 2 (Z.of_nat j) ltac:(lia) ltac:(lia)) as Hp.
  pose proof (Z.div_mod m (2 * 2 ^ Z.of_nat j) ltac:(lia)) as Hdm. fold q in Hdm.
  pose proof (Z.mod_pos_bound m (2 * 2 ^ Z.of_nat j) ltac:(lia)) as Hb.
  assert (Hrem : m mod (2 * 2 ^ Z.of_nat j)
                 = m mod 2 ^ Z.of_nat j
                   + 2 ^ Z.of_nat j * (if Z.testbit m (Z.of_nat j) then 1 else 0)).
  { rewrite (Z.mul_comm 2), Z.rem_mul_r by lia. f_equal. f_equal.
    rewrite Z.testbit_odd, Z.shiftr_div_pow2, Zodd_mod by lia.
    pose proof (Z.mod_pos_bound (m / 2 ^ Z.of_nat j) 2 ltac:(lia)).
    destruct (Z.eqb_spec ((m / 2 ^ Z.of_nat j) mod 2) 1); lia. }
  pose proof (Z.mod_pos_bound m (2 ^ Z.of_nat j) ltac:(lia)) as Hb'.
  destruct (Z.testbit m (Z.of_nat j)),
           (Z.eqb_spec (m mod 2 ^ Z.of_nat j) 0) as [Hz|Hz];
    cbn [negb loc_of_shr_record round_nearest_even].
  - destruct (Z.even q); split; lia.
  - split; lia.
  - split; lia.
  - split; lia.
Qed.

Lemma fexp_ge_emin z : emin' <= fexp' z.
Proof. unfold fexp. lia. Qed.

Lemma shr_fexp_exact (m : positive) (e : Z) :
  let n := fexp' (Z.pos (digits2_pos m) + e) - e in
  shr_fexp prec emax (Z.pos m) e loc_Exact
  = if 0 <? n then (shifted (Z.pos m) (Z.to_nat n), e + n)
    else (Build_shr_record (Z.pos m) false false, e).
Proof.
  intros n. unfold shr_fexp. cbn [shr_record_of_loc Zdigits2]. fold n.
  destruct n as [|p|p] eqn:Hn; cbn [shr Z.ltb Z.compare]; try reflexivity.
  rewrite iter_pos_nat, iter_shr_1 by lia.
  by rewrite Z2Nat.inj_pos.
Qed.

Lemma pow2_pos z : 0 <= z -> 0 < 2 ^ z.
Proof. intros. apply Z.pow_pos_nonneg; lia. Qed.

(** Rounding a positive mantissa that needs no left shift: the result is
    an infinity or a finite float within half a unit in the last place. *)
Lemma binary_round_aux_spec (s : bool) (m : positive) (e : Z) :
  emin' <= e -> e <= fexp' (Z.pos (digits2_pos m) + e) ->
  match binary_round_aux prec emax s (Z.pos m) e loc_Exact with
  | S754_finite s' m' e' =>
      s' = s /\ emin' <= e' /\
      2 ^ prec * Z.abs (Z.pos m' * 2 ^ (e' - emin') - Z.pos m * 2 ^ (e - emin'))
      <= Z.pos m * 2 ^ (e - emin')
  | S754_infinity _ => True
  | _ => False
  end.
Proof.
  intros He Hfe. unfold binary_round_aux.
  rewrite shr_fexp_exact. cbv zeta.
  set (d := Z.pos (digits2_pos m)) in *.
  pose proof (digits2_pos_bounds m) as Hd. fold d in Hd.
  pose proof (pow2_pos (e - emin') ltac:(lia)) as Hpe.
  destruct (Z.ltb_spec 0 (fexp' (d + e) - e)) as [Hn|Hn].
  - (* the mantissa is shifted right by [n = d - prec] places *)
    assert (Hfexp : fexp' (d + e) = d + e - prec) by (unfold fexp in *; lia).
    set (n := fexp' (d + e) - e) in *.
    assert (Hnd : n = d - prec) by lia.
    destruct (round_shifted (Z.pos m) (Z.to_nat n) ltac:(lia) ltac:(lia))
      as [Hm' Herr].
    rewrite Z2Nat.id in Hm', Herr by lia.
    set (m' := round_nearest_even (shr_m (shifted (Z.pos m) (Z.to_nat n)))
                 (loc_of_shr_record (shifted (Z.pos m) (Z.to_nat n)))) in *.
    pose proof (pow2_pos n ltac:(lia)) as Hpn.
    pose proof (pow2_pos (prec - 1) ltac:(lia)) as Hpp.
    assert (Hdn : 2 ^ (d - 1) = 2 ^ (prec - 1) * 2 ^ n).
    { rewrite <- Z.pow_add_r by lia. f_equal. lia. }
    assert (Hdn' : 2 ^ d = 2 ^ prec * 2 ^ n).
    { rewrite <- Z.pow_add_r by lia. f_equal. lia. }
    assert (Hpp' : 2 ^ prec = 2 * 2 ^ (prec - 1)).
    { rewrite <- Z.pow_succ_r by lia. f_equal. lia. }
    assert (Hq : 2 ^ (prec - 1) <= Z.pos m / 2 ^ n < 2 ^ prec).
    { split.
      - apply Z.div_le_lower_bound; lia.
      - apply Z.div_lt_upper_bound; lia. }
    assert (Hpen : 2 ^ (e + n - emin') = 2 ^ n * 2 ^ (e - emin')).
    { rewrite <- Z.pow_add_r by lia. f_equal. lia. }
    destruct m' as [|m2|m2] eqn:Hm2; try lia.
    destruct (Z_lt_ge_dec (Z.pos m2) (2 ^ prec)) as [Hlt|Hge].
    + (* no carry *)
      rewrite shr_fexp_exact. cbv zeta.
      rewrite (digits2_pos_unique m2 prec) by lia.
      assert (Hf2 : fexp' (prec + (e + n)) - (e + n) = 0)
        by (unfold fexp in *; lia).
      rewrite Hf2. cbn [Z.ltb Z.compare shr_m].
      destruct (e + n <=? emax - prec); [|done].
      split; [done|]. split; [lia|].
      rewrite Hpen.
      replace (Z.pos m2 * (2 ^ n * 2 ^ (e - emin')) - Z.pos m * 2 ^ (e - emin'))
        with ((Z.pos m2 * 2 ^ n - Z.pos m) * 2 ^ (e - emin')) by ring.
      rewrite Z.abs_mul, (Z.abs_eq (2 ^ (e - emin'))) by lia.
      rewrite Z.mul_assoc. apply Z.mul_le_mono_nonneg_r; [lia|]. nia.
    + (* the rounded mantissa is [2 ^ prec] *)
      assert (Hm2' : Z.pos m2 = 2 ^ prec) by lia.
      rewrite shr_fexp_exact. cbv zeta.
      rewrite (digits2_pos_unique m2 (prec + 1)).
      2:{ replace (prec + 1 - 1) with prec by lia.
          rewrite Z.pow_add_r by lia. lia. }
      assert (Hf2 : fexp' (prec + 1 + (e + n)) - (e + n) = 1)
        by (unfold fexp in *; lia).
      rewrite Hf2. cbn [Z.ltb Z.compare]. change (Z.to_nat 1) with 1%nat.
      unfold shifted. cbn [shr_m].
      change (2 ^ Z.of_nat 1) with 2. rewrite Hm2', Hpp'.
      rewrite (Z.mul_comm 2), Z.div_mul by lia.
      destruct (2 ^ (prec - 1)) as [|m3|m3] eqn:Hm3; try lia.
      destruct (e + n + 1 <=? emax - prec); [|done].
      split; [done|]. split; [lia|].
      replace (e + n + 1 - emin') with (1 + (e + n - emin')) by lia.
      rewrite Z.pow_add_r, Hpen by lia. change (2 ^ 1) with 2.
      replace (Z.pos m3 * (2 * (2 ^ n * 2 ^ (e - emin')))
               - Z.pos m * 2 ^ (e - emin'))
        with ((2 * Z.pos m3 * 2 ^ n - Z.pos m) * 2 ^ (e - emin')) by ring.
      rewrite Z.abs_mul, (Z.abs_eq (2 ^ (e - emin'))) by lia.
      rewrite Z.mul_assoc. apply Z.mul_le_mono_nonneg_r; [lia|].
      rewrite Hm2', Hpp' in Herr. nia.
  - (* no shift: the result is exact *)
    assert (Hn0 : fexp' (d + e) - e = 0) by lia.
    cbn [shr_m loc_of_shr_record round_nearest_even].
    rewrite shr_fexp_exact. cbv zeta. fold d. rewrite Hn0.
    cbn [Z.ltb Z.compare shr_m].
    destruct (e <=? emax - prec); [|done].
    split; [done|]. split; [done|].
    rewrite Z.sub_diag. simpl. lia.
Qed.

Lemma pos_iter_xO (m k : positive) :
  Z.pos (Pos.iter xO m k) = Z.pos m * 2 ^ Z.pos k.
Proof.
  induction k as [|k IH] using Pos.peano_ind.
  - simpl. lia.
  - rewrite Pos.iter_succ, Pos2Z.inj_xO, IH, Pos2Z.inj_succ, Z.pow_succ_r by lia.
    ring.
Qed.

Lemma binary_round_spec (s : bool) (m : positive) (e : Z) :
  emin' <= e ->
  match binary_round prec emax s m e with
  | S754_finite s' m' e' =>
      s' = s /\ emin' <= e' /\
      2 ^ prec * Z.abs (Z.pos m' * 2 ^ (e' - emin') - Z.pos m * 2 ^ (e - emin'))
      <= Z.pos m * 2 ^ (e - emin')
  | S754_infinity _ => True
  | _ => False
  end.
Proof.
  intros He. unfold binary_round, shl_align.
  set (d := Z.pos (digits2_pos m)).
  pose proof (digits2_pos_bounds m) as Hd. fold d in Hd.
  pose proof (fexp_ge_emin (d + e)) as Hfe.
  destruct (fexp' (d + e) - e) as [|k|k] eqn:Hk.
  - apply binary_round_aux_spec; [done|]. fold d. lia.
  - apply binary_round_aux_spec; [done|]. fold d. lia.
  - (* the mantissa is first shifted left by [k] places *)
    set (fe := fexp' (d + e)) in *.
    assert (Hmz : Z.pos (Pos.iter xO m k) = Z.pos m * 2 ^ Z.pos k)
      by apply pos_iter_xO.
    pose proof (pow2_pos (Z.pos k) ltac:(lia)) as Hpk.
    assert (Hdz : Z.pos (digits2_pos (Pos.iter xO m k)) = d + Z.pos k).
    { apply digits2_pos_unique. rewrite Hmz.
      replace (d + Z.pos k - 1) with (d - 1 + Z.pos k) by lia.
      rewrite !Z.pow_add_r by lia. nia. }
    pose proof (binary_round_aux_spec s (Pos.iter xO m k) fe) as Haux.
    rewrite Hdz in Haux.
    replace (d + Z.pos k + fe) with (d + e) in Haux by lia.
    specialize (Haux ltac:(lia) ltac:(fold fe; lia)).
    destruct (binary_round_aux prec emax s (Z.pos (Pos.iter xO m k)) fe loc_Exact)
      as [| | |s' m' e']; try done.
    assert (Hv : Z.pos (Pos.iter xO m k) * 2 ^ (fe - emin')
                 = Z.pos m * 2 ^ (e - emin')).
    { rewrite Hmz, <- Z.mul_assoc, <- Z.pow_add_r by lia. do 2 f_equal. lia. }
    by rewrite Hv in Haux.
Qed.

Lemma binary_normalize_spec (M ez : Z) :
  emin' <= ez ->
  let r := binary_normalize prec emax M ez false in
  finite_float r = true ->
  good' r /\
  2 ^ prec * Z.abs (ulps' r - M * 2 ^ (ez - emin')) <= Z.abs M * 2 ^ (ez - emin').
Proof.
  intros Hez r Hfin. subst r. unfold binary_normalize in *.
  pose proof (pow2_pos (ez - emin') ltac:(lia)) as Hpe.
  pose proof (pow2_pos prec ltac:(lia)) as Hpp.
  destruct M as [|m|m].
  - simpl. split; [done|]. lia.
  - pose proof (binary_round_spec false m ez Hez) as Hr.
    destruct (binary_round prec emax false m ez) as [| | |s' m' e'];
      try done.
    destruct Hr as (-> & He' & Herr). split; [done|].
    simpl ulps. simpl Z.abs. done.
  - pose proof (binary_round_spec true m ez Hez) as Hr.
    destruct (binary_round prec emax true m ez) as [| | |s' m' e'];
      try done.
    destruct Hr as (-> & He' & Herr). split; [done|].
    cbn [ulps cond_Zopp Z.abs].
    replace (- Z.pos m' * 2 ^ (e' - emin') - Z.neg m * 2 ^ (ez - emin'))
      with (- (Z.pos m' * 2 ^ (e' - emin') - Z.pos m * 2 ^ (ez - emin')))
      by (rewrite <- Pos2Z.opp_pos; ring).
    by rewrite Z.abs_opp.
Qed.

Lemma shl_align_ulps (s : bool) (m : positive) (e ez : Z) :
  emin' <= ez <= e ->
  cond_Zopp s (Z.pos (shl_align m e ez).1) * 2 ^ (ez - emin')
  = ulps' (S754_finite s m e).
Proof.
  intros He. unfold shl_align, ulps.
  destruct (ez - e) as [|k|k] eqn:Hk; cbn [fst].
  - do 2 f_equal. lia.
  - lia.
  - rewrite pos_iter_xO.
    assert (Hp : 2 ^ (e - emin') = 2 ^ Z.pos k * 2 ^ (ez - emin')).
    { rewrite <- Z.pow_add_r by lia. f_equal. lia. }
    rewrite Hp. destruct s; cbn [cond_Zopp]; ring.
Qed.

(** Floating-point addition of two finite floats, when it does not
    overflow, is the exact sum up to a relative error of [2 ^ - prec]. *)
Lemma SFadd_spec (x y : spec_float) :
  good' x -> good' y -> finite_float (SFadd prec emax x y) = true ->
  good' (SFadd prec emax x y) /\
  2 ^ prec * Z.abs (ulps' (SFadd prec emax x y) - (ulps' x + ulps' y))
  <= Z.abs (ulps' x + ulps' y).
Proof.
  intros Hx Hy Hfin.
  destruct x as [sx| |  |sx mx ex], y as [sy| | |sy my ey]; try done.
  - split.
    + by destruct sx, sy.
    + destruct sx, sy; simpl; lia.
  - split; [done|]. cbn [SFadd].
    replace (ulps' (S754_finite sy my ey)
             - (ulps' (S754_zero sx) + ulps' (S754_finite sy my ey))) with 0
      by (simpl; lia).
    simpl Z.abs at 1. lia.
  - split; [done|]. cbn [SFadd].
    replace (ulps' (S754_finite sx mx ex)
             - (ulps' (S754_finite sx mx ex) + ulps' (S754_zero sy))) with 0
      by (simpl; lia).
    simpl Z.abs at 1. lia.
  - cbn [good] in Hx, Hy. cbn [SFadd] in *.
    set (ez := Z.min ex ey) in *.
    set (M := cond_Zopp sx (Z.pos (shl_align mx ex ez).1)
              + cond_Zopp sy (Z.pos (shl_align my ey ez).1)) in *.
    destruct (binary_normalize_spec M ez ltac:(lia) Hfin) as [Hg Herr].
    split; [done|].
    assert (HM : M * 2 ^ (ez - emin')
                 = ulps' (S754_finite sx mx ex) + ulps' (S754_finite sy my ey)).
    { unfold M. rewrite Z.mul_add_distr_r, !shl_align_ulps by lia. done. }
    rewrite <- HM.
    pose proof (pow2_pos (ez - emin') ltac:(lia)) as Hpe.
    rewrite Z.abs_mul, (Z.abs_eq (2 ^ (ez - emin'))) by lia. done.
Qed.

Lemma SFadd_finite_inv (x y : spec_float) :
  finite_float (SFadd prec emax x y) = true ->
  finite_float x = true /\ finite_float y = true.
Proof.
  destruct x as [sx|sx| |sx mx ex], y as [sy|sy| |sy my ey]; try done.
  by destruct sx, sy.
Qed.

(** ** Accumulated rounding error *)

Lemma P_pos : 0 < P.
Proof. apply pow2_pos. lia. Qed.

Lemma pow_le_pow (k : nat) : 0 < P ^ Z.of_nat k <= (P + 1) ^ Z.of_nat k.
Proof.
  pose proof P_pos. split.
  - apply Z.pow_pos_nonneg; lia.
  - apply Z.pow_le_mono_l; lia.
Qed.

Lemma approx_leaf (x : spec_float) :
  good' x -> approx' 0 x (ulps' x) (Z.abs (ulps' x)).
Proof.
  intros Hx. split; [done|]. split; [lia|].
  rewrite Z.sub_diag. simpl. lia.
Qed.

Lemma approx_S (k : nat) r v B : approx' k r v B -> approx' (S k) r v B.
Proof.
  intros (Hg & HS & Herr). split; [done|]. split; [done|].
  rewrite Nat2Z.inj_succ, !Z.pow_succ_r by lia.
  pose proof (pow_le_pow k) as Hk. pose proof P_pos.
  set (a := P ^ Z.of_nat k) in *. set (b := (P + 1) ^ Z.of_nat k) in *.
  set (d := Z.abs (ulps' r - v)) in *.
  assert (0 <= B) by lia.
  assert (P * (a * d) <= P * ((b - a) * B)) by (apply Z.mul_le_mono_nonneg_l; lia).
  assert (0 <= b * B) by nia.
  nia.
Qed.

Lemma approx_le (k k' : nat) r v B :
  (k <= k')%nat -> approx' k r v B -> approx' k' r v B.
Proof.
  intros Hk Hr. induction Hk as [|k' Hk IH]; [done|]. by apply approx_S.
Qed.

Lemma approx_add (k : nat) r1 r2 v1 B1 v2 B2 :
  approx' k r1 v1 B1 -> approx' k r2 v2 B2 ->
  finite_float (SFadd prec emax r1 r2) = true ->
  approx' (S k) (SFadd prec emax r1 r2) (v1 + v2) (B1 + B2).
Proof.
  intros (Hg1 & HS1 & Herr1) (Hg2 & HS2 & Herr2) Hfin.
  destruct (SFadd_spec r1 r2 Hg1 Hg2 Hfin) as [Hg Herr].
  split; [done|]. split; [lia|].
  rewrite Nat2Z.inj_succ, !Z.pow_succ_r by lia.
  pose proof (pow_le_pow k) as Hk. pose proof P_pos as HP.
  set (a := P ^ Z.of_nat k) in *. set (b := (P + 1) ^ Z.of_nat k) in *.
  set (V := ulps' (SFadd prec emax r1 r2)) in *.
  set (V1 := ulps' r1) in *. set (V2 := ulps' r2) in *.
  set (d := Z.abs (V - (V1 + V2))) in *.
  set (d1 := Z.abs (V1 - v1)) in *. set (d2 := Z.abs (V2 - v2)) in *.
  assert (Htri : Z.abs (V - (v1 + v2)) <= d + d1 + d2) by (unfold d, d1, d2; lia).
  assert (Hsum : Z.abs (V1 + V2) <= B1 + d1 + (B2 + d2)) by (unfold d1, d2; lia).
  assert (H1 : a * (P * d) <= a * (B1 + d1 + (B2 + d2)))
    by (apply Z.mul_le_mono_nonneg_l; lia).
  assert (H2 : P * (a * d1) <= P * ((b - a) * B1))
    by (apply Z.mul_le_mono_nonneg_l; lia).
  assert (H3 : P * (a * d2) <= P * ((b - a) * B2))
    by (apply Z.mul_le_mono_nonneg_l; lia).
  assert (H4 : P * a * Z.abs (V - (v1 + v2)) <= P * a * (d + d1 + d2))
    by (apply Z.mul_le_mono_nonneg_l; nia).
  nia.
Qed.

(** While [2 k <= 2 ^ prec] the error factor is at most [2 k / 2 ^ prec]. *)
Lemma error_factor_linear (k : nat) :
  2 * Z.of_nat k <= P ->
  P * ((P + 1) ^ Z.of_nat k - P ^ Z.of_nat k) <= 2 * Z.of_nat k * P ^ Z.of_nat k.
Proof.
  intros Hk. pose proof P_pos as HP.
  assert (H : P * (P + 1) ^ Z.of_nat k <= P ^ Z.of_nat k * (P + 2 * Z.of_nat k));
    [|lia].
  induction k as [|k IH]; [simpl; lia|].
  specialize (IH ltac:(lia)).
  rewrite Nat2Z.inj_succ, !Z.pow_succ_r by lia.
  pose proof (pow_le_pow k) as Hpk.
  set (a := P ^ Z.of_nat k) in *. set (b := (P + 1) ^ Z.of_nat k) in *.
  assert (P * ((P + 1) * b) <= (P + 1) * (a * (P + 2 * Z.of_nat k))) by nia.
  nia.
Qed.

End Rounding.

(** * Rounding error of the two summation orders *)

Section Summation.

Variables prec emax : Z.
Hypothesis Hprec : 0 < prec.

Abbreviation FA := (ieee prec emax).
Abbreviation sum_ulps' := (sum_ulps prec emax).
Abbreviation sum_abs' := (sum_abs prec emax).
Abbreviation fadd' := (SFadd prec emax).
Abbreviation ulps' := (ulps prec emax).
Abbreviation good' := (good prec emax).
Abbreviation approx' := (approx prec emax).

Lemma sumZ_app (l1 l2 : list Z) : sumZ (l1 ++ l2) = sumZ l1 + sumZ l2.
Proof. induction l1 as [|x l1 IH]; simpl; lia. Qed.

Lemma sumZ_zip_add (l1 l2 : list Z) :
  length l1 = length l2 -> sumZ (zip_with Z.add l1 l2) = sumZ l1 + sumZ l2.
Proof.
  revert l2. induction l1 as [|x l1 IH]; intros [|y l2] Hl; simpl in *;
    try lia. rewrite IH by lia. lia.
Qed.

Lemma sumZ_zeros (W : nat) : sumZ (replicate W 0) = 0.
Proof. induction W as [|W IH]; simpl; lia. Qed.

Lemma sum_ulps_app xs ys : sum_ulps' (xs ++ ys) = sum_ulps' xs + sum_ulps' ys.
Proof. unfold sum_ulps. by rewrite fmap_app, sumZ_app. Qed.

Lemma sum_abs_app xs ys : sum_abs' (xs ++ ys) = sum_abs' xs + sum_abs' ys.
Proof. unfold sum_abs. by rewrite fmap_app, sumZ_app. Qed.

Lemma fold_left_finite_inv (xs : list spec_float) (acc : spec_float) :
  finite_float (fold_left fadd' xs acc) = true -> finite_float acc = true.
Proof.
  revert acc. induction xs as [|x xs IH]; intros acc Hfin; simpl in *; [done|].
  apply IH in Hfin. by apply SFadd_finite_inv in Hfin as [? _].
Qed.

(** Adding the elements of [xs] one after the other to an accumulator
    adds one rounding per element. *)
Lemma fold_left_approx (xs : list spec_float) :
  forall (k : nat) acc v B,
    approx' k acc v B -> Forall good' xs ->
    finite_float (fold_left fadd' xs acc) = true ->
    approx' (k + length xs) (fold_left fadd' xs acc)
      (v + sum_ulps' xs) (B + sum_abs' xs).
Proof.
  induction xs as [|x xs IH]; intros k acc v B Hacc Hxs Hfin; simpl in *.
  - unfold sum_ulps, sum_abs. simpl.
    rewrite Nat.add_0_r, !Z.add_0_r. done.
  - apply Forall_cons in Hxs as [Hx Hxs].
    pose proof (fold_left_finite_inv _ _ Hfin) as Hfin1.
    assert (Hstep : approx' (S k) (fadd' acc x) (v + ulps' x)
                      (B + Z.abs (ulps' x))).
    { apply approx_add; [done|done| |done].
      apply (approx_le prec emax Hprec 0); [lia|]. by apply approx_leaf. }
    specialize (IH (S k) _ _ _ Hstep Hxs Hfin).
    replace (k + S (length xs))%nat with (S k + length xs)%nat by lia.
    unfold sum_ulps, sum_abs in *. simpl.
    by rewrite !Z.add_assoc.
Qed.

Lemma zip_finite_inv (rs ys : list spec_float) :
  length rs = length ys ->
  Forall (fun r => finite_float r = true) (zip_with fadd' rs ys) ->
  Forall (fun r => finite_float r = true) rs.
Proof.
  revert ys. induction rs as [|r rs IH]; intros [|y ys] Hl Hfin;
    simpl in *; try lia; [done|].
  apply Forall_cons in Hfin as [Hr Hfin]. constructor.
  - by apply SFadd_finite_inv in Hr as [? _].
  - apply (IH ys); [lia|done].
Qed.

(** Adding a chunk lane by lane adds one rounding in every lane. *)
Lemma lanes_step (k : nat) (rs : list spec_float) (vs Bs : list Z)
    (ys : list spec_float) :
  Forall3 (approx' k) rs vs Bs -> Forall good' ys ->
  length ys = length rs ->
  Forall (fun r => finite_float r = true) (zip_with fadd' rs ys) ->
  Forall3 (approx' (S k)) (zip_with fadd' rs ys)
    (zip_with Z.add vs (ulps' <$> ys))
    (zip_with Z.add Bs ((fun x => Z.abs (ulps' x)) <$> ys)).
Proof.
  intros Hrs. revert ys.
  induction Hrs as [|r v B rs vs Bs Hr Hrs IH]; intros [|y ys] Hys Hl Hfin;
    simpl in *; try lia; [constructor|].
  apply Forall_cons in Hys as [Hy Hys].
  apply Forall_cons in Hfin as [Hf Hfin].
  constructor.
  - apply approx_add; [done|done| |done].
    apply (approx_le prec emax Hprec 0); [lia|]. by apply approx_leaf.
  - apply IH; [done|lia|done].
Qed.

Lemma lanes_zero (W : nat) :
  Forall3 (approx' 0) (replicate W (S754_zero false))
    (replicate W 0) (replicate W 0).
Proof.
  induction W as [|W IH]; simpl; constructor; [|done].
  apply (approx_leaf prec emax (S754_zero false)). done.
Qed.

(** After [n] chunks the lanes of the accumulator stand for exact values
    that add up to the exact sum of the first [W * n] elements, each with
    at most [n] roundings. *)
Lemma lanes_approx (W : nat) (xs : list spec_float) (n : nat) :
  Forall good' xs -> (W * n <= length xs)%nat ->
  let acc :=
    fold_left (fun acc k => zip_with fadd' acc (take W (drop (W * k) xs)))
              (seq 0 n) (replicate W (S754_zero false)) in
  Forall (fun r => finite_float r = true) acc ->
  exists vs Bs,
    Forall3 (approx' n) acc vs Bs /\
    sumZ vs = sum_ulps' (take (W * n) xs) /\
    sumZ Bs = sum_abs' (take (W * n) xs).
Proof.
  intros Hxs. induction n as [|n IH]; intros Hn acc Hfin; subst acc.
  - exists (replicate W 0), (replicate W 0). simpl.
    rewrite Nat.mul_0_r, sumZ_zeros. split; [apply lanes_zero|done].
  - rewrite Nat.mul_succ_r in Hn.
    rewrite seq_S, fold_left_app in *. simpl fold_left in *.
    set (acc := fold_left _ (seq 0 n) _) in *.
    set (chunk := take W (drop (W * n) xs)) in *.
    assert (Hla : length acc = W).
    { apply (acc_length FA); [apply length_replicate|].
      change (W * n <= length xs)%nat. lia. }
    assert (Hlc : length chunk = W)
      by (unfold chunk; rewrite length_take, length_drop; lia).
    destruct (IH ltac:(lia)) as (vs & Bs & Hacc & Hvs & HBs).
    { apply (zip_finite_inv acc chunk); [lia|done]. }
    pose proof (Forall3_length_lm _ _ _ _ Hacc) as Hlv.
    pose proof (Forall3_length_lr _ _ _ _ Hacc) as HlB.
    eexists _, _. split; [|split].
    + apply lanes_step; [done| |lia|done].
      unfold chunk. by apply Forall_take, Forall_drop.
    + rewrite sumZ_zip_add by (rewrite length_fmap; lia).
      rewrite Hvs, Nat.mul_succ_r.
      by rewrite <- take_take_drop, sum_ulps_app.
    + rewrite sumZ_zip_add by (rewrite length_fmap; lia).
      rewrite HBs, Nat.mul_succ_r.
      by rewrite <- take_take_drop, sum_abs_app.
Qed.

Lemma naive_sum_approx (xs : list spec_float) :
  Forall good' xs -> finite_float (naive_sum FA xs) = true ->
  approx' (length xs) (naive_sum FA xs) (sum_ulps' xs) (sum_abs' xs).
Proof.
  intros Hxs Hfin.
  apply (fold_left_approx xs 0 (S754_zero false) 0 0); [|done|done].
  apply (approx_leaf prec emax (S754_zero false)). done.
Qed.

Lemma narrow_sum_4_approx (xs : list spec_float) :
  Forall good' xs -> finite_float (narrow_sum FA 4 2 xs) = true ->
  approx' (length xs + 2) (narrow_sum FA 4 2 xs) (sum_ulps' xs) (sum_abs' xs).
Proof.
  intros Hxs Hfin. unfold narrow_sum in *. cbn [fadd fzero elt ieee] in *.
  pose proof (Nat.Div0.mul_div_le (length xs) 4) as Hq.
  set (q := (length xs / 4)%nat) in *.
  pose proof (lanes_approx 4 xs q Hxs Hq) as Hlanes. cbv zeta in Hlanes.
  pose proof (acc_length FA 4 xs q (replicate 4 (S754_zero false))
                eq_refl Hq) as Hl.
  cbn [fadd fzero elt ieee] in Hl.
  destruct (fold_left _ (seq 0 q) (replicate 4 (S754_zero false)))
    as [|l0 [|l1 [|l2 [|l3 [|? ?]]]]]; try discriminate Hl.
  change (hd (S754_zero false) (Nat.iter 2 (pairwise_fold FA) [l0; l1; l2; l3]))
    with (fadd' (fadd' l0 l1) (fadd' l2 l3)) in *.
  pose proof (fold_left_finite_inv _ _ Hfin) as Hh.
  destruct (SFadd_finite_inv _ _ _ _ Hh) as [H01 H23].
  destruct (SFadd_finite_inv _ _ _ _ H01) as [H0 H1].
  destruct (SFadd_finite_inv _ _ _ _ H23) as [H2 H3].
  destruct Hlanes as (vs & Bs & Hacc & Hvs & HBs).
  { repeat constructor; done. }
  inversion Hacc as [|? v0 B0 ? ? ? Ha0 Hacc1]; subst.
  inversion Hacc1 as [|? v1 B1 ? ? ? Ha1 Hacc2]; subst.
  inversion Hacc2 as [|? v2 B2 ? ? ? Ha2 Hacc3]; subst.
  inversion Hacc3 as [|? v3 B3 ? ? ? Ha3 Hacc4]; subst.
  inversion Hacc4; subst. unfold sumZ in Hvs, HBs. cbn [foldr] in Hvs, HBs.
  pose proof (approx_add prec emax Hprec _ _ _ _ _ _ _ Ha0 Ha1 H01) as Ha01.
  pose proof (approx_add prec emax Hprec _ _ _ _ _ _ _ Ha2 Ha3 H23) as Ha23.
  pose proof (approx_add prec emax Hprec _ _ _ _ _ _ _ Ha01 Ha23 Hh) as Hah.
  pose proof (fold_left_approx (drop (4 * q) xs) _ _ _ _ Hah
                (Forall_drop _ _ _ Hxs) Hfin) as Hr.
  replace (sum_ulps' xs)
    with (sum_ulps' (take (4 * q) xs ++ drop (4 * q) xs))
    by (by rewrite take_drop).
  replace (sum_abs' xs)
    with (sum_abs' (take (4 * q) xs ++ drop (4 * q) xs))
    by (by rewrite take_drop).
  rewrite sum_ulps_app, sum_abs_app, <- Hvs, <- HBs.
  replace (v0 + (v1 + (v2 + (v3 + 0)))) with (v0 + v1 + (v2 + v3)) by lia.
  replace (B0 + (B1 + (B2 + (B3 + 0)))) with (B0 + B1 + (B2 + B3)) by lia.
  eapply approx_le; [done| |exact Hr].
  rewrite length_drop. lia.
Qed.

Lemma narrow_sum_2_approx (xs : list spec_float) :
  Forall good' xs -> finite_float (narrow_sum FA 2 1 xs) = true ->
  approx' (length xs + 2) (narrow_sum FA 2 1 xs) (sum_ulps' xs) (sum_abs' xs).
Proof.
  intros Hxs Hfin. unfold narrow_sum in *. cbn [fadd fzero elt ieee] in *.
  pose proof (Nat.Div0.mul_div_le (length xs) 2) as Hq.
  set (q := (length xs / 2)%nat) in *.
  pose proof (lanes_approx 2 xs q Hxs Hq) as Hlanes. cbv zeta in Hlanes.
  pose proof (acc_length FA 2 xs q (replicate 2 (S754_zero false))
                eq_refl Hq) as Hl.
  cbn [fadd fzero elt ieee] in Hl.
  destruct (fold_left _ (seq 0 q) (replicate 2 (S754_zero false)))
    as [|l0 [|l1 [|? ?]]]; try discriminate Hl.
  change (hd (S754_zero false) (Nat.iter 1 (pairwise_fold FA) [l0; l1]))
    with (fadd' l0 l1) in *.
  pose proof (fold_left_finite_inv _ _ Hfin) as Hh.
  destruct (SFadd_finite_inv _ _ _ _ Hh) as [H0 H1].
  destruct Hlanes as (vs & Bs & Hacc & Hvs & HBs).
  { repeat constructor; done. }
  inversion Hacc as [|? v0 B0 ? ? ? Ha0 Hacc1]; subst.
  inversion Hacc1 as [|? v1 B1 ? ? ? Ha1 Hacc2]; subst.
  inversion Hacc2; subst. unfold sumZ in Hvs, HBs. cbn [foldr] in Hvs, HBs.
  pose proof (approx_add prec emax Hprec _ _ _ _ _ _ _ Ha0 Ha1 Hh) as Hah.
  pose proof (fold_left_approx (drop (2 * q) xs) _ _ _ _ Hah
                (Forall_drop _ _ _ Hxs) Hfin) as Hr.
  replace (sum_ulps' xs)
    with (sum_ulps' (take (2 * q) xs ++ drop (2 * q) xs))
    by (by rewrite take_drop).
  replace (sum_abs' xs)
    with (sum_abs' (take (2 * q) xs ++ drop (2 * q) xs))
    by (by rewrite take_drop).
  rewrite sum_ulps_app, sum_abs_app, <- Hvs, <- HBs.
  replace (v0 + (v1 + 0)) with (v0 + v1) by lia.
  replace (B0 + (B1 + 0)) with (B0 + B1) by lia.
  eapply approx_le; [done| |exact Hr].
  rewrite length_drop. lia.
Qed.

(** Two floats that stand for the same exact sum with at most [k]
    roundings each are close to each other. *)
Lemma approx_close (k : nat) r r' v B :
  2 * Z.of_nat k <= 2 ^ prec ->
  approx' k r v B -> approx' k r' v B ->
  2 ^ prec * Z.abs (ulps' r - ulps' r') <= 4 * Z.of_nat k * B.
Proof.
  intros Hk (_ & Hv & Hr) (_ & _ & Hr').
  pose proof (error_factor_linear prec Hprec k Hk) as Hlin.
  pose proof (pow_le_pow prec Hprec k) as Hpk.
  pose proof (P_pos prec Hprec) as HP.
  set (a := (2 ^ prec) ^ Z.of_nat k) in *.
  set (G := (2 ^ prec + 1) ^ Z.of_nat k - a) in *.
  set (d := Z.abs (ulps' r - v)) in *. set (d' := Z.abs (ulps' r' - v)) in *.
  assert (Htri : Z.abs (ulps' r - ulps' r') <= d + d') by (unfold d, d'; lia).
  assert (0 <= B) by lia.
  assert (H1 : a * (2 ^ prec * Z.abs (ulps' r - ulps' r'))
               <= a * (4 * Z.of_nat k * B)).
  { assert (a * Z.abs (ulps' r - ulps' r') <= a * (d + d'))
      by (apply Z.mul_le_mono_nonneg_l; lia).
    assert (2 ^ prec * (a * Z.abs (ulps' r - ulps' r'))
            <= 2 ^ prec * (2 * (G * B)))
      by (apply Z.mul_le_mono_nonneg_l; lia).
    assert (2 ^ prec * G * B <= 2 * Z.of_nat k * a * B)
      by (apply Z.mul_le_mono_nonneg_r; lia).
    nia. }
  apply Z.mul_le_mono_pos_l in H1; lia.
Qed.

Lemma valid_good (x : spec_float) :
  valid_binary prec emax x = true -> finite_float x = true -> good' x.
Proof.
  destruct x as [| | |s m e]; try done. simpl. unfold bounded, canonical_mantissa.
  intros Hb _. apply andb_prop in Hb as [Hc _].
  apply Z.eqb_eq in Hc. rewrite <- Hc. apply fexp_ge_emin.
Qed.

(** The kernel's reduction and the naive loop, when both end finite, are
    within [4 * (len + 2) / 2 ^ prec] times the sum of the magnitudes. *)
Lemma narrow_sum_close (xs : list spec_float) :
  Forall good' xs ->
  2 * (Z.of_nat (length xs) + 2) <= 2 ^ prec ->
  finite_float (naive_sum FA xs) = true ->
  (finite_float (narrow_sum FA 4 2 xs) = true ->
   2 ^ prec * Z.abs (ulps' (narrow_sum FA 4 2 xs) - ulps' (naive_sum FA xs))
   <= 4 * (Z.of_nat (length xs) + 2) * sum_abs' xs) /\
  (finite_float (narrow_sum FA 2 1 xs) = true ->
   2 ^ prec * Z.abs (ulps' (narrow_sum FA 2 1 xs) - ulps' (naive_sum FA xs))
   <= 4 * (Z.of_nat (length xs) + 2) * sum_abs' xs).
Proof.
  intros Hxs Hlen Hn.
  pose proof (naive_sum_approx xs Hxs Hn) as Hnaive.
  apply (approx_le prec emax Hprec _ (length xs + 2)) in Hnaive; [|lia].
  assert (Hk2 : 2 * Z.of_nat (length xs + 2) <= 2 ^ prec) by lia.
  split; intros Hk.
  - pose proof (narrow_sum_4_approx xs Hxs Hk) as Hker.
    pose proof (approx_close _ _ _ _ _ Hk2 Hker Hnaive). lia.
  - pose proof (narrow_sum_2_approx xs Hxs Hk) as Hker.
    pose proof (approx_close _ _ _ _ _ Hk2 Hker Hnaive). lia.
Qed.

End Summation.

(** * From units of the last place to values *)

Section QValues.

Variables prec emax : Z.
Hypothesis Hprec : 0 < prec.

Abbreviation FA := (ieee prec emax).
Abbreviation ulps' := (ulps prec emax).
Abbreviation good' := (good prec emax).
Abbreviation unit' := (2 ^ emin prec emax)%Q.

Lemma unit_pos : (0 < unit')%Q.
Proof. by apply Qpower_0_lt. Qed.

Lemma SF2Q_ulps (x : spec_float) :
  good' x ->
  exists q, SF2Q x = Some q /\ (q == inject_Z (ulps' x) * unit')%Q.
Proof.
  destruct x as [s| | |s m e]; try done; intros Hx; simpl in Hx.
  - exists 0%Q. split; [done|]. symmetry. apply Qmult_0_l.
  - eexists. split; [reflexivity|]. unfold ulps.
    rewrite inject_Z_mult, Zpower_Qpower by lia.
    replace e with ((e - emin prec emax) + emin prec emax) at 1 by lia.
    rewrite Qpower_plus by done. change (inject_Z 2) with 2%Q.
    by rewrite Qmult_assoc.
Qed.

Lemma within_of_ulps (r r' : spec_float) (tol : Q) :
  good' r -> good' r' ->
  (inject_Z (Z.abs (ulps' r - ulps' r')) * unit' <= tol)%Q ->
  within tol r r'.
Proof.
  intros Hr Hr' Htol.
  destruct (SF2Q_ulps r Hr) as (q & Hq & Eq).
  destruct (SF2Q_ulps r' Hr') as (q' & Hq' & Eq').
  unfold within. rewrite Hq, Hq'.
  assert (E : (q - q' == inject_Z (ulps' r - ulps' r') * unit')%Q).
  { rewrite Eq, Eq'. unfold Z.sub. rewrite inject_Z_plus, inject_Z_opp.
    set (c := unit'). ring. }
  rewrite E, Qabs_Qmult, (Qabs_pos unit') by (apply Qlt_le_weak, unit_pos).
  done.
Qed.

Lemma magnitude_ulps (x : spec_float) :
  good' x -> (magnitude x == inject_Z (Z.abs (ulps' x)) * unit')%Q.
Proof.
  intros Hx. destruct (SF2Q_ulps x Hx) as (q & Hq & Eq).
  unfold magnitude. rewrite Hq, Eq, Qabs_Qmult.
  rewrite (Qabs_pos unit') by (apply Qlt_le_weak, unit_pos). done.
Qed.

Lemma magnitudes_ulps (xs : list spec_float) :
  Forall good' xs ->
  (magnitudes xs == inject_Z (sum_abs prec emax xs) * unit')%Q.
Proof.
  induction 1 as [|x xs Hx Hxs IH]; unfold sum_abs; simpl.
  - symmetry. apply Qmult_0_l.
  - fold (magnitudes xs). rewrite IH, (magnitude_ulps x Hx).
    unfold sum_abs, sumZ. by rewrite inject_Z_plus, Qmult_plus_distr_l.
Qed.

(** From the bound in units of [2 ^ emin] to the bound on the values. *)
Lemma within_of_bound (r r' : spec_float) (xs : list spec_float) (n : Z) :
  good' r -> good' r' -> Forall good' xs ->
  2 ^ prec * Z.abs (ulps' r - ulps' r') <= 4 * n * sum_abs prec emax xs ->
  within (2 * inject_Z n * epsilon prec * magnitudes xs) r r'.
Proof.
  intros Hr Hr' Hxs Hb. apply within_of_ulps; [done|done|].
  rewrite (magnitudes_ulps xs Hxs). unfold epsilon.
  assert (HP : (0 < inject_Z (2 ^ prec))%Q).
  { rewrite <- (Zlt_Qlt 0). apply Z.pow_pos_nonneg; lia. }
  apply Qle_trans
    with (inject_Z (4 * n * sum_abs prec emax xs) / inject_Z (2 ^ prec)
          * unit')%Q.
  - apply Qmult_le_compat_r; [|apply Qlt_le_weak, unit_pos].
    apply Qle_shift_div_l; [done|].
    rewrite <- inject_Z_mult, <- Zle_Qle. lia.
  - rewrite !inject_Z_mult. apply Qle_lteq. right. set (c := unit'). field.
    intros E. rewrite E in HP. by apply Qlt_irrefl in HP.
Qed.

(** The reduction of a sum kernel and the naive loop over the same
    finite floats, when both end finite, agree within
    [2 * (len + 2) * epsilon] times the sum of the magnitudes. *)
Lemma narrow_sum_within (xs : list spec_float) (len : Z) :
  Forall (finite_valid prec emax) xs ->
  len = Z.of_nat (length xs) -> 2 * (len + 2) <= 2 ^ prec ->
  finite_float (naive_sum FA xs) = true ->
  (finite_float (narrow_sum FA 4 2 xs) = true ->
   within (2 * inject_Z (len + 2) * epsilon prec * magnitudes xs)
     (narrow_sum FA 4 2 xs) (naive_sum FA xs)) /\
  (finite_float (narrow_sum FA 2 1 xs) = true ->
   within (2 * inject_Z (len + 2) * epsilon prec * magnitudes xs)
     (narrow_sum FA 2 1 xs) (naive_sum FA xs)).
Proof.
  intros Hval -> Hlen Hn.
  assert (Hxs : Forall good' xs).
  { eapply Forall_impl; [exact Hval|]. intros x [Hv Hf]. by apply valid_good. }
  pose proof (naive_sum_approx prec emax Hprec xs Hxs Hn) as Hnaive.
  apply (approx_le prec emax Hprec _ (length xs + 2)) in Hnaive; [|lia].
  assert (Hk2 : 2 * Z.of_nat (length xs + 2) <= 2 ^ prec) by lia.
  split; intros Hk.
  - pose proof (narrow_sum_4_approx prec emax Hprec xs Hxs Hk) as Hker.
    pose proof (approx_close prec emax Hprec _ _ _ _ _ Hk2 Hker Hnaive) as Hb.
    apply within_of_bound; [by destruct Hker|by destruct Hnaive|done|].
    replace (Z.of_nat (length xs) + 2) with (Z.of_nat (length xs + 2)) by lia.
    done.
  - pose proof (narrow_sum_2_approx prec emax Hprec xs Hxs Hk) as Hker.
    pose proof (approx_close prec emax Hprec _ _ _ _ _ Hk2 Hker Hnaive) as Hb.
    apply within_of_bound; [by destruct Hker|by destruct Hnaive|done|].
    replace (Z.of_nat (length xs) + 2) with (Z.of_nat (length xs + 2)) by lia.
    done.
Qed.

End QValues.

(** * The specification's properties *)

(** ** Worked examples *)

Example vadds_example :
  let o := sse_utils_vadds binary32 5 200 0 100 5 ex_state32 in
  result o = Some tt /\
  read_lanes binary32 (mem (final_state o)) 200 5
  = Some (map f32 [6; 6; 6; 6; 6]).
Proof. split; vm_compute; reflexivity. Qed.

Example sums_example :
  result (sse_utils_sums binary32 5 0 5 ex_state32) = Some (f32 15).
Proof. vm_compute. reflexivity. Qed.

(** ** Element-wise kernels *)

(** C1: for a length [0 <= len] and buffers of [len] elements each
    ([valid_call]), [sse_utils_vadds] and [sse_utils_vaddd] end normally
    and leave in every output position [i < len] the IEEE sum, rounded
    once, of the two input elements at [i]. *)
Theorem C1_vector_add fuel c a b len :
  (forall s : state binary32,
     valid_call s c a b len -> (Z.to_nat len <= fuel)%nat ->
     exists s', sse_utils_vadds binary32 fuel c a b len s = Ok tt s' /\
                elementwise binary32 (SFadd 24 128) c a b len s s') /\
  (forall s : state binary64,
     valid_call s c a b len -> (Z.to_nat len <= fuel)%nat ->
     exists s', sse_utils_vaddd binary64 fuel c a b len s = Ok tt s' /\
                elementwise binary64 (SFadd 53 1024) c a b len s s').
Proof.
  split; intros s Hv Hfuel.
  - destruct (tiered_valid binary32 (fadd binary32) 8 4 fuel c a b len s)
      as (s' & Hrun & Hel & _); [lia|lia|done|done|]. by exists s'.
  - destruct (tiered_valid binary64 (fadd binary64) 4 2 fuel c a b len s)
      as (s' & Hrun & Hel & _); [lia|lia|done|done|]. by exists s'.
Qed.

Lemma C1_vector_add_witness :
  (exists s', sse_utils_vadds binary32 5 200 0 100 5 ex_state32 = Ok tt s' /\
              elementwise binary32 (SFadd 24 128) 200 0 100 5 ex_state32 s') /\
  (exists s', sse_utils_vaddd binary64 5 200 0 100 5 ex_state64 = Ok tt s' /\
              elementwise binary64 (SFadd 53 1024) 200 0 100 5 ex_state64 s').
Proof.
  destruct (C1_vector_add 5 200 0 100 5) as [H32 H64].
  split; [apply H32|apply H64]; try lia;
    (repeat split; try (vm_compute; reflexivity);
     try (vm_compute; discriminate); unfold no_clobber; lia).
Defined.

(** C2: under the same obligations [sse_utils_vmuls] and
    [sse_utils_vmuld] leave in every output position [i < len] the IEEE
    product, rounded once, of the two input elements at [i]. *)
Theorem C2_vector_multiply fuel c a b len :
  (forall s : state binary32,
     valid_call s c a b len -> (Z.to_nat len <= fuel)%nat ->
     exists s', sse_utils_vmuls binary32 fuel c a b len s = Ok tt s' /\
                elementwise binary32 (SFmul 24 128) c a b len s s') /\
  (forall s : state binary64,
     valid_call s c a b len -> (Z.to_nat len <= fuel)%nat ->
     exists s', sse_utils_vmuld binary64 fuel c a b len s = Ok tt s' /\
                elementwise binary64 (SFmul 53 1024) c a b len s s').
Proof.
  split; intros s Hv Hfuel.
  - destruct (tiered_valid binary32 (fmul binary32) 8 4 fuel c a b len s)
      as (s' & Hrun & Hel & _); [lia|lia|done|done|]. by exists s'.
  - destruct (tiered_valid binary64 (fmul binary64) 4 2 fuel c a b len s)
      as (s' & Hrun & Hel & _); [lia|lia|done|done|]. by exists s'.
Qed.

Lemma C2_vector_multiply_witness :
  (exists s', sse_utils_vmuls binary32 5 200 0 100 5 ex_state32 = Ok tt s' /\
              elementwise binary32 (SFmul 24 128) 200 0 100 5 ex_state32 s') /\
  (exists s', sse_utils_vmuld binary64 5 200 0 100 5 ex_state64 = Ok tt s' /\
              elementwise binary64 (SFmul 53 1024) 200 0 100 5 ex_state64 s').
Proof.
  destruct (C2_vector_multiply 5 200 0 100 5) as [H32 H64].
  split; [apply H32|apply H64]; try lia;
    (repeat split; try (vm_compute; reflexivity);
     try (vm_compute; discriminate); unfold no_clobber; lia).
Defined.

(** C4: with length 0 the two sum kernels return +0 and the four
    element-wise kernels return without any access; memory and access log
    are as before, whatever the fuel, the pointers and the memory. *)
Theorem C4_zero_length : noop_at 0.
Proof.
  unfold noop_at. repeat split; intros.
  - rewrite sse_utils_vadds_tiered.
    apply tiered_noop; unfold INT_MIN; lia.
  - rewrite sse_utils_vmuls_tiered.
    apply tiered_noop; unfold INT_MIN; lia.
  - rewrite sse_utils_vaddd_tiered.
    apply tiered_noop; unfold INT_MIN; lia.
  - rewrite sse_utils_vmuld_tiered.
    apply tiered_noop; unfold INT_MIN; lia.
  - rewrite sse_utils_sums_noop by (unfold INT_MIN; lia). reflexivity.
  - rewrite sse_utils_sumd_noop by (unfold INT_MIN; lia). reflexivity.
Qed.

(** C5: the accesses of an element-wise kernel are those of
    [tiers_trace]: [len / 8] steps of 8 lanes from index 0 (4 lanes for
    double precision), then as many steps of 4 lanes (2 lanes) as fit in
    the rest, then one scalar step per remaining index; the indices the
    three tiers write, in order, are exactly 0, 1, ..., [len - 1]. *)
Theorem C5_tiers_partition fuel c a b len :
  (forall s : state binary32,
     valid_call s c a b len -> (Z.to_nat len <= fuel)%nat ->
     (exists s', sse_utils_vadds binary32 fuel c a b len s = Ok tt s' /\
                 trace s' = trace s ++ tiers_trace 8 4 c a b len) /\
     (exists s', sse_utils_vmuls binary32 fuel c a b len s = Ok tt s' /\
                 trace s' = trace s ++ tiers_trace 8 4 c a b len) /\
     written c (tiers_trace 8 4 c a b len) = seqZ 0 len) /\
  (forall s : state binary64,
     valid_call s c a b len -> (Z.to_nat len <= fuel)%nat ->
     (exists s', sse_utils_vaddd binary64 fuel c a b len s = Ok tt s' /\
                 trace s' = trace s ++ tiers_trace 4 2 c a b len) /\
     (exists s', sse_utils_vmuld binary64 fuel c a b len s = Ok tt s' /\
                 trace s' = trace s ++ tiers_trace 4 2 c a b len) /\
     written c (tiers_trace 4 2 c a b len) = seqZ 0 len).
Proof.
  split; intros s Hv Hfuel; (split; [|split]).
  - destruct (tiered_valid binary32 (fadd binary32) 8 4 fuel c a b len s)
      as (s' & Hrun & _ & _ & Htr); [lia|lia|done|done|]. by exists s'.
  - destruct (tiered_valid binary32 (fmul binary32) 8 4 fuel c a b len s)
      as (s' & Hrun & _ & _ & Htr); [lia|lia|done|done|]. by exists s'.
  - destruct Hv as (Hlen & _). apply written_tiers; lia.
  - destruct (tiered_valid binary64 (fadd binary64) 4 2 fuel c a b len s)
      as (s' & Hrun & _ & _ & Htr); [lia|lia|done|done|]. by exists s'.
  - destruct (tiered_valid binary64 (fmul binary64) 4 2 fuel c a b len s)
      as (s' & Hrun & _ & _ & Htr); [lia|lia|done|done|]. by exists s'.
  - destruct Hv as (Hlen & _). apply written_tiers; lia.
Qed.

Lemma C5_tiers_partition_witness :
  ((exists s', sse_utils_vadds binary32 13 200 0 100 13 (ex_buffers binary32 f32)
               = Ok tt s' /\
               trace s' = trace (ex_buffers binary32 f32)
                          ++ tiers_trace 8 4 200 0 100 13) /\
   (exists s', sse_utils_vmuls binary32 13 200 0 100 13 (ex_buffers binary32 f32)
               = Ok tt s' /\
               trace s' = trace (ex_buffers binary32 f32)
                          ++ tiers_trace 8 4 200 0 100 13) /\
   written 200 (tiers_trace 8 4 200 0 100 13) = seqZ 0 13) /\
  ((exists s', sse_utils_vaddd binary64 7 200 0 100 7 (ex_buffers binary64 f64)
               = Ok tt s' /\
               trace s' = trace (ex_buffers binary64 f64)
                          ++ tiers_trace 4 2 200 0 100 7) /\
   (exists s', sse_utils_vmuld binary64 7 200 0 100 7 (ex_buffers binary64 f64)
               = Ok tt s' /\
               trace s' = trace (ex_buffers binary64 f64)
                          ++ tiers_trace 4 2 200 0 100 7) /\
   written 200 (tiers_trace 4 2 200 0 100 7) = seqZ 0 7).
Proof.
  destruct (C5_tiers_partition 13 200 0 100 13) as [H32 _].
  destruct (C5_tiers_partition 7 200 0 100 7) as [_ H64].
  split; [apply H32|apply H64]; try lia;
    (repeat split; try (vm_compute; reflexivity);
     try (vm_compute; discriminate); unfold no_clobber; lia).
Defined.

Example tiers_trace_13 :
  tiers_trace 8 4 200 0 100 13
  = [EvLoad 0 8; EvLoad 100 8; EvStore 200 8;
     EvLoad 8 4; EvLoad 108 4; EvStore 208 4;
     EvLoad 12 1; EvLoad 112 1; EvStore 212 1].
Proof. reflexivity. Qed.

(** C7: an element-wise kernel called with its output aliased to its
    first input leaves, at every index below [len], the value which the
    same call leaves in a distinct output buffer. *)
Theorem C7_output_aliasing fuel a b c len :
  (forall s : state binary32,
     alias_call s a b c len -> (Z.to_nat len <= fuel)%nat ->
     alias_agrees (sse_utils_vadds binary32) fuel a b c len s /\
     alias_agrees (sse_utils_vmuls binary32) fuel a b c len s) /\
  (forall s : state binary64,
     alias_call s a b c len -> (Z.to_nat len <= fuel)%nat ->
     alias_agrees (sse_utils_vaddd binary64) fuel a b c len s /\
     alias_agrees (sse_utils_vmuld binary64) fuel a b c len s).
Proof.
  split; intros s Hv Hfuel; split.
  - apply (tiered_alias binary32 (fadd binary32) 8 4); [lia|lia|done|done].
  - apply (tiered_alias binary32 (fmul binary32) 8 4); [lia|lia|done|done].
  - apply (tiered_alias binary64 (fadd binary64) 4 2); [lia|lia|done|done].
  - apply (tiered_alias binary64 (fmul binary64) 4 2); [lia|lia|done|done].
Qed.

Lemma C7_output_aliasing_witness :
  (alias_agrees (sse_utils_vadds binary32) 13 0 100 200 13
     (ex_buffers binary32 f32) /\
   alias_agrees (sse_utils_vmuls binary32) 13 0 100 200 13
     (ex_buffers binary32 f32)) /\
  (alias_agrees (sse_utils_vaddd binary64) 13 0 100 200 13
     (ex_buffers binary64 f64) /\
   alias_agrees (sse_utils_vmuld binary64) 13 0 100 200 13
     (ex_buffers binary64 f64)).
Proof.
  destruct (C7_output_aliasing 13 0 100 200 13) as [H32 H64].
  split; [apply H32|apply H64]; try lia;
    (repeat split; try (vm_compute; reflexivity);
     try (vm_compute; discriminate); unfold separate; lia).
Defined.

(** C8: an element-wise kernel changes no address outside the first
    [len] elements of its output and touches only the first [len]
    elements of its three buffers; a sum kernel changes no address at
    all and only loads from the first [len] elements of its buffer. *)
Theorem C8_frame fuel c a b len :
  (forall s : state binary32,
     valid_call s c a b len -> (Z.to_nat len <= fuel)%nat ->
     frame_ok (sse_utils_vadds binary32 fuel c a b len) c a b len s /\
     frame_ok (sse_utils_vmuls binary32 fuel c a b len) c a b len s) /\
  (forall s : state binary64,
     valid_call s c a b len -> (Z.to_nat len <= fuel)%nat ->
     frame_ok (sse_utils_vaddd binary64 fuel c a b len) c a b len s /\
     frame_ok (sse_utils_vmuld binary64 fuel c a b len) c a b len s) /\
  (forall s : state binary32,
     0 <= len <= INT_MAX ->
     allocated binary32 (mem s) a (Z.to_nat len) = true ->
     (Z.to_nat len <= fuel)%nat ->
     readonly_ok (sse_utils_sums binary32 fuel a len) a len s) /\
  (forall s : state binary64,
     0 <= len <= INT_MAX ->
     allocated binary64 (mem s) a (Z.to_nat len) = true ->
     (Z.to_nat len <= fuel)%nat ->
     readonly_ok (sse_utils_sumd binary64 fuel a len) a len s).
Proof.
  split; [|split; [|split]].
  - intros s Hv Hfuel. split.
    + apply (tiered_frame binary32 (fadd binary32) 8 4); [lia|lia|done|done].
    + apply (tiered_frame binary32 (fmul binary32) 8 4); [lia|lia|done|done].
  - intros s Hv Hfuel. split.
    + apply (tiered_frame binary64 (fadd binary64) 4 2); [lia|lia|done|done].
    + apply (tiered_frame binary64 (fmul binary64) 4 2); [lia|lia|done|done].
  - intros s Hlen Ha Hfuel. unfold allocated in Ha.
    destruct (read_lanes binary32 (mem s) a (Z.to_nat len)) as [xs|] eqn:Hxs;
      [|done].
    by apply (sums_readonly binary32 fuel a len s xs).
  - intros s Hlen Ha Hfuel. unfold allocated in Ha.
    destruct (read_lanes binary64 (mem s) a (Z.to_nat len)) as [xs|] eqn:Hxs;
      [|done].
    by apply (sums_readonly binary64 fuel a len s xs).
Qed.

Lemma C8_frame_witness :
  (frame_ok (sse_utils_vadds binary32 13 200 0 100 13) 200 0 100 13
     (ex_buffers binary32 f32) /\
   frame_ok (sse_utils_vmuls binary32 13 200 0 100 13) 200 0 100 13
     (ex_buffers binary32 f32)) /\
  (frame_ok (sse_utils_vaddd binary64 13 200 0 100 13) 200 0 100 13
     (ex_buffers binary64 f64) /\
   frame_ok (sse_utils_vmuld binary64 13 200 0 100 13) 200 0 100 13
     (ex_buffers binary64 f64)) /\
  readonly_ok (sse_utils_sums binary32 13 0 13) 0 13
    (ex_buffers binary32 f32) /\
  readonly_ok (sse_utils_sumd binary64 13 0 13) 0 13
    (ex_buffers binary64 f64).
Proof.
  destruct (C8_frame 13 200 0 100 13) as (H32 & H64 & Hs & Hd).
  split; [apply H32|split; [apply H64|split; [apply Hs|apply Hd]]];
    try lia;
    (repeat split; try (vm_compute; reflexivity);
     try (vm_compute; discriminate); unfold no_clobber, INT_MAX; lia).
Defined.

(** ** Sum kernels *)

(** C6: a sum kernel computes the narrow-tier reduction of the
    specification: whole chunks of 4 elements (2 for double precision)
    added lane by lane to a zero accumulator, the accumulator folded
    pairwise twice (once), the remaining elements added in index order.
    Its accesses are one 4-lane (2-lane) load per whole chunk followed by
    one scalar load per remaining element; it stores nothing. *)
Theorem C6_sum_narrow_tier fuel a len :
  (forall (s : state binary32) xs,
     0 <= len <= INT_MAX ->
     read_lanes binary32 (mem s) a (Z.to_nat len) = Some xs ->
     (Z.to_nat len <= fuel)%nat ->
     sse_utils_sums binary32 fuel a len s
     = Ok (narrow_sum binary32 4 2 xs)
          (State (mem s) (trace s ++ sum_events 4 a len))) /\
  (forall (s : state binary64) xs,
     0 <= len <= INT_MAX ->
     read_lanes binary64 (mem s) a (Z.to_nat len) = Some xs ->
     (Z.to_nat len <= fuel)%nat ->
     sse_utils_sumd binary64 fuel a len s
     = Ok (narrow_sum binary64 2 1 xs)
          (State (mem s) (trace s ++ sum_events 2 a len))).
Proof.
  split; intros s xs Hlen Hxs Hfuel.
  - by apply sse_utils_sums_spec.
  - by apply sse_utils_sumd_spec.
Qed.

Lemma C6_sum_narrow_tier_witness :
  sse_utils_sums binary32 13 0 13 (ex_buffers binary32 f32)
  = Ok (narrow_sum binary32 4 2
          (map f32 [1; 2; 3; 4; 5; 6; 7; 8; 9; 10; 11; 12; 13]))
       (State (mem (ex_buffers binary32 f32))
          (trace (ex_buffers binary32 f32) ++ sum_events 4 0 13)) /\
  sse_utils_sumd binary64 13 0 13 (ex_buffers binary64 f64)
  = Ok (narrow_sum binary64 2 1
          (map f64 [1; 2; 3; 4; 5; 6; 7; 8; 9; 10; 11; 12; 13]))
       (State (mem (ex_buffers binary64 f64))
          (trace (ex_buffers binary64 f64) ++ sum_events 2 0 13)).
Proof.
  destruct (C6_sum_narrow_tier 13 0 13) as [H32 H64].
  split; [apply H32|apply H64]; try lia;
    try (vm_compute; reflexivity); unfold INT_MAX; lia.
Defined.

(** The value on the thirteen elements [1..13]: the kernels and the
    reference give 91, the whole chunks included. *)
Example narrow_sum_13 :
  narrow_sum binary32 4 2
    (map f32 [1; 2; 3; 4; 5; 6; 7; 8; 9; 10; 11; 12; 13]) = f32 91 /\
  narrow_sum binary64 2 1
    (map f64 [1; 2; 3; 4; 5; 6; 7; 8; 9; 10; 11; 12; 13]) = f64 91 /\
  result (sse_utils_sums binary32 13 0 13 (ex_buffers binary32 f32))
  = Some (f32 91) /\
  result (sse_utils_sumd binary64 13 0 13 (ex_buffers binary64 f64))
  = Some (f64 91).
Proof. repeat split; vm_compute; reflexivity. Qed.

Example sum_events_13 :
  sum_events 4 0 13 = [EvLoad 0 4; EvLoad 4 4; EvLoad 8 4; EvLoad 12 1].
Proof. reflexivity. Qed.

(** C3, as stated, fails: for no tolerance, be it [K * len * epsilon]
    or any other function of the length and the data, do the sum kernels
    agree with the naive left-to-right sum on every buffer.  On
    [overflow32] (and [overflow64]) all elements are finite and the
    naive sum is 0, yet the lane totals overflow to opposite infinities
    and the kernel returns a NaN. *)
Lemma C3_tolerance_counterexample :
  ~ (exists tol, sums_within_tolerance tol) /\
  ~ (exists tol, sumd_within_tolerance tol).
Proof.
  split; intros [tol H].
  - assert (Hres : result (sse_utils_sums binary32 8 0 8
                     (State (with_buffer binary32 0 overflow32 ∅) []))
                   = Some S754_nan) by (vm_compute; reflexivity).
    destruct (H 8%nat 0 8 (State (with_buffer binary32 0 overflow32 ∅) [])
                overflow32)
      as (r & s' & Hrun & Hw);
      [unfold INT_MAX; lia|vm_compute; reflexivity|lia|].
    rewrite Hrun in Hres. injection Hres as ->.
    assert (Hn : naive_sum binary32 overflow32 = S754_zero false)
      by (vm_compute; reflexivity).
    rewrite Hn in Hw. discriminate Hw.
  - assert (Hres : result (sse_utils_sumd binary64 4 0 4
                     (State (with_buffer binary64 0 overflow64 ∅) []))
                   = Some S754_nan) by (vm_compute; reflexivity).
    destruct (H 4%nat 0 4 (State (with_buffer binary64 0 overflow64 ∅) [])
                overflow64)
      as (r & s' & Hrun & Hw);
      [unfold INT_MAX; lia|vm_compute; reflexivity|lia|].
    rewrite Hrun in Hres. injection Hres as ->.
    assert (Hn : naive_sum binary64 overflow64 = S754_zero false)
      by (vm_compute; reflexivity).
    rewrite Hn in Hw. discriminate Hw.
Qed.

(** Without any overflow the two orders differ by cancellation: on
    [{1, 0, 2^30, -2^30}] the kernel returns 1 and the naive loop 0, a
    difference of more than a thousand times [len * epsilon]. *)
Example sums_cancellation :
  result (sse_utils_sums binary32 4 0 4
            (State (with_buffer binary32 0 cancel32 ∅) []))
  = Some (S754_finite false 8388608 (-23)) /\
  naive_sum binary32 cancel32 = S754_zero false /\
  ~ within (1000 * inject_Z 4 * FLT_EPSILON)
      (S754_finite false 8388608 (-23)) (S754_zero false).
Proof.
  split; [vm_compute; reflexivity|].
  split; [vm_compute; reflexivity|].
  unfold within, SF2Q. intros H. apply Qle_bool_iff in H.
  vm_compute in H. discriminate.
Qed.

(** On the same data the difference stays below the tolerance relative
    to the magnitudes, [2 * (len + 2) * epsilon * (1 + 0 + 2^30 + 2^30)]. *)
Example sums_cancellation_within :
  within (2 * inject_Z (4 + 2) * FLT_EPSILON * magnitudes cancel32)
    (S754_finite false 8388608 (-23)) (S754_zero false).
Proof.
  unfold within, SF2Q. apply Qle_bool_iff. vm_compute. reflexivity.
Qed.

(** C3, amended: on a buffer of finite floats (at most 8388606 of them
    in single precision) the sum kernel returns a value which, when it
    and the naive left-to-right sum are both finite, agrees with the
    naive sum within [2 * (len + 2) * epsilon] times the sum of the
    magnitudes of the elements; and over any arithmetic whose addition
    is associative and commutative with [fzero] as identity (exact
    arithmetic) the kernel returns the naive sum itself: it only
    reassociates the additions. *)
Theorem C3_sum_close_to_naive :
  (forall fuel a len (s : state binary32) xs,
     0 <= len <= 8388606 ->
     read_lanes binary32 (mem s) a (Z.to_nat len) = Some xs ->
     (Z.to_nat len <= fuel)%nat ->
     Forall (finite_valid 24 128) xs ->
     exists r s',
       sse_utils_sums binary32 fuel a len s = Ok r s' /\
       (finite_float r = true ->
        finite_float (naive_sum binary32 xs) = true ->
        within (2 * inject_Z (len + 2) * FLT_EPSILON * magnitudes xs)
          r (naive_sum binary32 xs))) /\
  (forall fuel a len (s : state binary64) xs,
     0 <= len <= INT_MAX ->
     read_lanes binary64 (mem s) a (Z.to_nat len) = Some xs ->
     (Z.to_nat len <= fuel)%nat ->
     Forall (finite_valid 53 1024) xs ->
     exists r s',
       sse_utils_sumd binary64 fuel a len s = Ok r s' /\
       (finite_float r = true ->
        finite_float (naive_sum binary64 xs) = true ->
        within (2 * inject_Z (len + 2) * DBL_EPSILON * magnitudes xs)
          r (naive_sum binary64 xs))) /\
  (forall A : arith,
     (forall x y z, fadd A x (fadd A y z) = fadd A (fadd A x y) z) ->
     (forall x y, fadd A x y = fadd A y x) ->
     (forall x, fadd A (fzero A) x = x) ->
     forall fuel a len (s : state A) xs,
       0 <= len <= INT_MAX ->
       read_lanes A (mem s) a (Z.to_nat len) = Some xs ->
       (Z.to_nat len <= fuel)%nat ->
       (exists s', sse_utils_sums A fuel a len s = Ok (naive_sum A xs) s') /\
       (exists s', sse_utils_sumd A fuel a len s = Ok (naive_sum A xs) s')).
Proof.
  split; [|split].
  - intros fuel a len s xs Hlen Hxs Hfuel Hval.
    assert (Hl : length (xs : list spec_float) = Z.to_nat len)
      by exact (read_lanes_length binary32 _ _ _ _ Hxs).
    eexists _, _. split.
    + apply sse_utils_sums_spec; [unfold INT_MAX; lia|done|done].
    + intros Hr Hn.
      apply (narrow_sum_within 24 128 ltac:(lia) xs len); try done; [lia|].
      change (2 ^ 24) with 16777216. lia.
  - intros fuel a len s xs Hlen Hxs Hfuel Hval.
    assert (Hl : length (xs : list spec_float) = Z.to_nat len)
      by exact (read_lanes_length binary64 _ _ _ _ Hxs).
    eexists _, _. split.
    + apply sse_utils_sumd_spec; [done|done|done].
    + intros Hr Hn.
      apply (narrow_sum_within 53 1024 ltac:(lia) xs len); try done; [lia|].
      change (2 ^ 53) with 9007199254740992. unfold INT_MAX in Hlen. lia.
  - intros A Hassoc Hcomm Hid fuel a len s xs Hlen Hxs Hfuel. split.
    + eexists. rewrite (sse_utils_sums_spec A fuel a len s xs) by done.
      by rewrite narrow_sum_4_naive.
    + eexists. rewrite (sse_utils_sumd_spec A fuel a len s xs) by done.
      by rewrite narrow_sum_2_naive.
Qed.

Lemma C3_sum_close_to_naive_witness :
  (exists r s',
     sse_utils_sums binary32 13 0 13 (ex_buffers binary32 f32) = Ok r s' /\
     (finite_float r = true ->
      finite_float
        (naive_sum binary32
           (map f32 [1; 2; 3; 4; 5; 6; 7; 8; 9; 10; 11; 12; 13])) = true ->
      within
        (2 * inject_Z (13 + 2) * FLT_EPSILON
         * magnitudes (map f32 [1; 2; 3; 4; 5; 6; 7; 8; 9; 10; 11; 12; 13]))
        r (naive_sum binary32
             (map f32 [1; 2; 3; 4; 5; 6; 7; 8; 9; 10; 11; 12; 13])))) /\
  (exists r s',
     sse_utils_sumd binary64 13 0 13 (ex_buffers binary64 f64) = Ok r s' /\
     (finite_float r = true ->
      finite_float
        (naive_sum binary64
           (map f64 [1; 2; 3; 4; 5; 6; 7; 8; 9; 10; 11; 12; 13])) = true ->
      within
        (2 * inject_Z (13 + 2) * DBL_EPSILON
         * magnitudes (map f64 [1; 2; 3; 4; 5; 6; 7; 8; 9; 10; 11; 12; 13]))
        r (naive_sum binary64
             (map f64 [1; 2; 3; 4; 5; 6; 7; 8; 9; 10; 11; 12; 13])))) /\
  ((exists s', sse_utils_sums exactZ 13 0 13 ex_stateZ
               = Ok (naive_sum exactZ [3; 1; 4; 1; 5; 9; 2; 6; 5; 3; 5; 8; 9]) s') /\
   (exists s', sse_utils_sumd exactZ 13 0 13 ex_stateZ
               = Ok (naive_sum exactZ [3; 1; 4; 1; 5; 9; 2; 6; 5; 3; 5; 8; 9]) s')).
Proof.
  destruct C3_sum_close_to_naive as (H32 & H64 & Hexact).
  split; [|split].
  - apply H32.
    + lia.
    + vm_compute. reflexivity.
    + lia.
    + repeat constructor.
  - apply H64.
    + unfold INT_MAX. lia.
    + vm_compute. reflexivity.
    + lia.
    + repeat constructor.
  - apply (Hexact exactZ).
    + intros x y z. simpl in *. lia.
    + intros x y. simpl in *. lia.
    + intros x. simpl in *. lia.
    + unfold INT_MAX. lia.
    + vm_compute. reflexivity.
    + lia.
Defined.

Example sums_exactZ :
  result (sse_utils_sums exactZ 13 0 13 ex_stateZ) = Some 61.
Proof. vm_compute. reflexivity. Qed.

(** ** Aligned allocator *)

(** C9: whatever [posix_memalign] does within its contract,
    [sse_utils_malloc] leaves the heap as [posix_memalign] left it and
    either returns the pointer of a successful [posix_memalign], which is
    a multiple of 128 with at least [bytes] usable bytes, or returns
    [NULL] after a failed one, with the heap unchanged. *)
Theorem C9_aligned_allocation {heap : Type}
    (posix_memalign : heap -> Z -> Z -> Z * Z * heap)
    (usable : heap -> Z -> Z -> Prop) (h : heap) (bytes : Z) :
  posix_memalign_contract posix_memalign usable ->
  in_int bytes ->
  let r := posix_memalign h 128 (size_t_of_int bytes) in
  let '(p, h') := sse_utils_malloc posix_memalign h bytes in
  h' = r.2 /\
  ((r.1.1 = 0 /\ p = r.1.2 /\ p mod 128 = 0 /\
    usable h' p (size_t_of_int bytes) /\ bytes <= size_t_of_int bytes) \/
   (r.1.1 <> 0 /\ p = NULL /\ h' = h)).
Proof. intros Hc Hb. by apply sse_utils_malloc_spec. Qed.

Lemma C9_aligned_allocation_witness :
  let h := BumpHeap 1000 4096 [] in
  let r := bump_memalign h 128 (size_t_of_int 1000) in
  let '(p, h') := sse_utils_malloc bump_memalign h 1000 in
  h' = r.2 /\
  ((r.1.1 = 0 /\ p = r.1.2 /\ p mod 128 = 0 /\
    bump_usable h' p (size_t_of_int 1000) /\ 1000 <= size_t_of_int 1000) \/
   (r.1.1 <> 0 /\ p = NULL /\ h' = h)).
Proof.
  apply (C9_aligned_allocation bump_memalign bump_usable (BumpHeap 1000 4096 []) 1000).
  - exact bump_contract.
  - unfold in_int, INT_MIN, INT_MAX. lia.
Defined.

Example malloc_success :
  sse_utils_malloc bump_memalign (BumpHeap 1000 4096 []) 1000
  = (1024, BumpHeap 2024 4096 [(1024, 1000)]).
Proof. reflexivity. Qed.

Example malloc_failure :
  sse_utils_malloc bump_memalign (BumpHeap 1000 4096 []) 4000
  = (NULL, BumpHeap 1000 4096 []).
Proof. reflexivity. Qed.

Example malloc_negative :
  sse_utils_malloc bump_memalign (BumpHeap 1000 4096 []) (-1)
  = (NULL, BumpHeap 1000 4096 []).
Proof. reflexivity. Qed.

(** ** Negative lengths *)

(** C10, as stated, fails: not every negative length makes the kernels
    return at once.  For [len = INT_MIN] the subtraction [len - 8] leaves
    the range of [int]; wrapped to 32 bits it is 2147483640, the guard
    [0 <= vlen] holds and the wide loop runs. *)
Lemma C10_negative_length_counterexample :
  ~ (forall len, INT_MIN <= len < 0 -> noop_at len).
Proof.
  intros H.
  destruct (H INT_MIN ltac:(unfold INT_MIN; lia)) as [H32 _].
  destruct (H32 2%nat 200 0 100 ex_state8) as [Hadd _].
  assert (Hres : result (sse_utils_vadds binary32 2 200 0 100 INT_MIN ex_state8)
                 = None) by (vm_compute; reflexivity).
  rewrite Hadd in Hres. discriminate Hres.
Qed.

(** What the call with [len = INT_MIN] does on three buffers of eight
    elements: the wide step at index 0 is executed and its eight sums
    are stored, then the second wide step leaves the buffers. *)
Example vadds_INT_MIN :
  let o := sse_utils_vadds binary32 2 200 0 100 INT_MIN ex_state8 in
  result o = None /\
  trace (final_state o) = [EvLoad 0 8; EvLoad 100 8; EvStore 200 8] /\
  read_lanes binary32 (mem (final_state o)) 200 8
  = Some (map f32 [9; 9; 9; 9; 9; 9; 9; 9]).
Proof. repeat split; vm_compute; reflexivity. Qed.

(** C10, amended: for a negative length from which the chunk width can
    be subtracted inside the range of [int], the kernels run no loop
    body: the element-wise kernels return leaving memory and access log
    as they were, the sum kernels return +0.  The bound is [INT_MIN + 8]
    for the single-precision element-wise kernels, [INT_MIN + 4] for
    the double-precision ones and [sse_utils_sums], [INT_MIN + 2] for
    [sse_utils_sumd]. *)
Theorem C10_negative_length_noop len :
  len < 0 ->
  (INT_MIN + 8 <= len ->
   forall fuel c a b (s : state binary32),
     sse_utils_vadds binary32 fuel c a b len s = Ok tt s /\
     sse_utils_vmuls binary32 fuel c a b len s = Ok tt s) /\
  (INT_MIN + 4 <= len ->
   (forall fuel c a b (s : state binary64),
      sse_utils_vaddd binary64 fuel c a b len s = Ok tt s /\
      sse_utils_vmuld binary64 fuel c a b len s = Ok tt s) /\
   (forall fuel a (s : state binary32),
      sse_utils_sums binary32 fuel a len s = Ok (S754_zero false) s)) /\
  (INT_MIN + 2 <= len ->
   forall fuel a (s : state binary64),
     sse_utils_sumd binary64 fuel a len s = Ok (S754_zero false) s).
Proof.
  intros Hneg. repeat split; intros.
  - rewrite sse_utils_vadds_tiered. apply tiered_noop; lia.
  - rewrite sse_utils_vmuls_tiered. apply tiered_noop; lia.
  - rewrite sse_utils_vaddd_tiered. apply tiered_noop; lia.
  - rewrite sse_utils_vmuld_tiered. apply tiered_noop; lia.
  - rewrite sse_utils_sums_noop by lia. reflexivity.
  - rewrite sse_utils_sumd_noop by lia. reflexivity.
Qed.

Lemma C10_negative_length_noop_witness :
  (forall fuel c a b (s : state binary32),
     sse_utils_vadds binary32 fuel c a b (INT_MIN + 8) s = Ok tt s /\
     sse_utils_vmuls binary32 fuel c a b (INT_MIN + 8) s = Ok tt s) /\
  ((forall fuel c a b (s : state binary64),
      sse_utils_vaddd binary64 fuel c a b (INT_MIN + 4) s = Ok tt s /\
      sse_utils_vmuld binary64 fuel c a b (INT_MIN + 4) s = Ok tt s) /\
   (forall fuel a (s : state binary32),
      sse_utils_sums binary32 fuel a (INT_MIN + 4) s = Ok (S754_zero false) s)) /\
  (forall fuel a (s : state binary64),
     sse_utils_sumd binary64 fuel a (INT_MIN + 2) s = Ok (S754_zero false) s).
Proof.
  split; [|split].
  - apply (C10_negative_length_noop (INT_MIN + 8)); unfold INT_MIN; lia.
  - apply (C10_negative_length_noop (INT_MIN + 4)); unfold INT_MIN; lia.
  - apply (C10_negative_length_noop (INT_MIN + 2)); unfold INT_MIN; lia.
Defined.

(** * Further lemmas on the kernels *)

(** A run with a result has ended normally. *)
Lemma result_Ok {A : arith} {X : Type} (o : outcome A X) (x : X) :
  result o = Some x -> o = Ok x (final_state o).
Proof. destruct o; simpl; [by intros [= ->]|done..]. Qed.

Section Determined.

Context (A : arith).
Abbreviation T := (elt A).

(** What an element-wise kernel leaves in memory is fixed by the memory
    before the call. *)
Lemma mem_determined (op : T -> T -> T) c a b len (s s1 s2 : state A) :
  elementwise A op c a b len s s1 -> unchanged_outside A c len s s1 ->
  elementwise A op c a b len s s2 -> unchanged_outside A c len s s2 ->
  mem s1 = mem s2.
Proof.
  intros He1 Ho1 He2 Ho2. apply map_eq. intros p.
  destruct (decide (c <= p < c + len)) as [Hin|Hout].
  - destruct (He1 (p - c) ltac:(lia)) as (x & y & Hx & Hy & H1).
    destruct (He2 (p - c) ltac:(lia)) as (x' & y' & Hx' & Hy' & H2).
    replace (c + (p - c)) with p in H1, H2 by lia. congruence.
  - by rewrite Ho1, Ho2.
Qed.

Lemma valid_call_swap (s : state A) c a b len :
  valid_call s c a b len -> valid_call s c b a len.
Proof. unfold valid_call. tauto. Qed.

Lemma scalar_loop_spec (op : T -> T -> T) fuel c a b len s :
  valid_call s c a b len -> (Z.to_nat len <= fuel)%nat ->
  exists s',
    scalar_loop A op fuel c a b len s = Ok tt s' /\
    elementwise A op c a b len s s' /\
    unchanged_outside A c len s s'.
Proof.
  intros (Hlen & Ha & Hb & Hc & Hca & Hcb) Hfuel.
  assert (Hmax : INT_MAX = 2147483647) by reflexivity.
  destruct (tier_spec A op c a b len s Ha Hb Hc Hca Hcb 1
              (fun i => i <? len) (fun i => wrap_int (i + 1)) fuel 0 s)
    as (n & s' & Hrun & _ & Hd & Ho & Hend); [lia|lia| | |lia| | |].
  { intros i. destruct (Z.ltb_spec i len), (Z.leb_spec i (len - Z.of_nat 1)); lia. }
  { intros i Hi Hiw. apply wrap_int_id. unfold in_int, INT_MIN. lia. }
  { intros j Hj. lia. }
  { intros p _. done. }
  assert (Hn : 0 + Z.of_nat 1 * Z.of_nat n = len) by lia.
  rewrite Hn in *. exists s'. split; [|done].
  unfold scalar_loop, bind.
  rewrite (for_loop_ext A fuel _ (fun i => i <? len) _
             (fun i _ => chunk A op 1 c a b i)); [|done|].
  - by rewrite Hrun.
  - intros j [] t. apply scalar_chunk.
Qed.

(** A tiered kernel leaves the memory which the plain loop leaves. *)
Lemma tiered_scalar_loop (op : T -> T -> T) (W1 W2 : nat) fuel c a b len s :
  (0 < W1 <= 8)%nat -> (0 < W2 <= 8)%nat ->
  valid_call s c a b len -> (Z.to_nat len <= fuel)%nat ->
  same_memory (tiered A op W1 W2 fuel c a b len)
    (scalar_loop A op fuel c a b len) s.
Proof.
  intros HW1 HW2 Hv Hfuel.
  destruct (tiered_valid A op W1 W2 fuel c a b len s HW1 HW2 Hv Hfuel)
    as (s1 & Hrun1 & He1 & Ho1 & _).
  destruct (scalar_loop_spec op fuel c a b len s Hv Hfuel)
    as (s2 & Hrun2 & He2 & Ho2).
  exists s1, s2. split; [done|]. split; [done|].
  by apply (mem_determined op c a b len s).
Qed.

(** With a commutative operation the two inputs may be exchanged. *)
Lemma tiered_swap (op : T -> T -> T) (W1 W2 : nat) fuel c a b len s :
  (forall x y, op x y = op y x) ->
  (0 < W1 <= 8)%nat -> (0 < W2 <= 8)%nat ->
  valid_call s c a b len -> (Z.to_nat len <= fuel)%nat ->
  same_memory (tiered A op W1 W2 fuel c a b len)
    (tiered A op W1 W2 fuel c b a len) s.
Proof.
  intros Hcomm HW1 HW2 Hv Hfuel.
  destruct (tiered_valid A op W1 W2 fuel c a b len s HW1 HW2 Hv Hfuel)
    as (s1 & Hrun1 & He1 & Ho1 & _).
  destruct (tiered_valid A op W1 W2 fuel c b a len s HW1 HW2
              (valid_call_swap _ _ _ _ _ Hv) Hfuel)
    as (s2 & Hrun2 & He2 & Ho2 & _).
  exists s1, s2. split; [done|]. split; [done|].
  apply (mem_determined op c a b len s); try done.
  intros i Hi. destruct (He2 i Hi) as (y & x & Hy & Hx & Hz).
  exists x, y. by rewrite Hcomm.
Qed.

(** The output may be the second input. *)
Lemma tiered_alias_second (op : T -> T -> T) (W1 W2 : nat) fuel a b c len s :
  (0 < W1 <= 8)%nat -> (0 < W2 <= 8)%nat ->
  alias_call s a b c len -> (Z.to_nat len <= fuel)%nat ->
  agree_on (tiered A op W1 W2 fuel b a b len)
    (tiered A op W1 W2 fuel c a b len) b c len s.
Proof.
  intros HW1 HW2 (Hlen & Ha & Hb & Hc & Hba & Hca & Hcb) Hfuel.
  destruct (tiered_spec A op W1 W2 fuel b a b len s) as (s1 & Hrun1 & He1 & _);
    try done.
  { unfold no_clobber, separate in *. lia. }
  { left. lia. }
  destruct (tiered_spec A op W1 W2 fuel c a b len s) as (s2 & Hrun2 & He2 & _);
    try done.
  { unfold no_clobber, separate in *. lia. }
  { unfold no_clobber, separate in *. lia. }
  exists s1, s2. split; [done|]. split; [done|].
  intros i Hi.
  destruct (He1 i Hi) as (x & y & Hx & Hy & ->).
  destruct (He2 i Hi) as (x' & y' & Hx' & Hy' & ->).
  congruence.
Qed.

End Determined.

Section Domain.

Context (A : arith).
Abbreviation T := (elt A).

Lemma write_lanes_dom (m : gmap Z T) p (v : list T) :
  (forall k : Z, 0 <= k < Z.of_nat (length v) -> is_Some (m !! (p + k))) ->
  dom (write_lanes A m p v) = dom m.
Proof.
  revert m p. induction v as [|x v IH]; intros m p Hall; simpl in *; [done|].
  rewrite IH.
  - rewrite dom_insert_L.
    pose proof (Hall 0 ltac:(lia)) as H0. rewrite Z.add_0_r in H0.
    apply elem_of_dom in H0. apply subseteq_union_1_L.
    by apply singleton_subseteq_l.
  - intros k Hk. rewrite lookup_insert_is_Some'. right.
    replace (p + 1 + k) with (p + (k + 1)) by lia. apply Hall. lia.
Qed.

Lemma keeps_domain_bind {X Y} (m : M A X) (f : X -> M A Y) :
  keeps_domain m -> (forall x, keeps_domain (f x)) -> keeps_domain (bind m f).
Proof.
  intros Hm Hf s. specialize (Hm s). unfold bind.
  destruct (m s) as [x s'| |]; simpl in *; [|done..].
  by rewrite Hf.
Qed.

Lemma keeps_domain_ret {X} (x : X) : keeps_domain (ret (A:=A) x).
Proof. by intros s. Qed.

Lemma keeps_domain_loadu w p : keeps_domain (loadu A w p).
Proof. intros s. unfold loadu. by destruct (read_lanes _ _ _ _). Qed.

Lemma keeps_domain_load p : keeps_domain (load A p).
Proof. intros s. unfold load. by destruct (mem s !! p). Qed.

Lemma keeps_domain_chunk (op : T -> T -> T) w c a b i :
  keeps_domain (chunk A op w c a b i).
Proof.
  intros s. unfold chunk, bind, loadu, storeu.
  destruct (read_lanes A (mem s) (a + i) w) as [x|] eqn:Hx; [|done].
  cbn [log mem].
  destruct (read_lanes A (mem s) (b + i) w) as [y|] eqn:Hy; [|done].
  cbn [log mem].
  destruct (allocated A (mem s) (c + i) w) eqn:Hc; [|done].
  cbn [final_state mem]. apply write_lanes_dom.
  rewrite length_zip_with, (read_lanes_length A _ _ _ _ Hx),
    (read_lanes_length A _ _ _ _ Hy), Nat.min_id.
  by apply allocated_spec.
Qed.

Lemma keeps_domain_scalar (op : T -> T -> T) c a b i :
  keeps_domain (scalar A op c a b i).
Proof.
  intros s. rewrite scalar_chunk. apply keeps_domain_chunk.
Qed.

Lemma keeps_domain_for_loop {X} fuel guard (body : Z -> X -> M A X) incr i x :
  (forall j y, keeps_domain (body j y)) ->
  keeps_domain (for_loop fuel guard body incr i x).
Proof.
  intros Hb. revert i x.
  induction fuel as [|fuel IH]; intros i x s; simpl;
    destruct (guard i); try done.
  specialize (Hb i x s).
  destruct (body i x s) as [x' s'| |]; simpl in *; [|done..].
  by rewrite IH.
Qed.

Lemma keeps_domain_tiered (op : T -> T -> T) W1 W2 fuel c a b len :
  keeps_domain (tiered A op W1 W2 fuel c a b len).
Proof.
  unfold tiered.
  apply keeps_domain_bind;
    [apply keeps_domain_for_loop; intros; apply keeps_domain_chunk|].
  intros [i1 []].
  apply keeps_domain_bind;
    [apply keeps_domain_for_loop; intros; apply keeps_domain_chunk|].
  intros [i2 []].
  apply keeps_domain_bind;
    [apply keeps_domain_for_loop; intros; apply keeps_domain_scalar|].
  intros [i3 []]. apply keeps_domain_ret.
Qed.

Lemma keeps_domain_sums fuel a len :
  keeps_domain (sse_utils_sums A fuel a len) /\
  keeps_domain (sse_utils_sumd A fuel a len).
Proof.
  split; unfold sse_utils_sums, sse_utils_sumd.
  - apply keeps_domain_bind.
    { apply keeps_domain_for_loop. intros.
      apply keeps_domain_bind; [apply keeps_domain_loadu|].
      intros; apply keeps_domain_ret. }
    intros [i1 v].
    apply keeps_domain_bind.
    { apply keeps_domain_for_loop. intros.
      apply keeps_domain_bind; [apply keeps_domain_load|].
      intros; apply keeps_domain_ret. }
    intros [i2 r]. apply keeps_domain_ret.
  - apply keeps_domain_bind.
    { apply keeps_domain_for_loop. intros.
      apply keeps_domain_bind; [apply keeps_domain_loadu|].
      intros; apply keeps_domain_ret. }
    intros [i1 v].
    apply keeps_domain_bind.
    { apply keeps_domain_for_loop. intros.
      apply keeps_domain_bind; [apply keeps_domain_load|].
      intros; apply keeps_domain_ret. }
    intros [i2 r]. apply keeps_domain_ret.
Qed.

End Domain.

Section Needed.

Context (A : arith).
Abbreviation T := (elt A).

(** A loop that ends normally has run its body at every index from its
    start to its end. *)
Lemma for_loop_ok_inv {X} (I : state A -> Prop) (Q : Z -> Prop) (w len i0 : Z)
    (guard : Z -> bool) (body : Z -> X -> M A X) (incr : Z -> Z) :
  0 < w ->
  (forall i, guard i = (i <=? len - w)) ->
  (forall i, i0 <= i -> i + w <= len -> incr i = i + w) ->
  (forall i x s x' s', I s -> body i x s = Ok x' s' -> Q i /\ I s') ->
  forall fuel (k : nat) x s i' x' s',
    i0 + w * Z.of_nat k <= len -> I s ->
    for_loop fuel guard body incr (i0 + w * Z.of_nat k) x s = Ok (i', x') s' ->
    exists n : nat,
      i' = i0 + w * Z.of_nat n /\ (k <= n)%nat /\
      i0 + w * Z.of_nat n <= len < i0 + w * Z.of_nat n + w /\ I s' /\
      forall j : nat, (k <= j < n)%nat -> Q (i0 + w * Z.of_nat j).
Proof.
  intros Hw Hg Hincr Hbody.
  induction fuel as [|fuel IH]; intros k x s i' x' s' Hk HI; simpl; rewrite Hg;
    destruct (Z.leb_spec (i0 + w * Z.of_nat k) (len - w)) as [Hle|Hgt];
    try done.
  - intros [= <- <- <-]. exists k. repeat split; try done; lia.
  - destruct (body (i0 + w * Z.of_nat k) x s) as [x1 s1| |] eqn:Hb; try done.
    destruct (Hbody _ _ _ _ _ HI Hb) as [HQ HI1].
    rewrite Hincr by lia.
    replace (i0 + w * Z.of_nat k + w) with (i0 + w * Z.of_nat (S k)) by lia.
    intros Hrun.
    destruct (IH (S k) x1 s1 i' x' s' ltac:(lia) HI1 Hrun)
      as (n & -> & Hn & Hend & HI' & Hall).
    exists n. repeat split; try done; try lia.
    intros j Hj. destruct (decide (j = k)) as [->|Hne]; [done|].
    apply Hall. lia.
  - intros [= <- <- <-]. exists k. repeat split; try done; lia.
Qed.




(** A reading loop that ends normally has found every element from its
    start to its end mapped. *)
Lemma sum_loop_ok_inv {X} (w : nat) (body : Z -> X -> M A X)
    (guard : Z -> bool) (incr : Z -> Z) fuel a len i0 x s i' x' s' :
  (0 < w)%nat -> i0 <= len ->
  (forall i, guard i = (i <=? len - Z.of_nat w)) ->
  (forall i, i0 <= i -> i + Z.of_nat w <= len -> incr i = i + Z.of_nat w) ->
  (forall i y t y' t', body i y t = Ok y' t' ->
     mem t' = mem t /\
     forall k : Z, 0 <= k < Z.of_nat w -> is_Some (mem t !! (a + i + k))) ->
  for_loop fuel guard body incr i0 x s = Ok (i', x') s' ->
  i0 <= i' <= len /\ len < i' + Z.of_nat w /\ mem s' = mem s /\
  forall j, i0 <= j < i' -> is_Some (mem s !! (a + j)).
Proof.
  intros Hw Hi0 Hg Hincr Hbody Hrun.
  destruct (for_loop_ok_inv (fun t => mem t = mem s)
              (fun i => forall k : Z, 0 <= k < Z.of_nat w ->
                 is_Some (mem s !! (a + i + k)))
              (Z.of_nat w) len i0 guard body incr
              ltac:(lia) Hg Hincr) with (fuel := fuel) (k := 0%nat) (x := x)
              (s := s) (i' := i') (x' := x') (s' := s')
    as (n & -> & _ & Hend & HD' & Hall); try done; try lia.
  - intros i y t y' t' Ht Hstep.
    destruct (Hbody _ _ _ _ _ Hstep) as [Hm Hcells].
    split; [|congruence]. intros k Hk. rewrite <- Ht. by apply Hcells.
  - by rewrite Z.mul_0_r, Z.add_0_r.
  - split; [lia|]. split; [lia|]. split; [done|].
    intros j Hj.
    pose proof (Z.div_mod (j - i0) (Z.of_nat w) ltac:(lia)) as Hdm.
    pose proof (Z.mod_pos_bound (j - i0) (Z.of_nat w) ltac:(lia)) as Hm.
    pose proof (Z.div_pos (j - i0) (Z.of_nat w) ltac:(lia) ltac:(lia)) as Hq.
    assert (Hlt : (j - i0) / Z.of_nat w < Z.of_nat n) by nia.
    pose proof (Hall (Z.to_nat ((j - i0) / Z.of_nat w)) ltac:(lia)
                  ((j - i0) mod Z.of_nat w) ltac:(lia)) as Hcell.
    rewrite Z2Nat.id in Hcell by lia.
    replace (a + j) with
      (a + (i0 + Z.of_nat w * ((j - i0) / Z.of_nat w)) + (j - i0) mod Z.of_nat w)
      by lia.
    done.
Qed.

Lemma vector_step_inv (w : nat) a i (acc : list T) t acc' t' :
  (do v <- loadu A w (a + i) ; ret (zip_with (fadd A) acc v)) t = Ok acc' t' ->
  mem t' = mem t /\
  forall k : Z, 0 <= k < Z.of_nat w -> is_Some (mem t !! (a + i + k)).
Proof.
  unfold bind, loadu, ret. intros Hstep.
  destruct (read_lanes A (mem t) (a + i) w) as [v|] eqn:Hv; [|done].
  injection Hstep as <- <-. split; [done|].
  intros k Hk. eapply read_lanes_Some_inv; eauto.
Qed.

Lemma scalar_step_inv a i (sum : T) t sum' t' :
  (do x <- load A (a + i) ; ret (fadd A sum x)) t = Ok sum' t' ->
  mem t' = mem t /\
  forall k : Z, 0 <= k < Z.of_nat 1 -> is_Some (mem t !! (a + i + k)).
Proof.
  unfold bind, load, ret. intros Hstep.
  destruct (mem t !! (a + i)) as [v|] eqn:Hv; [|done].
  injection Hstep as <- <-. split; [done|].
  intros k Hk. replace (a + i + k) with (a + i) by lia. by rewrite Hv.
Qed.

Lemma sums_ok_inv fuel a len s r s' :
  0 <= len <= INT_MAX ->
  sse_utils_sums A fuel a len s = Ok r s' \/
  sse_utils_sumd A fuel a len s = Ok r s' ->
  allocated A (mem s) a (Z.to_nat len) = true.
Proof.
  intros Hlen Hrun.
  assert (Hmax : INT_MAX = 2147483647) by reflexivity.
  assert (Hwrap : forall z, -8 <= z <= INT_MAX -> wrap_int z = z).
  { intros z Hz. apply wrap_int_id. unfold in_int, INT_MIN. lia. }
  assert (Hboth : exists (w : nat) i1 v1 s1 i2 x0,
    (0 < w <= 4)%nat /\
    for_loop fuel (fun i => i <=? wrap_int (len - Z.of_nat w))
      (fun i acc => do v <- loadu A w (a + i) ; ret (zip_with (fadd A) acc v))
      (fun i => wrap_int (i + Z.of_nat w)) 0 (replicate w (fzero A)) s
      = Ok (i1, v1) s1 /\
    for_loop fuel (fun i => i <? len)
      (fun i sum => do x <- load A (a + i) ; ret (fadd A sum x))
      (fun i => wrap_int (i + 1)) i1 x0 s1 = Ok (i2, r) s').
  { destruct Hrun as [Hrun|Hrun];
      [unfold sse_utils_sums in Hrun|unfold sse_utils_sumd in Hrun];
      unfold bind in Hrun; cbv zeta in Hrun;
      (match type of Hrun with
       | match ?l with _ => _ end = _ => destruct l as [[i1 v1] s1| |] eqn:H1
       end; try done);
      (match type of Hrun with
       | match ?l with _ => _ end = _ => destruct l as [[i2 r2] s2| |] eqn:H2
       end; try done);
      injection Hrun as -> ->.
    - exists 4%nat, i1, v1, s1, i2. eexists. split; [lia|]. split; [exact H1|exact H2].
    - exists 2%nat, i1, v1, s1, i2. eexists. split; [lia|]. split; [exact H1|exact H2]. }
  destruct Hboth as (w & i1 & v1 & s1 & i2 & x0 & Hw & H1 & H2).
  apply (sum_loop_ok_inv w _ _ _ fuel a len 0) in H1
    as (Hi1 & He1 & Hm1 & Hc1); try done; try lia.
  2:{ intros i. by rewrite Hwrap by lia. }
  2:{ intros i ? ?. apply Hwrap. lia. }
  2:{ intros. by eapply vector_step_inv. }
  apply (sum_loop_ok_inv 1 _ _ _ fuel a len i1) in H2
    as (Hi2 & He2 & Hm2 & Hc2); try done; try lia.
  2:{ intros i. destruct (Z.ltb_spec i len), (Z.leb_spec i (len - Z.of_nat 1)); lia. }
  2:{ intros i ? ?. apply Hwrap. lia. }
  2:{ intros. by eapply scalar_step_inv. }
  apply allocated_spec. intros k Hk.
  destruct (Z_lt_ge_dec k i1); [apply Hc1; lia|].
  rewrite <- Hm1. apply Hc2. lia.
Qed.

End Needed.

Section Counts.

Lemma tiers_counts (W1 W2 : nat) c a b len :
  (0 < W1)%nat -> (0 < W2)%nat -> (W1 <= 2 * W2)%nat -> 0 <= len ->
  exists n1 n2 n3 : nat,
    tiers_trace W1 W2 c a b len
    = tier_events W1 c a b 0 n1 ++
      tier_events W2 c a b (Z.of_nat (W1 * n1)) n2 ++
      tier_events 1 c a b (Z.of_nat (W1 * n1 + W2 * n2)) n3 /\
    Z.of_nat (W1 * n1 + W2 * n2 + n3) = len /\
    (n2 <= 1)%nat /\ (n3 < W2)%nat.
Proof.
  intros HW1 HW2 HW Hlen.
  pose proof (tier_bounds W1 W2 len HW1 HW2 Hlen) as Hb. cbv zeta in Hb.
  unfold tiers_trace. cbv zeta.
  set (n1 := len / Z.of_nat W1) in *.
  set (i1 := Z.of_nat W1 * n1) in *.
  set (n2 := (len - i1) / Z.of_nat W2) in *.
  set (i2 := i1 + Z.of_nat W2 * n2) in *.
  assert (Hn2 : n2 < 2).
  { apply Z.div_lt_upper_bound; lia. }
  exists (Z.to_nat n1), (Z.to_nat n2), (Z.to_nat (len - i2)).
  replace (Z.of_nat (W1 * Z.to_nat n1)) with i1 by (unfold i1; lia).
  replace (Z.of_nat (W1 * Z.to_nat n1 + W2 * Z.to_nat n2)) with i2
    by (unfold i2, i1; lia).
  split; [done|]. split; [unfold i2, i1 in *; lia|]. lia.
Qed.

Lemma loaded_app a (tr1 tr2 : list event) :
  loaded a (tr1 ++ tr2) = loaded a tr1 ++ loaded a tr2.
Proof. apply flat_map_app. Qed.

Lemma loaded_vector (w : nat) a n :
  loaded a (map (fun k => EvLoad (a + Z.of_nat w * Z.of_nat k) w) (seq 0 n))
  = seqZ 0 (Z.of_nat w * Z.of_nat n).
Proof.
  induction n as [|n IH].
  - by rewrite Z.mul_0_r.
  - rewrite seq_S, map_app, loaded_app, IH.
    unfold loaded at 1. cbn [map flat_map]. rewrite app_nil_r.
    replace (Z.of_nat w * Z.of_nat (S n))
      with (Z.of_nat w * Z.of_nat n + Z.of_nat w) by lia.
    rewrite seqZ_app by lia. f_equal. f_equal. cbn [Nat.add]. lia.
Qed.

Lemma loaded_scalar a i0 n :
  loaded a (map (fun k => EvLoad (a + i0 + Z.of_nat k) 1) (seq 0 n))
  = seqZ i0 (Z.of_nat n).
Proof.
  induction n as [|n IH].
  - done.
  - rewrite seq_S, map_app, loaded_app, IH.
    unfold loaded at 1. cbn [map flat_map]. rewrite app_nil_r.
    replace (Z.of_nat (S n)) with (Z.of_nat n + Z.of_nat 1) by lia.
    rewrite seqZ_app by lia. f_equal. f_equal. cbn [Nat.add]. lia.
Qed.

(** A sum kernel loads the indices 0, 1, ..., [len - 1], each exactly
    once and in increasing order. *)
Lemma loaded_sum_events (w : nat) a len :
  (0 < w)%nat -> 0 <= len -> loaded a (sum_events w a len) = seqZ 0 len.
Proof.
  intros Hw Hlen.
  pose proof (Z.mul_div_le len (Z.of_nat w) ltac:(lia)) as Hq.
  pose proof (Z.div_pos len (Z.of_nat w) ltac:(lia) ltac:(lia)) as Hq0.
  unfold sum_events. cbv zeta.
  rewrite loaded_app, loaded_vector, loaded_scalar, !Z2Nat.id by lia.
  rewrite <- seqZ_app by lia. f_equal. lia.
Qed.

End Counts.

Section Short.

Context (A : arith).
Abbreviation T := (elt A).

(** On fewer elements than one chunk the reduction is the plain loop,
    started from the folded zero register. *)
Lemma narrow_sum_short (W passes : nat) (xs : list T) :
  (length xs < W)%nat ->
  narrow_sum A W passes xs
  = fold_left (fadd A) xs
      (hd (fzero A)
         (Nat.iter passes (pairwise_fold A) (replicate W (fzero A)))).
Proof.
  intros Hl. unfold narrow_sum. rewrite Nat.div_small by lia.
  rewrite Nat.mul_0_r. reflexivity.
Qed.

(** After an element-wise kernel the output buffer holds the list of the
    combined elements. *)
Lemma elementwise_read (op : T -> T -> T) c a b len (s s' : state A) xs ys :
  0 <= len ->
  read_lanes A (mem s) a (Z.to_nat len) = Some xs ->
  read_lanes A (mem s) b (Z.to_nat len) = Some ys ->
  elementwise A op c a b len s s' ->
  read_lanes A (mem s') c (Z.to_nat len) = Some (zip_with op xs ys).
Proof.
  intros Hlen Hxs Hys He.
  destruct (read_lanes_is_Some A (mem s') c (Z.to_nat len)) as [v Hv].
  { intros k Hk. destruct (He k ltac:(lia)) as (x & y & _ & _ & ->). by eexists. }
  rewrite Hv. f_equal. apply list_eq. intros k.
  pose proof (read_lanes_length A _ _ _ _ Hv) as Hlv.
  pose proof (read_lanes_length A _ _ _ _ Hxs) as Hlx.
  pose proof (read_lanes_length A _ _ _ _ Hys) as Hly.
  destruct (decide (k < Z.to_nat len)%nat) as [Hk|Hk].
  - rewrite (read_lanes_lookup A _ _ _ _ k Hv Hk), lookup_zip_with.
    rewrite (read_lanes_lookup A _ _ _ _ k Hxs Hk).
    rewrite (read_lanes_lookup A _ _ _ _ k Hys Hk).
    destruct (He (Z.of_nat k) ltac:(lia)) as (x & y & -> & -> & ->). done.
  - rewrite !(proj2 (lookup_ge_None _ _)); [done| |lia].
    rewrite length_zip_with. lia.
Qed.

End Short.

Section Special.

Variables prec emax : Z.
Abbreviation FA := (ieee prec emax).
Abbreviation fadd' := (SFadd prec emax).
Abbreviation fmul' := (SFmul prec emax).
Abbreviation finite := (fun r : spec_float => finite_float r = true).

Lemma SFadd_comm (x y : spec_float) : fadd' x y = fadd' y x.
Proof.
  destruct x as [sx|sx| |sx mx ex], y as [sy|sy| |sy my ey]; try done;
    try (by destruct sx, sy).
  unfold SFadd. by rewrite Z.min_comm, Z.add_comm.
Qed.

Lemma SFmul_comm (x y : spec_float) : fmul' x y = fmul' y x.
Proof.
  destruct x as [sx|sx| |sx mx ex], y as [sy|sy| |sy my ey]; try done;
    unfold SFmul; try (by rewrite xorb_comm).
  by rewrite xorb_comm, Pos.mul_comm, Z.add_comm.
Qed.

Lemma fold_left_finite_all (xs : list spec_float) (acc : spec_float) :
  finite_float (fold_left fadd' xs acc) = true ->
  finite_float acc = true /\ Forall finite xs.
Proof.
  revert acc. induction xs as [|x xs IH]; intros acc Hfin; simpl in *; [done|].
  apply IH in Hfin as [Hfin Hxs].
  apply SFadd_finite_inv in Hfin as [? ?]. by split; [|constructor].
Qed.

Lemma zip_finite_all (rs ys : list spec_float) :
  length rs = length ys ->
  Forall finite (zip_with fadd' rs ys) ->
  Forall finite rs /\ Forall finite ys.
Proof.
  revert ys. induction rs as [|r rs IH]; intros [|y ys] Hl Hfin;
    simpl in *; try lia; [done|].
  apply Forall_cons in Hfin as [Hr Hfin].
  apply SFadd_finite_inv in Hr as [? ?].
  destruct (IH ys ltac:(lia) Hfin). by split; constructor.
Qed.

(** Finite lanes of the accumulator after [n] chunks: every element of
    these chunks is finite. *)
Lemma lanes_finite_all (W : nat) (xs : list spec_float) (n : nat) :
  (W * n <= length xs)%nat ->
  Forall finite
    (fold_left (fun acc k => zip_with fadd' acc (take W (drop (W * k) xs)))
       (seq 0 n) (replicate W (S754_zero false))) ->
  Forall finite (take (W * n) xs).
Proof.
  induction n as [|n IH]; intros Hn.
  - rewrite Nat.mul_0_r. by rewrite take_0.
  - rewrite seq_S, fold_left_app. simpl. intros Hfin.
    apply zip_finite_all in Hfin as [Hacc Hchunk].
    + replace (W * S n)%nat with (W * n + W)%nat by lia.
      rewrite <- take_take_drop. apply Forall_app. split; [|done].
      apply IH; [lia|done].
    + assert (Hn' : (W * n <= length (xs : list (elt FA)))%nat).
      { change (W * n <= length xs)%nat. lia. }
      pose proof (acc_length FA W xs n (replicate W (S754_zero false))
                    ltac:(by rewrite length_replicate) Hn') as Hl.
      cbn [fadd fzero elt ieee] in Hl. rewrite Hl.
      rewrite length_take, length_drop. lia.
Qed.

Lemma narrow_sum_4_finite_all (xs : list spec_float) :
  finite_float (narrow_sum FA 4 2 xs) = true -> Forall finite xs.
Proof.
  unfold narrow_sum. cbn [fadd fzero elt ieee].
  set (q := (length xs / 4)%nat).
  assert (Hq : (4 * q <= length xs)%nat) by (apply Nat.Div0.mul_div_le).
  pose proof (acc_length FA 4 xs q (replicate 4 (S754_zero false))
                eq_refl Hq) as Hacc.
  pose proof (lanes_finite_all 4 xs q Hq) as Hlanes.
  cbn [fadd fzero elt ieee] in *.
  destruct (fold_left _ (seq 0 q) (replicate 4 (S754_zero false)))
    as [|l0 [|l1 [|l2 [|l3 [|? ?]]]]]; try discriminate Hacc.
  intros Hfin. apply fold_left_finite_all in Hfin as [Hfold Htail].
  cbn in Hfold.
  apply SFadd_finite_inv in Hfold as [H01 H23].
  apply SFadd_finite_inv in H01 as [H0 H1].
  apply SFadd_finite_inv in H23 as [H2 H3].
  rewrite <- (take_drop (4 * q) xs). apply Forall_app. split; [|done].
  apply Hlanes. by repeat constructor.
Qed.

Lemma narrow_sum_2_finite_all (xs : list spec_float) :
  finite_float (narrow_sum FA 2 1 xs) = true -> Forall finite xs.
Proof.
  unfold narrow_sum. cbn [fadd fzero elt ieee].
  set (q := (length xs / 2)%nat).
  assert (Hq : (2 * q <= length xs)%nat) by (apply Nat.Div0.mul_div_le).
  pose proof (acc_length FA 2 xs q (replicate 2 (S754_zero false))
                eq_refl Hq) as Hacc.
  pose proof (lanes_finite_all 2 xs q Hq) as Hlanes.
  cbn [fadd fzero elt ieee] in *.
  destruct (fold_left _ (seq 0 q) (replicate 2 (S754_zero false)))
    as [|l0 [|l1 [|? ?]]]; try discriminate Hacc.
  intros Hfin. apply fold_left_finite_all in Hfin as [Hfold Htail].
  cbn in Hfold.
  apply SFadd_finite_inv in Hfold as [H0 H1].
  rewrite <- (take_drop (2 * q) xs). apply Forall_app. split; [|done].
  apply Hlanes. by repeat constructor.
Qed.

End Special.

Section Split.

Context (A : arith).
Abbreviation T := (elt A).

(** A call on [len] elements may be made in two calls, on the first [k]
    elements and on the rest. *)
Lemma tiered_split (op : T -> T -> T) (W1 W2 : nat) fuel c a b len k s :
  (0 < W1 <= 8)%nat -> (0 < W2 <= 8)%nat ->
  valid_call s c a b len -> 0 <= k <= len -> (Z.to_nat len <= fuel)%nat ->
  composes_to (tiered A op W1 W2 fuel c a b k)
    (tiered A op W1 W2 fuel (c + k) (a + k) (b + k) (len - k))
    (tiered A op W1 W2 fuel c a b len) s.
Proof.
  intros HW1 HW2 Hv Hk Hfuel.
  pose proof Hv as (Hlen & Ha & Hb & Hc & Hca & Hcb).
  rewrite allocated_spec in Ha, Hb, Hc.
  destruct (tiered_valid A op W1 W2 fuel c a b len s HW1 HW2 Hv Hfuel)
    as (s' & Hrun & He & Ho & _).
  destruct (tiered_valid A op W1 W2 fuel c a b k s HW1 HW2) as
    (s1 & Hrun1 & He1 & Ho1 & _); [|lia|].
  { repeat split; try lia; try (apply allocated_spec; intros; auto with lia);
      unfold no_clobber in *; lia. }
  assert (Hsome : forall p, is_Some (mem s !! p) -> is_Some (mem s1 !! p)).
  { intros p Hp. destruct (decide (c <= p < c + k)) as [Hin|Hout].
    - destruct (He1 (p - c) ltac:(lia)) as (x & y & _ & _ & Hz).
      replace (c + (p - c)) with p in Hz by lia. by rewrite Hz.
    - by rewrite Ho1. }
  destruct (tiered_valid A op W1 W2 fuel (c + k) (a + k) (b + k) (len - k) s1
              HW1 HW2) as (s2 & Hrun2 & He2 & Ho2 & _); [|lia|].
  { repeat split; try lia;
      try (apply allocated_spec; intros j Hj; apply Hsome;
           rewrite <- Z.add_assoc; auto with lia);
      unfold no_clobber in *; lia. }
  exists s1, s2, s'. repeat split; try done.
  apply (mem_determined A op c a b len s); try done.
  - intros i Hi. destruct (Z_lt_ge_dec i k) as [Hlt|Hge].
    + destruct (He1 i ltac:(lia)) as (x & y & Hx & Hy & Hz).
      exists x, y. repeat split; try done. rewrite Ho2 by lia. done.
    + destruct (He2 (i - k) ltac:(lia)) as (x & y & Hx & Hy & Hz).
      replace (a + k + (i - k)) with (a + i) in Hx by lia.
      replace (b + k + (i - k)) with (b + i) in Hy by lia.
      replace (c + k + (i - k)) with (c + i) in Hz by lia.
      rewrite Ho1 in Hx by (unfold no_clobber in *; lia).
      rewrite Ho1 in Hy by (unfold no_clobber in *; lia).
      by exists x, y.
  - intros p Hp. rewrite Ho2, Ho1 by lia. done.
Qed.

End Split.

Section AllocatorEdge.

Context {heap : Type}.
Variable posix_memalign : heap -> Z -> Z -> Z * Z * heap.
Variable usable : heap -> Z -> Z -> Prop.
Hypothesis contract : posix_memalign_contract posix_memalign usable.
Hypothesis capacity : forall h p n, usable h p n -> n <= PTRDIFF_MAX.

(** A negative byte count reaches the allocator as a size above
    [PTRDIFF_MAX], which no heap can serve. *)
Lemma sse_utils_malloc_negative h bytes :
  in_int bytes -> bytes < 0 ->
  sse_utils_malloc posix_memalign h bytes = (NULL, h).
Proof.
  intros [Hmin _] Hneg. unfold sse_utils_malloc.
  destruct (posix_memalign h 128 (size_t_of_int bytes)) as [[rc p] h'] eqn:Hr.
  destruct (contract _ _ _ _ _ _ Hr) as [Hok Hfail].
  destruct (Z.eqb_spec rc 0) as [->|Hrc].
  - destruct (Hok eq_refl) as [_ Hus]. apply capacity in Hus.
    unfold size_t_of_int, PTRDIFF_MAX, INT_MIN in *.
    assert (Hm : bytes mod 2 ^ 64 = bytes + 2 ^ 64).
    { symmetry. apply (Z.mod_unique bytes (2 ^ 64) (-1)); lia. }
    lia.
  - by rewrite (Hfail Hrc).
Qed.

End AllocatorEdge.

Lemma page_contract : posix_memalign_contract page_memalign page_usable.
Proof.
  intros h al sz rc p h' Hr. unfold page_memalign in Hr.
  destruct (Z.ltb_spec 4096 sz) as [Hbig|Hsmall].
  - injection Hr as <- <- <-. split; [done|auto].
  - destruct (bump_contract _ _ _ _ _ _ Hr) as [Hok Hfail].
    split; [|done]. intros Hrc. destruct (Hok Hrc). by repeat split.
Qed.

Lemma page_capacity h p n : page_usable h p n -> n <= PTRDIFF_MAX.
Proof. intros [_ Hn]. unfold PTRDIFF_MAX. lia. Qed.

Section AnyOutcome.

Context (A : arith).
Abbreviation T := (elt A).

Variable R : state A -> state A -> Prop.
Hypothesis R_refl : forall s, R s s.
Hypothesis R_trans : forall s1 s2 s3, R s1 s2 -> R s2 s3 -> R s1 s3.

(** What every executed body keeps, the loop keeps, however it ends. *)
Lemma for_loop_final {X} (P : Z -> Prop) guard (body : Z -> X -> M A X) incr :
  (forall i x s, P i -> guard i = true ->
     R s (final_state (body i x s)) /\ P (incr i)) ->
  forall fuel i x s, P i ->
    R s (final_state (for_loop fuel guard body incr i x s)) /\
    forall i' x' s',
      for_loop fuel guard body incr i x s = Ok (i', x') s' -> P i'.
Proof.
  intros Hbody.
  induction fuel as [|fuel IH]; intros i x s HP; simpl;
    destruct (guard i) eqn:Hg;
    try (split; [apply R_refl|]; intros i' x' s' [= <- <- <-]; done);
    try (split; [apply R_refl|done]).
  destruct (Hbody i x s HP Hg) as [HR HP'].
  destruct (body i x s) as [x1 s1| |]; simpl in *; try done.
  destruct (IH (incr i) x1 s1 HP') as [HR1 Hend].
  split; [by eapply R_trans|done].
Qed.

Lemma bind_final {X Y} (m : M A X) (f : X -> M A Y) s :
  R s (final_state (m s)) ->
  (forall x s1, m s = Ok x s1 -> R s1 (final_state (f x s1))) ->
  R s (final_state (bind m f s)).
Proof.
  intros Hm Hf. unfold bind.
  destruct (m s) as [x s1| |]; simpl in *; try done.
  eapply R_trans; [exact Hm|by apply Hf].
Qed.

End AnyOutcome.

Section InRange.

Context (A : arith).
Abbreviation T := (elt A).

Lemma unchanged_outside_refl c len (s : state A) :
  unchanged_outside A c len s s.
Proof. by intros p _. Qed.

Lemma unchanged_outside_trans c len (s1 s2 s3 : state A) :
  unchanged_outside A c len s1 s2 -> unchanged_outside A c len s2 s3 ->
  unchanged_outside A c len s1 s3.
Proof. intros H12 H23 p Hp. by rewrite H23, H12. Qed.

(** A step of width [w] at an index [i] with [i + w <= len] stores inside
    the first [len] output elements, however it ends. *)
Lemma chunk_in_range (op : T -> T -> T) (w : nat) c a b len i s :
  0 <= i -> i + Z.of_nat w <= len ->
  unchanged_outside A c len s (final_state (chunk A op w c a b i s)).
Proof.
  intros Hi Hw p Hp. unfold chunk, bind, loadu, storeu.
  destruct (read_lanes A (mem s) (a + i) w) as [x|] eqn:Hx; [|done].
  cbn [log mem].
  destruct (read_lanes A (mem s) (b + i) w) as [y|] eqn:Hy; [|done].
  cbn [log mem].
  destruct (allocated A (mem s) (c + i) w) eqn:Hc; [|done].
  cbn [final_state mem].
  assert (Hl : length (zip_with op x y) = w).
  { rewrite length_zip_with, (read_lanes_length A _ _ _ _ Hx),
      (read_lanes_length A _ _ _ _ Hy). lia. }
  destruct (Z_lt_ge_dec p (c + i)).
  - by apply write_lanes_lookup_lt.
  - apply write_lanes_lookup_ge. lia.
Qed.

Lemma tier_in_range (op : T -> T -> T) (w : nat) c a b len vlen fuel i0 s :
  (0 < w <= 8)%nat -> len <= INT_MAX -> 0 <= i0 ->
  vlen = len - Z.of_nat w ->
  let run := for_loop fuel (fun i => i <=? vlen)
               (fun i _ => chunk A op w c a b i)
               (fun i => wrap_int (i + Z.of_nat w)) i0 tt s in
  unchanged_outside A c len s (final_state run) /\
  forall i' x' s', run = Ok (i', x') s' -> 0 <= i'.
Proof.
  intros Hw Hlen Hi0 ->. cbv zeta.
  apply (for_loop_final A (unchanged_outside A c len)
           (unchanged_outside_refl c len) (unchanged_outside_trans c len)
           (fun i => 0 <= i)); [|done].
  intros i [] t Hi Hg. apply Z.leb_le in Hg. split.
  - apply chunk_in_range; lia.
  - rewrite wrap_int_id; [lia|]. unfold in_int, INT_MIN, INT_MAX in *. lia.
Qed.

(** A tiered kernel stores inside the first [len] output elements,
    however it ends and whatever the buffers are. *)
Lemma tiered_in_range (op : T -> T -> T) (W1 W2 : nat) fuel c a b len s :
  (0 < W1 <= 8)%nat -> (0 < W2 <= 8)%nat -> INT_MIN + 8 <= len <= INT_MAX ->
  unchanged_outside A c len s
    (final_state (tiered A op W1 W2 fuel c a b len s)).
Proof.
  intros HW1 HW2 [Hmin Hlen].
  assert (Hwrap : forall z, INT_MIN <= z <= INT_MAX -> wrap_int z = z).
  { intros z Hz. by apply wrap_int_id. }
  unfold tiered. cbv zeta.
  destruct (tier_in_range op W1 c a b len (wrap_int (len - Z.of_nat W1))
              fuel 0 s HW1 Hlen ltac:(lia) ltac:(apply Hwrap; lia))
    as [HR1 HP1].
  apply (bind_final A _ (unchanged_outside_trans c len)); [exact HR1|].
  intros [i1 []] s1 H1. apply HP1 in H1.
  destruct (tier_in_range op W2 c a b len (wrap_int (len - Z.of_nat W2))
              fuel i1 s1 HW2 Hlen H1 ltac:(apply Hwrap; lia))
    as [HR2 HP2].
  apply (bind_final A _ (unchanged_outside_trans c len)); [exact HR2|].
  intros [i2 []] s2 H2. apply HP2 in H2.
  apply (bind_final A _ (unchanged_outside_trans c len)).
  - rewrite (for_loop_ext A fuel _ (fun i => i <=? len - Z.of_nat 1) _
               (fun i _ => chunk A op 1 c a b i)).
    + apply (tier_in_range op 1 c a b len (len - Z.of_nat 1) fuel i2 s2);
        try done; lia.
    + intros i. destruct (Z.ltb_spec i len), (Z.leb_spec i (len - Z.of_nat 1)); lia.
    + intros j [] t. apply scalar_chunk.
  - intros [i3 []] s3 _. apply unchanged_outside_refl.
Qed.

(** The sum kernels never store, however they end. *)
Lemma sums_never_store fuel a len s :
  mem (final_state (sse_utils_sums A fuel a len s)) = mem s /\
  mem (final_state (sse_utils_sumd A fuel a len s)) = mem s.
Proof.
  pose (R := fun s s' : state A => mem s' = mem s).
  assert (Hrefl : forall s, R s s) by done.
  assert (Htrans : forall s1 s2 s3, R s1 s2 -> R s2 s3 -> R s1 s3).
  { unfold R. congruence. }
  assert (Hv : forall w fuel g incr i (x : list T) s,
    R s (final_state (for_loop fuel g
      (fun i acc => do v <- loadu A w (a + i) ; ret (zip_with (fadd A) acc v))
      incr i x s))).
  { intros w fuel' g incr i x t.
    apply (for_loop_final A R Hrefl Htrans (fun _ => True)); [|done].
    intros j y u _ _. split; [|done]. unfold R, bind, loadu, ret.
    by destruct (read_lanes A (mem u) (a + j) w). }
  assert (Hs : forall fuel g incr i (x : T) s,
    R s (final_state (for_loop fuel g
      (fun i sum => do x <- load A (a + i) ; ret (fadd A sum x))
      incr i x s))).
  { intros fuel' g incr i x t.
    apply (for_loop_final A R Hrefl Htrans (fun _ => True)); [|done].
    intros j y u _ _. split; [|done]. unfold R, bind, load, ret.
    by destruct (mem u !! (a + j)). }
  split.
  - change (R s (final_state (sse_utils_sums A fuel a len s))).
    unfold sse_utils_sums. cbv zeta.
    apply (bind_final A R Htrans); [apply Hv|]. intros [i1 v1] s1 _.
    apply (bind_final A R Htrans); [apply Hs|]. intros [i2 r] s2 _. done.
  - change (R s (final_state (sse_utils_sumd A fuel a len s))).
    unfold sse_utils_sumd. cbv zeta.
    apply (bind_final A R Htrans); [apply Hv|]. intros [i1 v1] s1 _.
    apply (bind_final A R Htrans); [apply Hs|]. intros [i2 r] s2 _. done.
Qed.

End InRange.

Section Interleaved.

Context (A : arith).
Abbreviation T := (elt A).

(** After [n] chunks lane [j] of the accumulator holds the left-to-right
    sum of the elements [j], [j + W], ..., [j + (n - 1) W]. *)
Lemma lanes_totals (W : nat) (xs : list T) (n : nat) :
  (W * n <= length xs)%nat ->
  fold_left (fun acc k => zip_with (fadd A) acc (take W (drop (W * k) xs)))
    (seq 0 n) (replicate W (fzero A))
  = map (fun j => naive_sum A
                    (map (fun k => nth (W * k + j) xs (fzero A)) (seq 0 n)))
        (seq 0 W).
Proof.
  induction n as [|n IH]; intros Hn.
  - simpl. apply list_eq. intros i.
    destruct (decide (i < W)%nat) as [Hi|Hi].
    + rewrite lookup_replicate_2 by done.
      rewrite list_lookup_fmap, lookup_seq_lt by done. done.
    + rewrite !(proj2 (lookup_ge_None _ _)); [done| |].
      * rewrite length_map, length_seq. lia.
      * rewrite length_replicate. lia.
  - rewrite seq_S, fold_left_app. cbn [fold_left Nat.add].
    rewrite IH by lia. apply list_eq. intros i.
    rewrite lookup_zip_with, !list_lookup_fmap.
    destruct (decide (i < W)%nat) as [Hi|Hi].
    + rewrite lookup_seq_lt by done. cbn [fmap option_fmap option_map mbind option_bind].
      rewrite lookup_take_lt, lookup_drop by done.
      destruct (lookup_lt_is_Some_2 xs (W * n + i)%nat ltac:(lia)) as [x Hx].
      rewrite Hx. cbn [mbind option_bind]. f_equal.
      unfold naive_sum. rewrite map_app, fold_left_app. cbn [map fold_left].
      f_equal. cbn [Nat.add]. rewrite nth_lookup, Hx. done.
    + rewrite (lookup_seq_ge 0 W i) by lia. done.
Qed.

Lemma narrow_sum_4_interleaved (xs : list T) :
  narrow_sum A 4 2 xs = interleaved_sum_4 A xs.
Proof.
  unfold narrow_sum, interleaved_sum_4, lane_total.
  rewrite lanes_totals by (apply Nat.Div0.mul_div_le). reflexivity.
Qed.

Lemma narrow_sum_2_interleaved (xs : list T) :
  narrow_sum A 2 1 xs = interleaved_sum_2 A xs.
Proof.
  unfold narrow_sum, interleaved_sum_2, lane_total.
  rewrite lanes_totals by (apply Nat.Div0.mul_div_le). reflexivity.
Qed.

End Interleaved.

Section Accuracy.

Variables prec emax : Z.
Hypothesis Hprec : 0 < prec.

Abbreviation FA := (ieee prec emax).
Abbreviation ulps' := (ulps prec emax).
Abbreviation good' := (good prec emax).
Abbreviation approx' := (approx prec emax).
Abbreviation unit' := (2 ^ emin prec emax)%Q.

Lemma exact_sum_ulps (xs : list spec_float) :
  Forall good' xs ->
  (exact_sum xs == inject_Z (sum_ulps prec emax xs) * unit')%Q.
Proof.
  induction 1 as [|x xs Hx Hxs IH]; unfold sum_ulps; simpl.
  - symmetry. apply Qmult_0_l.
  - fold (exact_sum xs). rewrite IH.
    destruct (SF2Q_ulps prec emax x Hx) as (q & Hq & Eq).
    unfold value. rewrite Hq, Eq.
    unfold sum_ulps, sumZ. by rewrite inject_Z_plus, Qmult_plus_distr_l.
Qed.

(** A float that stands for an exact sum with at most [k] roundings is
    within [2 k / 2 ^ prec] times the sum of the absolute values. *)
Lemma approx_exact (k : nat) r v B :
  2 * Z.of_nat k <= 2 ^ prec ->
  approx' k r v B ->
  2 ^ prec * Z.abs (ulps' r - v) <= 2 * Z.of_nat k * B.
Proof.
  intros Hk (_ & Hv & Hr).
  pose proof (error_factor_linear prec Hprec k Hk) as Hlin.
  pose proof (pow_le_pow prec Hprec k) as Hpk.
  pose proof (P_pos prec Hprec) as HP.
  set (a := (2 ^ prec) ^ Z.of_nat k) in *.
  set (G := (2 ^ prec + 1) ^ Z.of_nat k - a) in *.
  set (d := Z.abs (ulps' r - v)) in *.
  assert (0 <= B) by lia.
  assert (H1 : a * (2 ^ prec * d) <= a * (2 * Z.of_nat k * B)).
  { assert (2 ^ prec * (a * d) <= 2 ^ prec * (G * B))
      by (apply Z.mul_le_mono_nonneg_l; lia).
    assert (2 ^ prec * G * B <= 2 * Z.of_nat k * a * B)
      by (apply Z.mul_le_mono_nonneg_r; lia).
    nia. }
  apply Z.mul_le_mono_pos_l in H1; lia.
Qed.

Lemma close_of_bound (r : spec_float) (xs : list spec_float) (n : Z) :
  good' r -> Forall good' xs ->
  2 ^ prec * Z.abs (ulps' r - sum_ulps prec emax xs)
    <= 2 * n * sum_abs prec emax xs ->
  close_to (inject_Z n * epsilon prec * magnitudes xs) r (exact_sum xs).
Proof.
  intros Hr Hxs Hb.
  destruct (SF2Q_ulps prec emax r Hr) as (q & Hq & Eq).
  unfold close_to. rewrite Hq.
  rewrite (exact_sum_ulps xs Hxs), (magnitudes_ulps prec emax xs Hxs).
  assert (E : (q - inject_Z (sum_ulps prec emax xs) * unit'
               == inject_Z (ulps' r - sum_ulps prec emax xs) * unit')%Q).
  { rewrite Eq. unfold Z.sub. rewrite inject_Z_plus, inject_Z_opp.
    set (c := unit'). ring. }
  rewrite E, Qabs_Qmult, (Qabs_pos unit')
    by (apply Qlt_le_weak, (unit_pos prec emax)).
  unfold epsilon.
  assert (HP : (0 < inject_Z (2 ^ prec))%Q).
  { rewrite <- (Zlt_Qlt 0). apply Z.pow_pos_nonneg; lia. }
  change (Qabs (inject_Z (ulps' r - sum_ulps prec emax xs)))
    with (inject_Z (Z.abs (ulps' r - sum_ulps prec emax xs))).
  apply Qle_trans
    with (inject_Z (2 * n * sum_abs prec emax xs) / inject_Z (2 ^ prec)
          * unit')%Q.
  - apply Qmult_le_compat_r; [|apply Qlt_le_weak, (unit_pos prec emax)].
    apply Qle_shift_div_l; [done|].
    rewrite <- inject_Z_mult, <- Zle_Qle. lia.
  - rewrite !inject_Z_mult. apply Qle_lteq. right. set (c := unit'). field.
    intros E'. rewrite E' in HP. by apply Qlt_irrefl in HP.
Qed.

(** The reduction of a sum kernel over finite floats, when it ends
    finite, is within [(len + 2) * epsilon] times the sum of the
    magnitudes of the exact sum. *)
Lemma narrow_sum_accurate (xs : list spec_float) (len : Z) :
  Forall (finite_valid prec emax) xs ->
  len = Z.of_nat (length xs) -> 2 * (len + 2) <= 2 ^ prec ->
  (finite_float (narrow_sum FA 4 2 xs) = true ->
   close_to (inject_Z (len + 2) * epsilon prec * magnitudes xs)
     (narrow_sum FA 4 2 xs) (exact_sum xs)) /\
  (finite_float (narrow_sum FA 2 1 xs) = true ->
   close_to (inject_Z (len + 2) * epsilon prec * magnitudes xs)
     (narrow_sum FA 2 1 xs) (exact_sum xs)).
Proof.
  intros Hval -> Hlen.
  assert (Hxs : Forall good' xs).
  { eapply Forall_impl; [exact Hval|]. intros x [Hv Hf]. by apply valid_good. }
  assert (Hk2 : 2 * Z.of_nat (length xs + 2) <= 2 ^ prec) by lia.
  split; intros Hk.
  - pose proof (narrow_sum_4_approx prec emax Hprec xs Hxs Hk) as Hker.
    pose proof (approx_exact _ _ _ _ Hk2 Hker) as Hb.
    apply close_of_bound; [by destruct Hker|done|].
    replace (Z.of_nat (length xs) + 2) with (Z.of_nat (length xs + 2)) by lia.
    done.
  - pose proof (narrow_sum_2_approx prec emax Hprec xs Hxs Hk) as Hker.
    pose proof (approx_exact _ _ _ _ Hk2 Hker) as Hb.
    apply close_of_bound; [by destruct Hker|done|].
    replace (Z.of_nat (length xs) + 2) with (Z.of_nat (length xs + 2)) by lia.
    done.
Qed.

End Accuracy.

(** * Further properties of the source *)

(** ** The element-wise kernels and the loop of their comments *)

(** X1: under the caller's obligations each element-wise kernel leaves
    the memory which the loop of its source comment,
    [for (i = 0; i < len; i++) c[i] = a[i] op b[i];], leaves: the same
    value at every address, inside and outside the output. *)
Theorem X1_scalar_loop_equivalent fuel c a b len :
  (forall s : state binary32,
     valid_call s c a b len -> (Z.to_nat len <= fuel)%nat ->
     same_memory (sse_utils_vadds binary32 fuel c a b len)
       (scalar_loop binary32 (SFadd 24 128) fuel c a b len) s /\
     same_memory (sse_utils_vmuls binary32 fuel c a b len)
       (scalar_loop binary32 (SFmul 24 128) fuel c a b len) s) /\
  (forall s : state binary64,
     valid_call s c a b len -> (Z.to_nat len <= fuel)%nat ->
     same_memory (sse_utils_vaddd binary64 fuel c a b len)
       (scalar_loop binary64 (SFadd 53 1024) fuel c a b len) s /\
     same_memory (sse_utils_vmuld binary64 fuel c a b len)
       (scalar_loop binary64 (SFmul 53 1024) fuel c a b len) s).
Proof.
  split; intros s Hv Hfuel; split.
  - apply (tiered_scalar_loop binary32 (fadd binary32) 8 4); [lia|lia|done|done].
  - apply (tiered_scalar_loop binary32 (fmul binary32) 8 4); [lia|lia|done|done].
  - apply (tiered_scalar_loop binary64 (fadd binary64) 4 2); [lia|lia|done|done].
  - apply (tiered_scalar_loop binary64 (fmul binary64) 4 2); [lia|lia|done|done].
Qed.

Lemma X1_scalar_loop_equivalent_witness :
  (same_memory (sse_utils_vadds binary32 13 200 0 100 13)
     (scalar_loop binary32 (SFadd 24 128) 13 200 0 100 13)
     (ex_buffers binary32 f32) /\
   same_memory (sse_utils_vmuls binary32 13 200 0 100 13)
     (scalar_loop binary32 (SFmul 24 128) 13 200 0 100 13)
     (ex_buffers binary32 f32)) /\
  (same_memory (sse_utils_vaddd binary64 13 200 0 100 13)
     (scalar_loop binary64 (SFadd 53 1024) 13 200 0 100 13)
     (ex_buffers binary64 f64) /\
   same_memory (sse_utils_vmuld binary64 13 200 0 100 13)
     (scalar_loop binary64 (SFmul 53 1024) 13 200 0 100 13)
     (ex_buffers binary64 f64)).
Proof.
  destruct (X1_scalar_loop_equivalent 13 200 0 100 13) as [H32 H64].
  split; [apply H32|apply H64]; try lia;
    (repeat split; try (vm_compute; reflexivity);
     try (vm_compute; discriminate); unfold no_clobber; lia).
Defined.

(** X2: an element-wise kernel called with its output aliased to its
    second input leaves, at every index below [len], the value which the
    same call leaves in a distinct output buffer. *)
Theorem X2_output_is_second_input fuel a b c len :
  (forall s : state binary32,
     alias_call s a b c len -> (Z.to_nat len <= fuel)%nat ->
     agree_on (sse_utils_vadds binary32 fuel b a b len)
       (sse_utils_vadds binary32 fuel c a b len) b c len s /\
     agree_on (sse_utils_vmuls binary32 fuel b a b len)
       (sse_utils_vmuls binary32 fuel c a b len) b c len s) /\
  (forall s : state binary64,
     alias_call s a b c len -> (Z.to_nat len <= fuel)%nat ->
     agree_on (sse_utils_vaddd binary64 fuel b a b len)
       (sse_utils_vaddd binary64 fuel c a b len) b c len s /\
     agree_on (sse_utils_vmuld binary64 fuel b a b len)
       (sse_utils_vmuld binary64 fuel c a b len) b c len s).
Proof.
  split; intros s Hv Hfuel; split.
  - apply (tiered_alias_second binary32 (fadd binary32) 8 4); [lia|lia|done|done].
  - apply (tiered_alias_second binary32 (fmul binary32) 8 4); [lia|lia|done|done].
  - apply (tiered_alias_second binary64 (fadd binary64) 4 2); [lia|lia|done|done].
  - apply (tiered_alias_second binary64 (fmul binary64) 4 2); [lia|lia|done|done].
Qed.

Lemma X2_output_is_second_input_witness :
  (agree_on (sse_utils_vadds binary32 13 100 0 100 13)
     (sse_utils_vadds binary32 13 200 0 100 13) 100 200 13
     (ex_buffers binary32 f32) /\
   agree_on (sse_utils_vmuls binary32 13 100 0 100 13)
     (sse_utils_vmuls binary32 13 200 0 100 13) 100 200 13
     (ex_buffers binary32 f32)) /\
  (agree_on (sse_utils_vaddd binary64 13 100 0 100 13)
     (sse_utils_vaddd binary64 13 200 0 100 13) 100 200 13
     (ex_buffers binary64 f64) /\
   agree_on (sse_utils_vmuld binary64 13 100 0 100 13)
     (sse_utils_vmuld binary64 13 200 0 100 13) 100 200 13
     (ex_buffers binary64 f64)).
Proof.
  destruct (X2_output_is_second_input 13 0 100 200 13) as [H32 H64].
  split; [apply H32|apply H64]; try lia;
    (repeat split; try (vm_compute; reflexivity);
     try (vm_compute; discriminate); unfold separate; lia).
Defined.

(** X3: the two inputs of an element-wise kernel may be exchanged: the
    call with [a] and [b] and the call with [b] and [a] leave the same
    memory, because IEEE addition and multiplication are commutative
    (a NaN is one value here: its payload is not modelled). *)
Theorem X3_inputs_exchange fuel c a b len :
  (forall s : state binary32,
     valid_call s c a b len -> (Z.to_nat len <= fuel)%nat ->
     same_memory (sse_utils_vadds binary32 fuel c a b len)
       (sse_utils_vadds binary32 fuel c b a len) s /\
     same_memory (sse_utils_vmuls binary32 fuel c a b len)
       (sse_utils_vmuls binary32 fuel c b a len) s) /\
  (forall s : state binary64,
     valid_call s c a b len -> (Z.to_nat len <= fuel)%nat ->
     same_memory (sse_utils_vaddd binary64 fuel c a b len)
       (sse_utils_vaddd binary64 fuel c b a len) s /\
     same_memory (sse_utils_vmuld binary64 fuel c a b len)
       (sse_utils_vmuld binary64 fuel c b a len) s).
Proof.
  split; intros s Hv Hfuel; split.
  - apply (tiered_swap binary32 (fadd binary32) 8 4);
      [apply SFadd_comm|lia|lia|done|done].
  - apply (tiered_swap binary32 (fmul binary32) 8 4);
      [apply SFmul_comm|lia|lia|done|done].
  - apply (tiered_swap binary64 (fadd binary64) 4 2);
      [apply SFadd_comm|lia|lia|done|done].
  - apply (tiered_swap binary64 (fmul binary64) 4 2);
      [apply SFmul_comm|lia|lia|done|done].
Qed.

Lemma X3_inputs_exchange_witness :
  (same_memory (sse_utils_vadds binary32 13 200 0 100 13)
     (sse_utils_vadds binary32 13 200 100 0 13) (ex_buffers binary32 f32) /\
   same_memory (sse_utils_vmuls binary32 13 200 0 100 13)
     (sse_utils_vmuls binary32 13 200 100 0 13) (ex_buffers binary32 f32)) /\
  (same_memory (sse_utils_vaddd binary64 13 200 0 100 13)
     (sse_utils_vaddd binary64 13 200 100 0 13) (ex_buffers binary64 f64) /\
   same_memory (sse_utils_vmuld binary64 13 200 0 100 13)
     (sse_utils_vmuld binary64 13 200 100 0 13) (ex_buffers binary64 f64)).
Proof.
  destruct (X3_inputs_exchange 13 200 0 100 13) as [H32 H64].
  split; [apply H32|apply H64]; try lia;
    (repeat split; try (vm_compute; reflexivity);
     try (vm_compute; discriminate); unfold no_clobber; lia).
Defined.

(** X4: a call on [len] elements may be made as two calls, one on the
    first [k] elements and one on the remaining [len - k] elements of the
    three buffers: the two ways leave the same memory. *)
Theorem X4_split_call fuel c a b len k :
  (forall s : state binary32,
     valid_call s c a b len -> 0 <= k <= len -> (Z.to_nat len <= fuel)%nat ->
     composes_to (sse_utils_vadds binary32 fuel c a b k)
       (sse_utils_vadds binary32 fuel (c + k) (a + k) (b + k) (len - k))
       (sse_utils_vadds binary32 fuel c a b len) s /\
     composes_to (sse_utils_vmuls binary32 fuel c a b k)
       (sse_utils_vmuls binary32 fuel (c + k) (a + k) (b + k) (len - k))
       (sse_utils_vmuls binary32 fuel c a b len) s) /\
  (forall s : state binary64,
     valid_call s c a b len -> 0 <= k <= len -> (Z.to_nat len <= fuel)%nat ->
     composes_to (sse_utils_vaddd binary64 fuel c a b k)
       (sse_utils_vaddd binary64 fuel (c + k) (a + k) (b + k) (len - k))
       (sse_utils_vaddd binary64 fuel c a b len) s /\
     composes_to (sse_utils_vmuld binary64 fuel c a b k)
       (sse_utils_vmuld binary64 fuel (c + k) (a + k) (b + k) (len - k))
       (sse_utils_vmuld binary64 fuel c a b len) s).
Proof.
  split; intros s Hv Hk Hfuel; split.
  - apply (tiered_split binary32 (fadd binary32) 8 4); [lia|lia|done..].
  - apply (tiered_split binary32 (fmul binary32) 8 4); [lia|lia|done..].
  - apply (tiered_split binary64 (fadd binary64) 4 2); [lia|lia|done..].
  - apply (tiered_split binary64 (fmul binary64) 4 2); [lia|lia|done..].
Qed.

Lemma X4_split_call_witness :
  (composes_to (sse_utils_vadds binary32 13 200 0 100 5)
     (sse_utils_vadds binary32 13 (200 + 5) (0 + 5) (100 + 5) (13 - 5))
     (sse_utils_vadds binary32 13 200 0 100 13) (ex_buffers binary32 f32) /\
   composes_to (sse_utils_vmuls binary32 13 200 0 100 5)
     (sse_utils_vmuls binary32 13 (200 + 5) (0 + 5) (100 + 5) (13 - 5))
     (sse_utils_vmuls binary32 13 200 0 100 13) (ex_buffers binary32 f32)) /\
  (composes_to (sse_utils_vaddd binary64 13 200 0 100 5)
     (sse_utils_vaddd binary64 13 (200 + 5) (0 + 5) (100 + 5) (13 - 5))
     (sse_utils_vaddd binary64 13 200 0 100 13) (ex_buffers binary64 f64) /\
   composes_to (sse_utils_vmuld binary64 13 200 0 100 5)
     (sse_utils_vmuld binary64 13 (200 + 5) (0 + 5) (100 + 5) (13 - 5))
     (sse_utils_vmuld binary64 13 200 0 100 13) (ex_buffers binary64 f64)).
Proof.
  destruct (X4_split_call 13 200 0 100 13 5) as [H32 H64].
  split; [apply H32|apply H64]; try lia;
    (repeat split; try (vm_compute; reflexivity);
     try (vm_compute; discriminate); unfold no_clobber; lia).
Defined.

(** X5: under the caller's obligations a single-precision element-wise
    kernel runs [n1] steps of 8 lanes, then [n2] steps of 4 lanes, then
    [n3] scalar steps, with [8 n1 + 4 n2 + n3 = len], at most one step of
    4 lanes and at most three scalar steps; a double-precision kernel
    runs steps of 4 lanes, at most one step of 2 lanes and at most one
    scalar step. *)
Theorem X5_step_counts fuel c a b len :
  (forall s : state binary32,
     valid_call s c a b len -> (Z.to_nat len <= fuel)%nat ->
     exists n1 n2 n3 : nat,
       steps_of (sse_utils_vadds binary32 fuel c a b len) 8 4 c a b s n1 n2 n3 /\
       steps_of (sse_utils_vmuls binary32 fuel c a b len) 8 4 c a b s n1 n2 n3 /\
       Z.of_nat (8 * n1 + 4 * n2 + n3) = len /\
       (n2 <= 1)%nat /\ (n3 <= 3)%nat) /\
  (forall s : state binary64,
     valid_call s c a b len -> (Z.to_nat len <= fuel)%nat ->
     exists n1 n2 n3 : nat,
       steps_of (sse_utils_vaddd binary64 fuel c a b len) 4 2 c a b s n1 n2 n3 /\
       steps_of (sse_utils_vmuld binary64 fuel c a b len) 4 2 c a b s n1 n2 n3 /\
       Z.of_nat (4 * n1 + 2 * n2 + n3) = len /\
       (n2 <= 1)%nat /\ (n3 <= 1)%nat).
Proof.
  split; intros s Hv Hfuel.
  - destruct (tiers_counts 8 4 c a b len) as (n1 & n2 & n3 & Htr & Hsum & H2 & H3);
      [lia|lia|lia|destruct Hv; lia|].
    exists n1, n2, n3.
    destruct (tiered_valid binary32 (fadd binary32) 8 4 fuel c a b len s)
      as (s1 & Hrun1 & _ & _ & Ht1); [lia|lia|done|done|].
    destruct (tiered_valid binary32 (fmul binary32) 8 4 fuel c a b len s)
      as (s2 & Hrun2 & _ & _ & Ht2); [lia|lia|done|done|].
    rewrite Htr in Ht1, Ht2.
    split; [by exists s1|]. split; [by exists s2|]. split; [done|]. lia.
  - destruct (tiers_counts 4 2 c a b len) as (n1 & n2 & n3 & Htr & Hsum & H2 & H3);
      [lia|lia|lia|destruct Hv; lia|].
    exists n1, n2, n3.
    destruct (tiered_valid binary64 (fadd binary64) 4 2 fuel c a b len s)
      as (s1 & Hrun1 & _ & _ & Ht1); [lia|lia|done|done|].
    destruct (tiered_valid binary64 (fmul binary64) 4 2 fuel c a b len s)
      as (s2 & Hrun2 & _ & _ & Ht2); [lia|lia|done|done|].
    rewrite Htr in Ht1, Ht2.
    split; [by exists s1|]. split; [by exists s2|]. split; [done|]. lia.
Qed.

Lemma X5_step_counts_witness :
  (exists n1 n2 n3 : nat,
     steps_of (sse_utils_vadds binary32 13 200 0 100 13) 8 4 200 0 100
       (ex_buffers binary32 f32) n1 n2 n3 /\
     steps_of (sse_utils_vmuls binary32 13 200 0 100 13) 8 4 200 0 100
       (ex_buffers binary32 f32) n1 n2 n3 /\
     Z.of_nat (8 * n1 + 4 * n2 + n3) = 13 /\
     (n2 <= 1)%nat /\ (n3 <= 3)%nat) /\
  (exists n1 n2 n3 : nat,
     steps_of (sse_utils_vaddd binary64 13 200 0 100 13) 4 2 200 0 100
       (ex_buffers binary64 f64) n1 n2 n3 /\
     steps_of (sse_utils_vmuld binary64 13 200 0 100 13) 4 2 200 0 100
       (ex_buffers binary64 f64) n1 n2 n3 /\
     Z.of_nat (4 * n1 + 2 * n2 + n3) = 13 /\
     (n2 <= 1)%nat /\ (n3 <= 1)%nat).
Proof.
  destruct (X5_step_counts 13 200 0 100 13) as [H32 H64].
  split; [apply H32|apply H64]; try lia;
    (repeat split; try (vm_compute; reflexivity);
     try (vm_compute; discriminate); unfold no_clobber; lia).
Defined.

(** ** What the kernels do whatever the buffers are *)



(** X7: a sum kernel that ends normally has found [len] mapped elements
    in its buffer. *)
Theorem X7_sum_buffer_needed fuel a len :
  0 <= len <= INT_MAX ->
  (forall (s s' : state binary32) r,
     sse_utils_sums binary32 fuel a len s = Ok r s' ->
     allocated binary32 (mem s) a (Z.to_nat len) = true) /\
  (forall (s s' : state binary64) r,
     sse_utils_sumd binary64 fuel a len s = Ok r s' ->
     allocated binary64 (mem s) a (Z.to_nat len) = true).
Proof.
  intros Hlen. split; intros s s' r Hrun.
  - apply (sums_ok_inv binary32 fuel a len s r s'); [done|by left].
  - apply (sums_ok_inv binary64 fuel a len s r s'); [done|by right].
Qed.

Lemma X7_sum_buffer_needed_witness :
  allocated binary32 (mem ex_state32) 0 (Z.to_nat 5) = true /\
  allocated binary64 (mem ex_state64) 0 (Z.to_nat 5) = true.
Proof.
  destruct (X7_sum_buffer_needed 5 0 5) as [H32 H64]; [unfold INT_MAX; lia|].
  split.
  - apply (H32 ex_state32
             (final_state (sse_utils_sums binary32 5 0 5 ex_state32))
             (f32 15)).
    apply result_Ok. vm_compute. reflexivity.
  - apply (H64 ex_state64
             (final_state (sse_utils_sumd binary64 5 0 5 ex_state64))
             (f64 15)).
    apply result_Ok. vm_compute. reflexivity.
Defined.

(** X8: an element-wise kernel maps and unmaps nothing: however the run
    ends (normally, at an unmapped address or out of fuel) and whatever
    the arguments are, the mapped addresses are those mapped before. *)
Theorem X8_domain_kept fuel c a b len :
  keeps_domain (sse_utils_vadds binary32 fuel c a b len) /\
  keeps_domain (sse_utils_vmuls binary32 fuel c a b len) /\
  keeps_domain (sse_utils_vaddd binary64 fuel c a b len) /\
  keeps_domain (sse_utils_vmuld binary64 fuel c a b len).
Proof.
  repeat split.
  - apply (keeps_domain_tiered binary32 (fadd binary32) 8 4).
  - apply (keeps_domain_tiered binary32 (fmul binary32) 8 4).
  - apply (keeps_domain_tiered binary64 (fadd binary64) 4 2).
  - apply (keeps_domain_tiered binary64 (fmul binary64) 4 2).
Qed.

(** X9: for every length from [INT_MIN + 8] to [INT_MAX] an element-wise
    kernel stores only inside the first [len] elements of its output,
    however the run ends and whatever the buffers are: also when an input
    overlaps the output, and up to the point where a run stops at an
    unmapped address. *)
Theorem X9_stores_in_range fuel c a b len :
  INT_MIN + 8 <= len <= INT_MAX ->
  (forall s : state binary32,
     unchanged_outside binary32 c len s
       (final_state (sse_utils_vadds binary32 fuel c a b len s)) /\
     unchanged_outside binary32 c len s
       (final_state (sse_utils_vmuls binary32 fuel c a b len s))) /\
  (forall s : state binary64,
     unchanged_outside binary64 c len s
       (final_state (sse_utils_vaddd binary64 fuel c a b len s)) /\
     unchanged_outside binary64 c len s
       (final_state (sse_utils_vmuld binary64 fuel c a b len s))).
Proof.
  intros Hlen. split; intros s; split.
  - apply (tiered_in_range binary32 (fadd binary32) 8 4); [lia|lia|done].
  - apply (tiered_in_range binary32 (fmul binary32) 8 4); [lia|lia|done].
  - apply (tiered_in_range binary64 (fadd binary64) 4 2); [lia|lia|done].
  - apply (tiered_in_range binary64 (fmul binary64) 4 2); [lia|lia|done].
Qed.

Lemma X9_stores_in_range_witness :
  (unchanged_outside binary32 1 12 (ex_buffers binary32 f32)
     (final_state (sse_utils_vadds binary32 20 1 0 100 12
                     (ex_buffers binary32 f32))) /\
   unchanged_outside binary32 1 12 (ex_buffers binary32 f32)
     (final_state (sse_utils_vmuls binary32 20 1 0 100 12
                     (ex_buffers binary32 f32)))) /\
  (unchanged_outside binary64 1 12 (ex_buffers binary64 f64)
     (final_state (sse_utils_vaddd binary64 20 1 0 100 12
                     (ex_buffers binary64 f64))) /\
   unchanged_outside binary64 1 12 (ex_buffers binary64 f64)
     (final_state (sse_utils_vmuld binary64 20 1 0 100 12
                     (ex_buffers binary64 f64)))).
Proof.
  destruct (X9_stores_in_range 20 1 0 100 12) as [H32 H64];
    [unfold INT_MIN, INT_MAX; lia|].
  split; [apply H32|apply H64].
Defined.

(** X10: a sum kernel never stores: however the run ends and whatever
    the arguments are, the memory is the memory before the call. *)
Theorem X10_sums_never_store fuel a len :
  (forall s : state binary32,
     mem (final_state (sse_utils_sums binary32 fuel a len s)) = mem s) /\
  (forall s : state binary64,
     mem (final_state (sse_utils_sumd binary64 fuel a len s)) = mem s).
Proof.
  split; intros s.
  - apply (sums_never_store binary32).
  - apply (sums_never_store binary64).
Qed.

(** ** The sum kernels *)

(** X11: a sum kernel loads the indices 0, 1, ..., [len - 1] of its
    buffer, each exactly once and in increasing order. *)
Theorem X11_sum_loads_once fuel a len :
  (forall (s : state binary32) xs,
     0 <= len <= INT_MAX ->
     read_lanes binary32 (mem s) a (Z.to_nat len) = Some xs ->
     (Z.to_nat len <= fuel)%nat ->
     exists r s' tr,
       sse_utils_sums binary32 fuel a len s = Ok r s' /\
       trace s' = trace s ++ tr /\ loaded a tr = seqZ 0 len) /\
  (forall (s : state binary64) xs,
     0 <= len <= INT_MAX ->
     read_lanes binary64 (mem s) a (Z.to_nat len) = Some xs ->
     (Z.to_nat len <= fuel)%nat ->
     exists r s' tr,
       sse_utils_sumd binary64 fuel a len s = Ok r s' /\
       trace s' = trace s ++ tr /\ loaded a tr = seqZ 0 len).
Proof.
  split; intros s xs Hlen Hxs Hfuel.
  - eexists _, _, _. split; [by apply sse_utils_sums_spec|].
    split; [done|]. apply loaded_sum_events; lia.
  - eexists _, _, _. split; [by apply sse_utils_sumd_spec|].
    split; [done|]. apply loaded_sum_events; lia.
Qed.

Lemma X11_sum_loads_once_witness :
  (exists r s' tr,
     sse_utils_sums binary32 13 0 13 (ex_buffers binary32 f32) = Ok r s' /\
     trace s' = trace (ex_buffers binary32 f32) ++ tr /\
     loaded 0 tr = seqZ 0 13) /\
  (exists r s' tr,
     sse_utils_sumd binary64 13 0 13 (ex_buffers binary64 f64) = Ok r s' /\
     trace s' = trace (ex_buffers binary64 f64) ++ tr /\
     loaded 0 tr = seqZ 0 13).
Proof.
  destruct (X11_sum_loads_once 13 0 13) as [H32 H64].
  split.
  - apply (H32 _ (map f32 [1; 2; 3; 4; 5; 6; 7; 8; 9; 10; 11; 12; 13]));
      [unfold INT_MAX; lia|vm_compute; reflexivity|lia].
  - apply (H64 _ (map f64 [1; 2; 3; 4; 5; 6; 7; 8; 9; 10; 11; 12; 13]));
      [unfold INT_MAX; lia|vm_compute; reflexivity|lia].
Defined.

(** X12: on fewer elements than one register holds (fewer than 4 for
    single precision, fewer than 2 for double precision) a sum kernel
    returns, bit for bit, the result of the loop
    [for (sum = 0, i = 0; i < len; i++) sum += a[i];]. *)
Theorem X12_short_sum_is_naive fuel a len :
  (forall (s : state binary32) xs,
     0 <= len < 4 ->
     read_lanes binary32 (mem s) a (Z.to_nat len) = Some xs ->
     (Z.to_nat len <= fuel)%nat ->
     exists s', sse_utils_sums binary32 fuel a len s
                = Ok (naive_sum binary32 xs) s') /\
  (forall (s : state binary64) xs,
     0 <= len < 2 ->
     read_lanes binary64 (mem s) a (Z.to_nat len) = Some xs ->
     (Z.to_nat len <= fuel)%nat ->
     exists s', sse_utils_sumd binary64 fuel a len s
                = Ok (naive_sum binary64 xs) s').
Proof.
  split; intros s xs Hlen Hxs Hfuel;
    pose proof (read_lanes_length _ _ _ _ _ Hxs) as Hl; eexists.
  - rewrite (sse_utils_sums_spec binary32 fuel a len s xs);
      [|unfold INT_MAX; lia|done|done].
    rewrite (narrow_sum_short binary32 4 2 xs) by lia. reflexivity.
  - rewrite (sse_utils_sumd_spec binary64 fuel a len s xs);
      [|unfold INT_MAX; lia|done|done].
    rewrite (narrow_sum_short binary64 2 1 xs) by lia. reflexivity.
Qed.

Lemma X12_short_sum_is_naive_witness :
  (exists s', sse_utils_sums binary32 3 0 3 (ex_buffers binary32 f32)
              = Ok (naive_sum binary32 (map f32 [1; 2; 3])) s') /\
  (exists s', sse_utils_sumd binary64 1 0 1 (ex_buffers binary64 f64)
              = Ok (naive_sum binary64 (map f64 [1])) s').
Proof.
  split.
  - destruct (X12_short_sum_is_naive 3 0 3) as [H32 _].
    apply H32; [lia|vm_compute; reflexivity|lia].
  - destruct (X12_short_sum_is_naive 1 0 1) as [_ H64].
    apply H64; [lia|vm_compute; reflexivity|lia].
Defined.

(** X13: infinities and NaN never disappear in a sum kernel: when the
    result is a finite number, every element of the buffer is one. *)
Theorem X13_finite_sum_finite_elements fuel a len :
  (forall (s : state binary32) xs,
     0 <= len <= INT_MAX ->
     read_lanes binary32 (mem s) a (Z.to_nat len) = Some xs ->
     (Z.to_nat len <= fuel)%nat ->
     exists r s',
       sse_utils_sums binary32 fuel a len s = Ok r s' /\
       (finite_float r = true ->
        Forall (fun x => finite_float x = true) xs)) /\
  (forall (s : state binary64) xs,
     0 <= len <= INT_MAX ->
     read_lanes binary64 (mem s) a (Z.to_nat len) = Some xs ->
     (Z.to_nat len <= fuel)%nat ->
     exists r s',
       sse_utils_sumd binary64 fuel a len s = Ok r s' /\
       (finite_float r = true ->
        Forall (fun x => finite_float x = true) xs)).
Proof.
  split; intros s xs Hlen Hxs Hfuel.
  - eexists _, _. split; [by apply sse_utils_sums_spec|].
    apply (narrow_sum_4_finite_all 24 128).
  - eexists _, _. split; [by apply sse_utils_sumd_spec|].
    apply (narrow_sum_2_finite_all 53 1024).
Qed.

Lemma X13_finite_sum_finite_elements_witness :
  (exists r s',
     sse_utils_sums binary32 13 0 13 (ex_buffers binary32 f32) = Ok r s' /\
     (finite_float r = true ->
      Forall (fun x => finite_float x = true)
        (map f32 [1; 2; 3; 4; 5; 6; 7; 8; 9; 10; 11; 12; 13]))) /\
  (exists r s',
     sse_utils_sumd binary64 13 0 13 (ex_buffers binary64 f64) = Ok r s' /\
     (finite_float r = true ->
      Forall (fun x => finite_float x = true)
        (map f64 [1; 2; 3; 4; 5; 6; 7; 8; 9; 10; 11; 12; 13]))).
Proof.
  destruct (X13_finite_sum_finite_elements 13 0 13) as [H32 H64].
  split; [apply H32|apply H64];
    try (unfold INT_MAX; lia); try (vm_compute; reflexivity).
Defined.

(** X14: the kernels compose to a dot product: after
    [sse_utils_vmuls (c, a, b, len)] the call [sse_utils_sums (c, len)]
    ends normally and returns the narrow-tier reduction of the list of
    the products [a[i] * b[i]], each rounded once; the same for double
    precision. *)
Theorem X14_dot_product fuel c a b len :
  (forall (s : state binary32) xs ys,
     valid_call s c a b len ->
     read_lanes binary32 (mem s) a (Z.to_nat len) = Some xs ->
     read_lanes binary32 (mem s) b (Z.to_nat len) = Some ys ->
     (Z.to_nat len <= fuel)%nat ->
     exists s1 s2,
       sse_utils_vmuls binary32 fuel c a b len s = Ok tt s1 /\
       sse_utils_sums binary32 fuel c len s1
       = Ok (narrow_sum binary32 4 2 (zip_with (SFmul 24 128) xs ys)) s2) /\
  (forall (s : state binary64) xs ys,
     valid_call s c a b len ->
     read_lanes binary64 (mem s) a (Z.to_nat len) = Some xs ->
     read_lanes binary64 (mem s) b (Z.to_nat len) = Some ys ->
     (Z.to_nat len <= fuel)%nat ->
     exists s1 s2,
       sse_utils_vmuld binary64 fuel c a b len s = Ok tt s1 /\
       sse_utils_sumd binary64 fuel c len s1
       = Ok (narrow_sum binary64 2 1 (zip_with (SFmul 53 1024) xs ys)) s2).
Proof.
  split; intros s xs ys Hv Hxs Hys Hfuel; pose proof Hv as [Hlen _].
  - destruct (tiered_valid binary32 (fmul binary32) 8 4 fuel c a b len s)
      as (s1 & Hrun & Hel & _); [lia|lia|done|done|].
    exists s1. eexists. split; [done|].
    apply sse_utils_sums_spec; [done| |done].
    apply (elementwise_read binary32 _ c a b len s s1); [lia|done..].
  - destruct (tiered_valid binary64 (fmul binary64) 4 2 fuel c a b len s)
      as (s1 & Hrun & Hel & _); [lia|lia|done|done|].
    exists s1. eexists. split; [done|].
    apply sse_utils_sumd_spec; [done| |done].
    apply (elementwise_read binary64 _ c a b len s s1); [lia|done..].
Qed.

Lemma X14_dot_product_witness :
  (exists s1 s2,
     sse_utils_vmuls binary32 13 200 0 100 13 (ex_buffers binary32 f32)
     = Ok tt s1 /\
     sse_utils_sums binary32 13 200 13 s1
     = Ok (narrow_sum binary32 4 2
             (zip_with (SFmul 24 128)
                (map f32 [1; 2; 3; 4; 5; 6; 7; 8; 9; 10; 11; 12; 13])
                (map f32 [13; 12; 11; 10; 9; 8; 7; 6; 5; 4; 3; 2; 1]))) s2) /\
  (exists s1 s2,
     sse_utils_vmuld binary64 13 200 0 100 13 (ex_buffers binary64 f64)
     = Ok tt s1 /\
     sse_utils_sumd binary64 13 200 13 s1
     = Ok (narrow_sum binary64 2 1
             (zip_with (SFmul 53 1024)
                (map f64 [1; 2; 3; 4; 5; 6; 7; 8; 9; 10; 11; 12; 13])
                (map f64 [13; 12; 11; 10; 9; 8; 7; 6; 5; 4; 3; 2; 1]))) s2).
Proof.
  destruct (X14_dot_product 13 200 0 100 13) as [H32 H64].
  split; [apply H32|apply H64]; try lia; try (vm_compute; reflexivity);
    (repeat split; try (vm_compute; reflexivity);
     try (vm_compute; discriminate); unfold no_clobber; lia).
Defined.

(** X16: the summation order of the sum kernels, written out:
    [sse_utils_sums] returns [(S0 + S1) + (S2 + S3)] followed by the
    remaining [len mod 4] elements in index order, where [Sj] is the
    left-to-right sum, started from +0, of the elements [j], [j + 4],
    [j + 8], ... of the whole chunks; [sse_utils_sumd] returns [S0 + S1]
    followed by the remaining element, with strides of 2. *)
Theorem X16_interleaved_partial_sums fuel a len :
  (forall (s : state binary32) xs,
     0 <= len <= INT_MAX ->
     read_lanes binary32 (mem s) a (Z.to_nat len) = Some xs ->
     (Z.to_nat len <= fuel)%nat ->
     exists s', sse_utils_sums binary32 fuel a len s
                = Ok (interleaved_sum_4 binary32 xs) s') /\
  (forall (s : state binary64) xs,
     0 <= len <= INT_MAX ->
     read_lanes binary64 (mem s) a (Z.to_nat len) = Some xs ->
     (Z.to_nat len <= fuel)%nat ->
     exists s', sse_utils_sumd binary64 fuel a len s
                = Ok (interleaved_sum_2 binary64 xs) s').
Proof.
  split; intros s xs Hlen Hxs Hfuel; eexists.
  - rewrite (sse_utils_sums_spec binary32 fuel a len s xs) by done.
    by rewrite narrow_sum_4_interleaved.
  - rewrite (sse_utils_sumd_spec binary64 fuel a len s xs) by done.
    by rewrite narrow_sum_2_interleaved.
Qed.

Lemma X16_interleaved_partial_sums_witness :
  (exists s', sse_utils_sums binary32 13 0 13 (ex_buffers binary32 f32)
              = Ok (interleaved_sum_4 binary32
                      (map f32 [1; 2; 3; 4; 5; 6; 7; 8; 9; 10; 11; 12; 13]))
                   s') /\
  (exists s', sse_utils_sumd binary64 13 0 13 (ex_buffers binary64 f64)
              = Ok (interleaved_sum_2 binary64
                      (map f64 [1; 2; 3; 4; 5; 6; 7; 8; 9; 10; 11; 12; 13]))
                   s').
Proof.
  destruct (X16_interleaved_partial_sums 13 0 13) as [H32 H64].
  split; [apply H32|apply H64];
    try (unfold INT_MAX; lia); try (vm_compute; reflexivity).
Defined.

(** X17: accuracy of the sum kernels.  On finite floats, when the
    returned sum is finite, it differs from the exact sum of the elements
    by at most [(len + 2) * epsilon * (|a[0]| + ... + |a[len - 1]|)],
    with [epsilon] the machine epsilon of the precision ([len] up to
    8388606 for single precision). *)
Theorem X17_sum_accuracy fuel a len :
  (forall (s : state binary32) xs,
     0 <= len <= 8388606 ->
     read_lanes binary32 (mem s) a (Z.to_nat len) = Some xs ->
     (Z.to_nat len <= fuel)%nat ->
     Forall (finite_valid 24 128) xs ->
     exists r s',
       sse_utils_sums binary32 fuel a len s = Ok r s' /\
       (finite_float r = true ->
        close_to (inject_Z (len + 2) * FLT_EPSILON * magnitudes xs)
          r (exact_sum xs))) /\
  (forall (s : state binary64) xs,
     0 <= len <= INT_MAX ->
     read_lanes binary64 (mem s) a (Z.to_nat len) = Some xs ->
     (Z.to_nat len <= fuel)%nat ->
     Forall (finite_valid 53 1024) xs ->
     exists r s',
       sse_utils_sumd binary64 fuel a len s = Ok r s' /\
       (finite_float r = true ->
        close_to (inject_Z (len + 2) * DBL_EPSILON * magnitudes xs)
          r (exact_sum xs))).
Proof.
  split.
  - intros s xs Hlen Hxs Hfuel Hval.
    assert (Hl : length (xs : list spec_float) = Z.to_nat len)
      by exact (read_lanes_length binary32 _ _ _ _ Hxs).
    eexists _, _. split.
    + apply sse_utils_sums_spec; [unfold INT_MAX; lia|done|done].
    + intros Hr.
      apply (narrow_sum_accurate 24 128 ltac:(lia) xs len); try done; [lia|].
      change (2 ^ 24) with 16777216. lia.
  - intros s xs Hlen Hxs Hfuel Hval.
    assert (Hl : length (xs : list spec_float) = Z.to_nat len)
      by exact (read_lanes_length binary64 _ _ _ _ Hxs).
    eexists _, _. split.
    + apply sse_utils_sumd_spec; [done|done|done].
    + intros Hr.
      apply (narrow_sum_accurate 53 1024 ltac:(lia) xs len); try done; [lia|].
      change (2 ^ 53) with 9007199254740992. unfold INT_MAX in Hlen. lia.
Qed.

Lemma X17_sum_accuracy_witness :
  (exists r s',
     sse_utils_sums binary32 13 0 13 (ex_buffers binary32 f32) = Ok r s' /\
     (finite_float r = true ->
      close_to
        (inject_Z (13 + 2) * FLT_EPSILON
         * magnitudes (map f32 [1; 2; 3; 4; 5; 6; 7; 8; 9; 10; 11; 12; 13]))
        r (exact_sum (map f32 [1; 2; 3; 4; 5; 6; 7; 8; 9; 10; 11; 12; 13])))) /\
  (exists r s',
     sse_utils_sumd binary64 13 0 13 (ex_buffers binary64 f64) = Ok r s' /\
     (finite_float r = true ->
      close_to
        (inject_Z (13 + 2) * DBL_EPSILON
         * magnitudes (map f64 [1; 2; 3; 4; 5; 6; 7; 8; 9; 10; 11; 12; 13]))
        r (exact_sum (map f64 [1; 2; 3; 4; 5; 6; 7; 8; 9; 10; 11; 12; 13])))).
Proof.
  destruct (X17_sum_accuracy 13 0 13) as [H32 H64].
  split.
  - apply H32.
    + lia.
    + vm_compute. reflexivity.
    + lia.
    + repeat constructor.
  - apply H64.
    + unfold INT_MAX. lia.
    + vm_compute. reflexivity.
    + lia.
    + repeat constructor.
Defined.

(** ** The allocator *)

(** X15: a negative byte count is never served.  Converted to [size_t]
    it is a size above [PTRDIFF_MAX]; with a [posix_memalign] that meets
    its contract, on a heap in which no block has more than [PTRDIFF_MAX]
    usable bytes, [sse_utils_malloc] returns [NULL] and leaves the heap
    as it was. *)
Theorem X15_negative_bytes {heap : Type}
    (posix_memalign : heap -> Z -> Z -> Z * Z * heap)
    (usable : heap -> Z -> Z -> Prop) (h : heap) (bytes : Z) :
  posix_memalign_contract posix_memalign usable ->
  (forall h p n, usable h p n -> n <= PTRDIFF_MAX) ->
  in_int bytes -> bytes < 0 ->
  sse_utils_malloc posix_memalign h bytes = (NULL, h).
Proof. intros Hc Hcap Hb Hneg. by eapply sse_utils_malloc_negative. Qed.

Lemma X15_negative_bytes_witness :
  sse_utils_malloc page_memalign (BumpHeap 1000 4096 []) (-16)
  = (NULL, BumpHeap 1000 4096 []).
Proof.
  apply (X15_negative_bytes page_memalign page_usable).
  - exact page_contract.
  - exact page_capacity.
  - unfold in_int, INT_MIN, INT_MAX. lia.
  - lia.
Defined.
